(** * nxdumptool: UTF-8 aware file name and path helpers (nxdt_utils.c)

    Shallow embedding of [utilsReplaceIllegalCharacters],
    [utilsGetUtf8StringLimit] and [utilsGeneratePath], and the properties
    the specification states about them; further, of [utilsTrimString],
    [utilsGenerateHexStringFromData], [utilsCreateDirectoryTree] and
    [utilsAppendFormattedStringToBuffer], with properties read from the
    code.

    Conventions.  A byte ([u8]) is a [Z] in [0, 255].  A C string is the
    list of the bytes stored before its NUL terminator; a pointer into a
    string is the list of bytes from that position on, and a read at or
    past the end of the list yields the terminator, 0.  Sizes ([size_t])
    are [nat]: every subtraction of the source is guarded so that it does
    not wrap, and lengths stay far below 2^64.  Loops are written with a
    fuel argument and return [None] when the fuel is exhausted; the entry
    points supply enough fuel and the theorems show a result is produced. *)

From Stdlib Require Import ZArith List Bool Lia Arith Sorted.
Import ListNotations.
Local Open Scope Z_scope.

(** ** Bytes and strings *)

Abbreviation u8 := Z (only parsing).

(** [p[i]] for a pointer [p] into a NUL-terminated string. *)
Definition rd (p : list u8) (i : nat) : u8 := nth i p 0.

(** A byte other than the terminator. *)
Definition byteb (b : u8) : bool := (0 <? b) && (b <? 256).

(** The list is the content of a C string: bytes in [1, 255]. *)
Definition cstring (s : list u8) : Prop := forallb byteb s = true.

(** ** CodepointDecoder *)

(** [(b & 0xC0) == 0x80]: a continuation byte, 10xxxxxx. *)
Definition is_cont (b : u8) : bool := Z.land b 0xC0 =? 0x80.

(** Modelled from the spec: [decode_utf8] is the decoder of the platform
    library (libnx), called by this repository but not part of it.  Section
    4.1: decodes one standard UTF-8 sequence of 1 to 4 bytes at the given
    position, yields the code point and the number of bytes consumed, and
    fails on a malformed lead or continuation byte, an overlong encoding or
    a sequence cut short by the end of the buffer.  No restriction beyond
    these is made; in particular the three-byte forms of the surrogate
    range are decoded like any other.  [None] stands for the negative
    return value. *)
Definition decode_utf8 (inp : list u8) : option (Z * nat) :=
  let code1 := rd inp 0 in
  if code1 <? 0x80 then Some (code1, 1%nat)
  else if code1 <? 0xC2 then None
  else if code1 <? 0xE0 then
    let code2 := rd inp 1 in
    if negb (is_cont code2) then None
    else Some (Z.shiftl code1 6 + code2 - 0x3080, 2%nat)
  else if code1 <? 0xF0 then
    let code2 := rd inp 1 in
    if negb (is_cont code2) then None
    else if (code1 =? 0xE0) && (code2 <? 0xA0) then None
    else
      let code3 := rd inp 2 in
      if negb (is_cont code3) then None
      else Some (Z.shiftl code1 12 + Z.shiftl code2 6 + code3 - 0xE2080, 3%nat)
  else if code1 <? 0xF5 then
    let code2 := rd inp 1 in
    if negb (is_cont code2) then None
    else if (code1 =? 0xF0) && (code2 <? 0x90) then None
    else if (code1 =? 0xF4) && (0x90 <=? code2) then None
    else
      let code3 := rd inp 2 in
      if negb (is_cont code3) then None
      else
        let code4 := rd inp 3 in
        if negb (is_cont code4) then None
        else Some (Z.shiftl code1 18 + Z.shiftl code2 12 + Z.shiftl code3 6
                   + code4 - 0x3C82080, 4%nat)
  else None.

(** The lengths of the well-formed byte sequences, by ranges of bytes:
    one byte 00..7F; two bytes C2..DF, 80..BF; three bytes E0..EF with the
    second byte starting at A0 after E0; four bytes F0..F4 with the second
    byte starting at 90 after F0 and ending at 8F after F4. *)
Definition in_range (lo hi b : Z) : bool := (lo <=? b) && (b <=? hi).

Definition well_formed_len (p : list u8) : option nat :=
  let b1 := rd p 0 in
  let b2 := rd p 1 in
  let b3 := rd p 2 in
  let b4 := rd p 3 in
  if in_range 0x00 0x7F b1 then Some 1%nat
  else if in_range 0xC2 0xDF b1 then
    if in_range 0x80 0xBF b2 then Some 2%nat else None
  else if in_range 0xE0 0xEF b1 then
    if in_range (if b1 =? 0xE0 then 0xA0 else 0x80) 0xBF b2
       && in_range 0x80 0xBF b3
    then Some 3%nat else None
  else if in_range 0xF0 0xF4 b1 then
    if in_range (if b1 =? 0xF0 then 0x90 else 0x80)
                (if b1 =? 0xF4 then 0x8F else 0xBF) b2
       && in_range 0x80 0xBF b3 && in_range 0x80 0xBF b4
    then Some 4%nat else None
  else None.

(** A byte string is valid UTF-8 when it splits, front to back, into
    sequences the decoder accepts. *)
Inductive utf8_valid : list u8 -> Prop :=
| utf8_valid_nil : utf8_valid []
| utf8_valid_seq : forall b l code units,
    decode_utf8 (b :: l) = Some (code, units) ->
    utf8_valid (skipn units (b :: l)) ->
    utf8_valid (b :: l).

(** A decision procedure for [utf8_valid]. *)
Fixpoint utf8_validb (fuel : nat) (s : list u8) : bool :=
  match s with
  | [] => true
  | _ :: _ =>
    match fuel with
    | O => false
    | S fuel' =>
      match decode_utf8 s with
      | Some (_, u) => utf8_validb fuel' (skipn u s)
      | None => false
      end
    end
  end.

(** ** TruncationBoundaryFinder *)

(** #define NT_MAX_FILENAME_LENGTH 255 *)
Definition NT_MAX_FILENAME_LENGTH : nat := 255.

(** The [while] loop of [utilsGetUtf8StringLimit]; [str] is the pointer
    [str_u8]. *)
Fixpoint limit_loop (fuel : nat) (str : list u8) (str_size byte_limit : nat)
    (cur_pos last_cp_pos : nat) : option nat :=
  match fuel with
  | O => None
  | S fuel' =>
    if (cur_pos <? str_size)%nat && (cur_pos <? byte_limit)%nat then
      match decode_utf8 (skipn cur_pos str) with
      | None => Some last_cp_pos                       (* units < 0: break *)
      | Some (code, units) =>
        let new_pos := (cur_pos + units)%nat in
        if (code =? 0) || (str_size <? new_pos)%nat then Some last_cp_pos
        else
          let cur_pos' := new_pos in
          let last_cp_pos' :=
            if (cur_pos' <? byte_limit)%nat then cur_pos' else last_cp_pos in
          limit_loop fuel' str str_size byte_limit cur_pos' last_cp_pos'
      end
    else Some last_cp_pos
  end.

(** [utilsGetUtf8StringLimit(str, str_size, byte_limit)] for a non-NULL
    [str]. *)
Definition utilsGetUtf8StringLimit (str : list u8) (str_size byte_limit : nat)
    : option nat :=
  if (rd str 0 =? 0) || (str_size =? 0)%nat || (byte_limit =? 0)%nat
  then Some O
  else if (str_size <? byte_limit)%nat then Some str_size
  else limit_loop (S str_size) str str_size byte_limit 0 0.

(** ** Buffer primitives *)

(** [*(buf + i) = v]. *)
Definition store (buf : list u8) (i : nat) (v : u8) : list u8 :=
  firstn i buf ++ v :: skipn (S i) buf.

(** [memmove(buf + dst, buf + src, n)]: the source bytes are read before
    any byte is written, so overlapping ranges are copied correctly. *)
Definition memmove (buf : list u8) (dst src n : nat) : list u8 :=
  firstn dst buf ++ firstn n (skipn src buf) ++ skipn (dst + n) buf.

(** [strchr(s, c)] for [c <> 0]: offset of the first occurrence of [c]
    before the terminator, [None] for a NULL result. *)
Fixpoint strchr (s : list u8) (c : u8) : option nat :=
  match s with
  | [] => None
  | b :: r => if b =? c then Some O else option_map S (strchr r c)
  end.

(** ** IllegalCharacterFilter *)

(** The nine bytes of the array g_illegalFileSystemChars before its
    terminator: backslash, slash, colon, asterisk, question mark, double
    quote, less-than, greater-than, vertical bar. *)
Definition g_illegalFileSystemChars : list u8 :=
  [92; 47; 58; 42; 63; 34; 60; 62; 124].

(** [memchr(g_illegalFileSystemChars, (int)code, 9) != NULL]: [memchr]
    compares each byte with its second argument converted to
    [unsigned char]. *)
Definition memchr_illegal (code : Z) : bool :=
  existsb (fun ch => ch =? code mod 256) g_illegalFileSystemChars.

(** The condition of the [if] in the loop of
    [utilsReplaceIllegalCharacters]. *)
Definition illegal (ascii_only : bool) (code : Z) : bool :=
  memchr_illegal code || (code <? 0x20)
  || (negb ascii_only && (code =? 0x7F))
  || (ascii_only && (0x7F <=? code)).

(** The [while] loop of [utilsReplaceIllegalCharacters]: [ptr1] is the read
    cursor and [ptr2] the write cursor, both offsets into [str].  Returns
    the buffer and [ptr2] at loop exit. *)
Fixpoint replace_loop (fuel : nat) (ascii_only : bool) (str : list u8)
    (str_size ptr1 ptr2 cur_pos : nat) : option (list u8 * nat) :=
  match fuel with
  | O => None
  | S fuel' =>
    if (cur_pos <? str_size)%nat then
      match decode_utf8 (skipn ptr1 str) with
      | None => Some (str, ptr2)                       (* units < 0: break *)
      | Some (code, units) =>
        if illegal ascii_only code then
          replace_loop fuel' ascii_only (store str ptr2 95) str_size
                       (ptr1 + units) (S ptr2) (cur_pos + units)
        else
          let str' :=
            if (ptr2 =? ptr1)%nat then str else memmove str ptr2 ptr1 units in
          replace_loop fuel' ascii_only str' str_size
                       (ptr1 + units) (ptr2 + units) (cur_pos + units)
      end
    else Some (str, ptr2)
  end.

(** [utilsReplaceIllegalCharacters(str, ascii_only)] for a non-NULL [str]:
    the content of [str] after the call ([*ptr2 = 0] ends the string at
    the write cursor). *)
Definition utilsReplaceIllegalCharacters (str : list u8) (ascii_only : bool)
    : option (list u8) :=
  let str_size := length str in
  if (str_size =? 0)%nat then Some str
  else
    match replace_loop (S str_size) ascii_only str str_size 0 0 0 with
    | None => None
    | Some (buf, ptr2) => Some (firstn ptr2 buf)
    end.

(** ** PathSynthesizer *)

(** The three error exits of [utilsGeneratePath], named after the message
    each one logs.  (Allocation is taken to succeed.) *)
Inductive gen_error : Set :=
| InvalidParameters   (* Invalid parameters! *)
| ExtensionTooLong    (* File extension length is >= truncated filename length! *)
| PathTooLong.        (* Generated path length is >= FS_MAX_PATH! *)

(** What the caller gets: the path, or NULL (tagged with the error logged). *)
Inductive gen_result : Set :=
| Path (p : list u8)
| Failure (e : gen_error).

(** The C return value. *)
Definition returned_path (r : gen_result) : option (list u8) :=
  match r with Path p => Some p | Failure _ => None end.

(** Local variables of [utilsGeneratePath] that the loop updates.  [g_path]
    holds the bytes of [path] before its terminator, so that
    [path[path_len] = 0] cuts the list at [path_len]. *)
Record gen_state : Set := mk_gen_state {
  g_path : list u8;
  g_path_len : nat;
  g_ptr1 : nat;              (* offset of the non-NULL [ptr1] in [path] *)
  g_ptr2 : option nat        (* [None] is NULL *)
}.

(** How one pass through the loop body ends: at the bottom of the body
    with the updated variables, at the [break], or at a [goto end]. *)
Inductive gen_step : Set :=
| Next (path : list u8) (path_len : nat) (ptr1 : option nat) (ptr2 : option nat)
| Break (path : list u8) (path_len : nat)
| Abort (path : list u8) (e : gen_error)
| NoFuel.

(** One pass through the body of [while(ptr1)], entered with [ptr1]
    non-NULL. *)
Definition gen_body (filename_only use_extension : bool) (extension_len : nat)
    (st : gen_state) : gen_step :=
  let path := g_path st in
  let path_len := g_path_len st in
  (* if (!filename_only) { if (!*ptr1++) break; ptr2 = strchr(ptr1, '/'); } *)
  if negb filename_only && (rd path (g_ptr1 st) =? 0) then Break path path_len
  else
    let ptr1 := if filename_only then g_ptr1 st else S (g_ptr1 st) in
    let ptr2 :=
      if filename_only then g_ptr2 st
      else option_map (Nat.add ptr1) (strchr (skipn ptr1 path) 47) in
    let element_size :=
      match ptr2 with
      | Some p2 => (p2 - ptr1)%nat
      | None => (path_len - ptr1)%nat
      end in
    match utilsGetUtf8StringLimit (skipn ptr1 path) element_size
                                  NT_MAX_FILENAME_LENGTH with
    | None => NoFuel
    | Some last_cp_pos =>
      if (last_cp_pos <? element_size)%nat then
        match ptr2 with
        | Some p2 =>
          let path1 :=
            memmove path (ptr1 + last_cp_pos) p2 (path_len - p2) in
          let p2' := (p2 - (element_size - last_cp_pos))%nat in
          let path_len' := (path_len - (element_size - last_cp_pos))%nat in
          Next (firstn path_len' path1) path_len' (Some p2') (Some p2')
        | None =>
          if use_extension then
            if (last_cp_pos <=? extension_len)%nat
            then Abort path ExtensionTooLong
            else
              let path1 :=
                memmove path (ptr1 + last_cp_pos - extension_len)
                        (ptr1 + element_size - extension_len) extension_len in
              let path_len' := (path_len - (element_size - last_cp_pos))%nat in
              Next (firstn path_len' path1) path_len' None None
          else
            let path_len' := (path_len - (element_size - last_cp_pos))%nat in
            Next (firstn path_len' path) path_len' None None
        end
      else Next path path_len ptr2 ptr2
    end.

(** [while(ptr1) { ... }]: the exit state, or the error of a [goto end]. *)
Fixpoint gen_loop (fuel : nat) (filename_only use_extension : bool)
    (extension_len : nat) (path : list u8) (path_len : nat)
    (ptr1 ptr2 : option nat) : option (list u8 * nat + list u8 * gen_error) :=
  match ptr1 with
  | None => Some (inl (path, path_len))
  | Some p1 =>
    match fuel with
    | O => None
    | S fuel' =>
      match gen_body filename_only use_extension extension_len
                     (mk_gen_state path path_len p1 ptr2) with
      | Next path' path_len' ptr1' ptr2' =>
        gen_loop fuel' filename_only use_extension extension_len
                 path' path_len' ptr1' ptr2'
      | Break path' path_len' => Some (inl (path', path_len'))
      | Abort path' e => Some (inr (path', e))
      | NoFuel => None
      end
    end
  end.

(** The [end:] block: with the success flag unset the buffer is freed and
    NULL returned; [e] is the error logged on the way there. *)
Definition gen_end (success : bool) (path : list u8) (e : gen_error)
    : gen_result :=
  if negb success then Failure e else Path path.

(** [s && *s] for a string argument that may be NULL. *)
Definition nonempty_str (s : option (list u8)) : bool :=
  match s with
  | Some p => negb (rd p 0 =? 0)
  | None => false
  end.

(** The bytes of a string argument, none for NULL. *)
Definition bytes_of (s : option (list u8)) : list u8 :=
  match s with
  | Some p => p
  | None => []
  end.

(** The bytes [calloc] and the four [strcat] calls leave in [path]. *)
Definition gen_concat (prefix extension : option (list u8))
    (filename : list u8) : list u8 :=
  let use_prefix := nonempty_str prefix in
  let prefix_len := if use_prefix then length (bytes_of prefix) else O in
  let append_path_sep :=
    use_prefix && negb (rd (bytes_of prefix) (prefix_len - 1) =? 47) in
  let use_extension := nonempty_str extension in
  (if use_prefix then bytes_of prefix else [])
  ++ (if append_path_sep then [47] else [])
  ++ filename
  ++ (if use_extension then bytes_of extension else []).

Section Generate.

(** The macro FS_MAX_PATH comes from the platform headers, outside this
    repository; the model takes its value as a parameter. *)
Variable FS_MAX_PATH : nat.

(** [utilsGeneratePath(prefix, filename, extension)]; [None] only when the
    fuel of the loop runs out, which does not happen. *)
Definition utilsGeneratePath (prefix filename extension : option (list u8))
    : option gen_result :=
  if negb (nonempty_str filename) then Some (Failure InvalidParameters)
  else
    let use_prefix := nonempty_str prefix in
    let prefix_len := if use_prefix then length (bytes_of prefix) else O in
    let append_path_sep :=
      use_prefix && negb (rd (bytes_of prefix) (prefix_len - 1) =? 47) in
    let use_extension := nonempty_str extension in
    let extension_len :=
      if use_extension then length (bytes_of extension) else O in
    let path_len :=
      ((prefix_len + length (bytes_of filename) + extension_len)
       + (if append_path_sep then 1 else 0))%nat in
    let path := gen_concat prefix extension (bytes_of filename) in
    (* ptr1 = strchr(path, '/');
       if (!ptr1) { filename_only = true; ptr1 = path; } *)
    let first_sep := strchr path 47 in
    let filename_only :=
      match first_sep with Some _ => false | None => true end in
    let ptr1 := match first_sep with Some i => i | None => O end in
    match gen_loop (S path_len) filename_only use_extension extension_len
                   path path_len (Some ptr1) None with
    | None => None
    | Some (inr (path', e)) => Some (gen_end false path' e)
    | Some (inl (path', path_len')) =>
      if (FS_MAX_PATH <=? path_len')%nat
      then Some (gen_end false path' PathTooLong)
      else Some (gen_end true path' PathTooLong)
    end.

End Generate.

(** Modelled from the spec: MAX_PATH_BYTES, the maximum path length of the
    target platform (section 6), is the macro FS_MAX_PATH of the platform
    headers, which are not part of this repository; there it is 0x301.
    Used only to instantiate the parameter in examples. *)
Definition FS_MAX_PATH_NX : nat := 769.

(** ** Derived notions used in the statements and proofs *)

(** The offsets of [s] reached by decoding one sequence after the other
    from the start. *)
Inductive boundary (s : list u8) : nat -> Prop :=
| boundary_start : boundary s 0
| boundary_step : forall p c u,
    boundary s p -> (p < length s)%nat ->
    decode_utf8 (skipn p s) = Some (c, u) ->
    boundary s (p + u).

(** [r] does not fall strictly inside any sequence of [s] that the decoder
    accepts, wherever that sequence starts. *)
Definition not_inside (s : list u8) (r : nat) : Prop :=
  forall q c u, (q < length s)%nat ->
    decode_utf8 (skipn q s) = Some (c, u) -> ~ (q < r < q + u)%nat.

(** What the read/write cursor loop leaves before the write cursor: each
    decoded sequence contributes an underscore when its code point is
    illegal and its own bytes otherwise; the first decoding failure ends
    the output. *)
Fixpoint filtered (fuel : nat) (ascii_only : bool) (s : list u8) : list u8 :=
  match fuel with
  | O => []
  | S fuel' =>
    match s with
    | [] => []
    | _ :: _ =>
      match decode_utf8 s with
      | None => []
      | Some (c, u) =>
        (if illegal ascii_only c then [95] else firstn u s)
        ++ filtered fuel' ascii_only (skipn u s)
      end
    end
  end.

(** Every decoded code point of the string is legal for the filter. *)
Inductive all_legal (ascii_only : bool) : list u8 -> Prop :=
| all_legal_nil : all_legal ascii_only []
| all_legal_seq : forall b l c u,
    decode_utf8 (b :: l) = Some (c, u) -> illegal ascii_only c = false ->
    all_legal ascii_only (skipn u (b :: l)) ->
    all_legal ascii_only (b :: l).

(** The elements of a path: the maximal runs of bytes between
    separators. *)
Fixpoint split_sep (s : list u8) : list (list u8) :=
  match s with
  | [] => [[]]
  | b :: r =>
    if b =? 47 then [] :: split_sep r
    else
      match split_sep r with
      | c :: cs => (b :: c) :: cs
      | [] => [[b]]
      end
  end.

(** No byte of [c] is a separator. *)
Definition no_sep (c : list u8) : Prop :=
  forallb (fun b => negb (b =? 47)) c = true.

(** Elements written one after the other, each behind a separator. *)
Fixpoint join (cs : list (list u8)) : list u8 :=
  match cs with
  | [] => []
  | c :: cs' => 47 :: c ++ join cs'
  end.

(** The path made of the elements [cs]. *)
Definition unsplit (cs : list (list u8)) : list u8 :=
  match cs with
  | [] => []
  | c :: cs' => c ++ join cs'
  end.

(** The result of [utilsGetUtf8StringLimit], which always exists. *)
Definition limit_of (str : list u8) (str_size n : nat) : nat :=
  match utilsGetUtf8StringLimit str str_size n with
  | Some r => r
  | None => O
  end.

(** What the loop body does to the last element [c] of the path. *)
Definition gen_last (use_extension : bool) (extension_len : nat)
    (c : list u8) : list u8 + gen_error :=
  let b := limit_of c (length c) NT_MAX_FILENAME_LENGTH in
  if (b <? length c)%nat then
    if use_extension then
      if (b <=? extension_len)%nat then inr ExtensionTooLong
      else inl (firstn (b - extension_len) c
                ++ skipn (length c - extension_len) c)
    else inl (firstn b c)
  else inl c.

(** What the loop does to the elements that follow the first separator. *)
Fixpoint gen_elems (use_extension : bool) (extension_len : nat)
    (cs : list (list u8)) : list (list u8) + gen_error :=
  match cs with
  | [] => inl []
  | c :: cs' =>
    match cs' with
    | [] =>
      match gen_last use_extension extension_len c with
      | inl c' => inl [c']
      | inr e => inr e
      end
    | _ :: _ =>
      let b := limit_of (c ++ join cs') (length c) NT_MAX_FILENAME_LENGTH in
      match gen_elems use_extension extension_len cs' with
      | inl r => inl (firstn b c :: r)
      | inr e => inr e
      end
    end
  end.

(** What the loop does to a path given by its elements: without a separator
    the only element is treated as the last one; otherwise the first
    element is left alone and the others are processed in turn. *)
Definition gen_components (use_extension : bool) (extension_len : nat)
    (cs : list (list u8)) : list (list u8) + gen_error :=
  match cs with
  | [] => inl []
  | [c] =>
    match gen_last use_extension extension_len c with
    | inl c' => inl [c']
    | inr e => inr e
    end
  | c0 :: cs' =>
    match gen_elems use_extension extension_len cs' with
    | inl r => inl (c0 :: r)
    | inr e => inr e
    end
  end.

(** The value of [utilsGeneratePath] in terms of the elements of the
    concatenated path. *)
Definition gen_outcome (FS_MAX_PATH : nat)
    (prefix filename extension : option (list u8)) : gen_result :=
  let ue := nonempty_str extension in
  let el := if ue then length (bytes_of extension) else O in
  match gen_components ue el
          (split_sep (gen_concat prefix extension (bytes_of filename))) with
  | inr e => Failure e
  | inl comps =>
    if (FS_MAX_PATH <=? length (unsplit comps))%nat then Failure PathTooLong
    else Path (unsplit comps)
  end.

(** The last element of a path. *)
Definition last_elem (s : list u8) : list u8 := last (split_sep s) [].

(** The elements the loop looks at: the only one of a path without
    separator, otherwise all but the first. *)
Definition checked_elems (s : list u8) : list (list u8) :=
  match split_sep s with
  | [c] => [c]
  | cs => tl cs
  end.

(** ** Example inputs *)

(** The lone lead byte C3: a two-byte sequence cut short. *)
Definition str_lone_lead : list u8 := [195].

(** The string abc. *)
Definition str_abc : list u8 := [97; 98; 99].

(** The string a followed by e with acute accent (C3 A9). *)
Definition str_a_eacute : list u8 := [97; 195; 169].

(** The path v/a. *)
Definition str_v_a : list u8 := [118; 47; 97].

(** The prefix sd:/out, a file name of 300 letters x, the extension .txt
    and the path the call returns for them. *)
Definition scenario_prefix : list u8 := [115; 100; 58; 47; 111; 117; 116].
Definition scenario_name : list u8 := repeat 120 300.
Definition scenario_ext : list u8 := [46; 116; 120; 116].
Definition scenario_out : list u8 :=
  scenario_prefix ++ [47] ++ repeat 120 250 ++ scenario_ext.

(** The bytes a, FF, b: a malformed file name. *)
Definition str_malformed : list u8 := [97; 255; 98].

(** The bytes a, b, FF followed by 300 letters x: a malformed file name
    longer than the limit. *)
Definition str_malformed_long : list u8 := [97; 98; 255] ++ repeat 120 300.

(** 200 times e with acute accent, a valid file name of 400 bytes, and the
    extension .tx. *)
Definition str_eacute_200 : list u8 :=
  concat (repeat [195; 169] 200).
Definition str_dot_tx : list u8 := [46; 116; 120].

(** ** Notions for further properties of the filter and the path synthesizer *)

(** A byte the filter may leave in its output. *)
Definition legal_byte (ascii_only : bool) (b : Z) : Prop :=
  0x20 <= b < 256 /\ ~ In b g_illegalFileSystemChars
  /\ (if ascii_only then b < 0x7F else b <> 0x7F).

(** [t] is [s] with some of its bytes removed: the bytes of [t] are bytes
    of [s], in their order. *)
Inductive subseq : list Z -> list Z -> Prop :=
| subseq_nil : subseq [] []
| subseq_keep : forall x t s, subseq t s -> subseq (x :: t) (x :: s)
| subseq_drop : forall x t s, subseq t s -> subseq t (x :: s).

(** An element after processing: not longer, and the same when it kept its
    length. *)
Definition shortened (c c' : list Z) : Prop :=
  (length c' <= length c)%nat /\ (length c' = length c -> c' = c)
  /\ (cstring c -> cstring c').

(** ** utilsTrimString *)

(** Modelled from the spec: [isspace] of the C library, not part of this
    repository; section 4.5 names a byte-level classifier of white space
    (space, tab, newline, carriage return and the like): in the C locale
    the space and the control characters 9 to 13. *)
Definition isspace (b : Z) : bool := (b =? 32) || ((9 <=? b) && (b <=? 13)).

(** The first loop, [while(--end >= start)], which breaks at the first byte
    from the end that is not white space; [end] is an offset from [str],
    which is [start], and the loop is left at -1 when every byte is white
    space.  Returns [end] at loop exit. *)
Fixpoint trim_end_loop (fuel : nat) (str : list Z) (e : Z) : option Z :=
  match fuel with
  | O => None
  | S fuel' =>
    let e' := e - 1 in
    if 0 <=? e' then
      if negb (isspace (rd str (Z.to_nat e'))) then Some e'
      else trim_end_loop fuel' str e'
    else Some e'
  end.

(** The second loop: [start] advances while the byte it points to is white
    space. *)
Fixpoint trim_start_loop (fuel : nat) (str : list Z) (start : nat)
    : option nat :=
  match fuel with
  | O => None
  | S fuel' =>
    if isspace (rd str start) then trim_start_loop fuel' str (S start)
    else Some start
  end.

(** [utilsTrimString(str)] for a non-NULL [str]: the content of [str] after
    the call. *)
Definition utilsTrimString (str : list Z) : option (list Z) :=
  let strsize := length str in
  if (strsize =? 0)%nat then Some str
  else
    match trim_end_loop (S strsize) str (Z.of_nat strsize) with
    | None => None
    | Some e =>
      let e1 := Z.to_nat (e + 1) in                 (* ++end *)
      let str1 := firstn e1 str in                  (* *end = 0 *)
      match trim_start_loop (S e1) str1 O with
      | None => None
      | Some start =>
        if (start =? 0)%nat then Some str1
        else
          (* memmove(str, start, end - start + 1): the bytes from start to
             end and the terminator behind them *)
          Some (firstn (e1 - start) (memmove str1 O start (e1 - start)))
      end
    end.

Definition all_space (l : list Z) : Prop := forallb isspace l = true.

(** ** utilsGenerateHexStringFromData *)

(** [nib + (nib < 0xA ? 0x30 : (uppercase ? 0x37 : 0x57))] *)
Definition hex_char (nib : Z) (uppercase : bool) : Z :=
  nib + (if nib <? 0xA then 0x30 else if uppercase then 0x37 else 0x57).

(** The [for] loop of [utilsGenerateHexStringFromData] over the bytes of
    [src] still to be read; [j] is the write offset in [dst].  Returns the
    buffer and [j] at loop exit. *)
Fixpoint hex_loop (src dst : list Z) (j : nat) (uppercase : bool)
    : list Z * nat :=
  match src with
  | [] => (dst, j)
  | b :: rest =>
    let h_nib := Z.land (Z.shiftr b 4) 0xF in
    let l_nib := Z.land b 0xF in
    let dst1 := store dst j (hex_char h_nib uppercase) in
    let dst2 := store dst1 (S j) (hex_char l_nib uppercase) in
    hex_loop rest dst2 (S (S j)) uppercase
  end.

(** [utilsGenerateHexStringFromData(dst, dst_size, src, src_size,
    uppercase)] for non-NULL pointers: [dst] is the array the pointer
    refers to, [dst_size] the size the caller states for it, [src] the
    [src_size] bytes to print; the result is the array after the call. *)
Definition utilsGenerateHexStringFromData (dst : list Z) (dst_size : nat)
    (src : list Z) (uppercase : bool) : list Z :=
  let src_size := length src in
  if (src_size =? 0)%nat || (dst_size <? src_size * 2 + 1)%nat then dst
  else
    let '(dst', j) := hex_loop src dst O uppercase in
    store dst' j 0.

(** The value of a hexadecimal digit of either case. *)
Definition hex_value (ch : Z) : option Z :=
  if (48 <=? ch) && (ch <=? 57) then Some (ch - 48)
  else if (65 <=? ch) && (ch <=? 70) then Some (ch - 55)
  else if (97 <=? ch) && (ch <=? 102) then Some (ch - 87)
  else None.

(** Reading a string of hexadecimal digits back, two digits a byte. *)
Fixpoint hex_decode (s : list Z) : option (list Z) :=
  match s with
  | [] => Some []
  | [_] => None
  | h :: l :: rest =>
    match hex_value h, hex_value l, hex_decode rest with
    | Some a, Some b, Some t => Some (16 * a + b :: t)
    | _, _, _ => None
    end
  end.

(** The digits the loop writes for [src]. *)
Fixpoint hex_of (src : list Z) (uppercase : bool) : list Z :=
  match src with
  | [] => []
  | b :: rest =>
    hex_char (Z.land (Z.shiftr b 4) 0xF) uppercase
    :: hex_char (Z.land b 0xF) uppercase :: hex_of rest uppercase
  end.

(** A hexadecimal digit of the requested case. *)
Definition is_hex_digit (uppercase : bool) (ch : Z) : Prop :=
  48 <= ch <= 57 \/ (if uppercase then 65 <= ch <= 70 else 97 <= ch <= 102).

(** ** utilsCreateDirectoryTree *)

(** The [while(ptr)] loop of [utilsCreateDirectoryTree]: [ptr] is the
    offset of a separator in [path] (or NULL), [made] the arguments of the
    [mkdir] calls so far, oldest first.  The prefix of [path] in front of
    [ptr] is printed to [tmp] and passed to [mkdir]; then [ptr] moves to
    the next separator. *)
Fixpoint tree_loop (fuel : nat) (path : list Z) (ptr : option nat)
    (made : list (list Z)) : option (list (list Z)) :=
  match ptr with
  | None => Some made
  | Some p =>
    match fuel with
    | O => None
    | S fuel' =>
      let tmp := firstn p path in
      let made' := made ++ [tmp] in
      let p' := S p in
      tree_loop fuel' path
                (option_map (Nat.add p') (strchr (skipn p' path) 47)) made'
    end
  end.

(** [utilsCreateDirectoryTree(path, create_last_element)] for a non-NULL
    [path]: the arguments of its [mkdir] calls, in order.  (Allocation is
    taken to succeed.) *)
Definition utilsCreateDirectoryTree (path : list Z)
    (create_last_element : bool) : option (list (list Z)) :=
  let path_len := length path in
  if (path_len =? 0)%nat then Some []
  else
    match tree_loop (S path_len) path (strchr path 47) [] with
    | None => None
    | Some made => Some (if create_last_element then made ++ [path] else made)
    end.

(** The offsets of the separators of [s], counted from [base]. *)
Fixpoint sep_offsets (s : list Z) (base : nat) : list nat :=
  match s with
  | [] => []
  | b :: r =>
    if b =? 47 then base :: sep_offsets r (S base) else sep_offsets r (S base)
  end.

(** Shorter directories come first. *)
Definition shorter (a b : list Z) : Prop := (length a < length b)%nat.

(** ** utilsAppendFormattedStringToBuffer *)

(** The two variables the caller of
    [utilsAppendFormattedStringToBuffer] passes by address: the string
    [*dst] (NULL before the first call) and the size [*dst_size] of the
    block that holds it. *)
Record str_buffer : Set := mk_str_buffer {
  b_dst : option (list Z);
  b_size : nat
}.

(** The bytes of the string in the buffer, none while it is NULL. *)
Definition b_content (buf : str_buffer) : list Z := bytes_of (b_dst buf).

(** [utilsAppendFormattedStringToBuffer(dst, dst_size, fmt, ...)] for
    non-NULL [dst] and [dst_size].  The text that [vsnprintf] measures for
    [fmt] and the variadic arguments is the input [formatted] ([None] when
    [vsnprintf] reports an error).  The source then hands [vsprintf] the
    same [va_list], which [vsnprintf] has traversed (there is no va_copy
    and no second va_start), so the text [vsprintf] writes need not be the
    text that was measured: it is the separate input [written]; the two
    are the same text where the platform passes a [va_list] by value.
    [realloc_ok] tells whether [realloc] succeeds.  Returns the [bool]
    result and the two variables after the call.  Result and size are
    fixed before [vsprintf] runs; a [written] longer than [formatted]
    can overrun the block, and the string the model shows is then longer
    than the block allows. *)
Definition utilsAppendFormattedStringToBuffer (buf : str_buffer)
    (fmt formatted : option (list Z)) (written : list Z) (realloc_ok : bool)
    : bool * str_buffer :=
  let dst_null := match b_dst buf with None => true | Some _ => false end in
  if (dst_null && negb (b_size buf =? 0)%nat)
     || (negb dst_null && (b_size buf =? 0)%nat)
     || negb (nonempty_str fmt)
  then (false, buf)
  else
    let dst_cur_size := b_size buf in
    let dst_str_len := if dst_null then O else length (b_content buf) in
    if negb (dst_cur_size =? 0)%nat && (dst_cur_size <=? dst_str_len)%nat
    then (false, buf)
    else
      match formatted with
      | None => (false, buf)                  (* formatted_str_len < 0 *)
      | Some text =>
        let formatted_str_len := length text in
        if (formatted_str_len =? 0)%nat then (false, buf)
        else
          let formatted_str_len_cast := (formatted_str_len + 1)%nat in
          if (dst_cur_size =? 0)%nat
             || (dst_cur_size - dst_str_len <? formatted_str_len_cast)%nat
          then
            let new_size := (dst_str_len + formatted_str_len_cast)%nat in
            if negb realloc_ok then (false, buf)
            else (true, mk_str_buffer (Some (b_content buf ++ written))
                                      new_size)
          else
            (true, mk_str_buffer (Some (b_content buf ++ written))
                                 dst_cur_size)
      end.

(** The block holds the string and its terminator; a NULL buffer has size
    0. *)
Definition buffer_ok (buf : str_buffer) : Prop :=
  match b_dst buf with
  | None => b_size buf = O
  | Some s => (length s < b_size buf)%nat
  end.

(** ** Example inputs for the further properties *)

(** The bytes a, |, TAB, e with acute accent (C3 A9), and what the filter
    makes of them. *)
Definition str_reserved : list u8 := [97; 124; 9; 195; 169].
Definition str_reserved_out : list u8 := [97; 95; 95; 195; 169].

(** The bytes a, |, TAB, b: ASCII only. *)
Definition str_reserved_ascii : list u8 := [97; 124; 9; 98].

(** S with circumflex (U+015C, the bytes C5 9C), whose code point has the
    low byte 5C of the backslash, followed by a. *)
Definition str_s_circumflex : list u8 := [197; 156; 97].

(** Space, e with acute accent, TAB. *)
Definition str_padded : list u8 := [32; 195; 169; 9].

(** The source bytes DE AD and an array of six bytes FF. *)
Definition hex_src : list u8 := [222; 173].
Definition hex_dst : list u8 := repeat 255 6.

(** The path a/b/c, its second directory a/b and its first directory a. *)
Definition str_a_b_c : list u8 := [97; 47; 98; 47; 99].
Definition str_a_b : list u8 := [97; 47; 98].
Definition str_a : list u8 := [97].

(** The directories sd: and sd:/out in front of the last element of
    [scenario_out]. *)
Definition scenario_dirs : list (list u8) := [[115; 100; 58]; scenario_prefix].

(** The buffer holding a in a block of two bytes, the same string in a
    block of four, the format of a string and the text bc. *)
Definition buf_a : str_buffer := mk_str_buffer (Some [97]) 2.
Definition buf_a_grown : str_buffer := mk_str_buffer (Some [97]) 4.
Definition str_fmt : list u8 := [37; 115].
Definition str_bc : list u8 := [98; 99].

(** ** Facts about the buffer primitives *)

Lemma rd_skipn (s : list u8) (p i : nat) : rd (skipn p s) i = rd s (p + i).
Proof.
  unfold rd. revert s. induction p as [|p IH]; intros s; simpl; [reflexivity|].
  destruct s as [|b s]; [destruct i; reflexivity | apply IH].
Qed.

Lemma rd_app_l (l r : list u8) (i : nat) :
  (i < length l)%nat -> rd (l ++ r) i = rd l i.
Proof. intros H. unfold rd. now apply app_nth1. Qed.

Lemma rd_past (l : list u8) (i : nat) : (length l <= i)%nat -> rd l i = 0.
Proof. intros H. unfold rd. now apply nth_overflow. Qed.

Lemma firstn_plus (s : list u8) (p u : nat) :
  firstn (p + u) s = firstn p s ++ firstn u (skipn p s).
Proof.
  revert s. induction p as [|p IH]; intros s; [reflexivity|].
  destruct s as [|b s]; simpl; [now rewrite firstn_nil|]. now rewrite IH.
Qed.

Lemma cstring_app (a b : list u8) : cstring (a ++ b) <-> cstring a /\ cstring b.
Proof. unfold cstring. rewrite forallb_app. apply andb_true_iff. Qed.

Lemma cstring_cons (b : u8) (l : list u8) :
  cstring (b :: l) <-> (0 < b < 256) /\ cstring l.
Proof.
  unfold cstring, byteb. simpl. rewrite andb_true_iff, andb_true_iff.
  rewrite !Z.ltb_lt. tauto.
Qed.

Lemma cstring_firstn (n : nat) (s : list u8) : cstring s -> cstring (firstn n s).
Proof.
  intros H. rewrite <- (firstn_skipn n s) in H. now apply cstring_app in H.
Qed.

Lemma cstring_skipn (n : nat) (s : list u8) : cstring s -> cstring (skipn n s).
Proof.
  intros H. rewrite <- (firstn_skipn n s) in H. now apply cstring_app in H.
Qed.

Lemma cstring_rd (s : list u8) (i : nat) :
  cstring s -> (i < length s)%nat -> 0 < rd s i < 256.
Proof.
  unfold rd. revert i. induction s as [|b s IH]; intros i H Hi; simpl in Hi; [lia|].
  apply cstring_cons in H. destruct i; simpl; [tauto | apply IH; [tauto | lia]].
Qed.

(** ** Facts about the decoder *)

Lemma is_cont_table :
  forallb (fun b => Bool.eqb (is_cont b) ((0x80 <=? b) && (b <? 0xC0)))
          (map Z.of_nat (seq 0 256)) = true.
Proof. vm_compute. reflexivity. Qed.

Lemma is_cont_range (b : u8) :
  0 <= b < 256 -> is_cont b = (0x80 <=? b) && (b <? 0xC0).
Proof.
  intros Hb. pose proof is_cont_table as T. rewrite forallb_forall in T.
  apply eqb_prop, T, in_map_iff. exists (Z.to_nat b). split; [lia|].
  apply in_seq. lia.
Qed.

Ltac split_ifs :=
  repeat match goal with
         | H : context [if ?b then _ else _] |- _ => destruct b eqn:?
         | |- context [if ?b then _ else _] => destruct b eqn:?
         end.

Lemma decode_units (l : list u8) (c : Z) (u : nat) :
  decode_utf8 l = Some (c, u) -> (1 <= u <= 4)%nat.
Proof.
  unfold decode_utf8. intros H. split_ifs; inversion H; lia.
Qed.

(** Every byte of an accepted sequence after the first is a continuation
    byte. *)
Lemma decode_cont (l : list u8) (c : Z) (u i : nat) :
  decode_utf8 l = Some (c, u) -> (1 <= i < u)%nat -> is_cont (rd l i) = true.
Proof.
  unfold decode_utf8. intros H Hi.
  split_ifs; inversion H; subst u;
    repeat match goal with
           | E : negb _ = false |- _ => apply negb_false_iff in E
           end;
    assert (i = 1 \/ i = 2 \/ i = 3)%nat as [-> | [-> | ->]] by lia;
    solve [assumption | lia].
Qed.

(** The first byte of an accepted sequence is not a continuation byte. *)
Lemma decode_lead (l : list u8) (c : Z) (u : nat) :
  decode_utf8 l = Some (c, u) -> 0 <= rd l 0 < 256 -> is_cont (rd l 0) = false.
Proof.
  unfold decode_utf8. intros H Hb. rewrite (is_cont_range _ Hb).
  split_ifs; inversion H; lia.
Qed.

(** The decoder accepts the well-formed sequences and no other. *)
Lemma decode_well_formed (p : list u8) :
  (forall i, 0 <= rd p i < 256) ->
  option_map snd (decode_utf8 p) = well_formed_len p.
Proof.
  intros H. unfold decode_utf8, well_formed_len, in_range.
  pose proof (H 0%nat) as H0. pose proof (H 1%nat) as H1.
  pose proof (H 2%nat) as H2. pose proof (H 3%nat) as H3.
  rewrite !is_cont_range by assumption.
  generalize dependent (rd p 0). generalize dependent (rd p 1).
  generalize dependent (rd p 2). generalize dependent (rd p 3).
  intros b4 R4 b3 R3 b2 R2 b1 R1.
  destruct (Z.eqb_spec b1 224); destruct (Z.eqb_spec b1 240);
    destruct (Z.eqb_spec b1 244); try lia;
  repeat match goal with
         | |- context [?a <? ?b] => destruct (Z.ltb_spec a b); try lia
         | |- context [?a <=? ?b] => destruct (Z.leb_spec a b); try lia
         end; cbn; try reflexivity; try lia.
Qed.

(** An accepted sequence lies inside the string: it never runs over the
    terminator. *)
Lemma decode_len (l : list u8) (c : Z) (u : nat) :
  decode_utf8 l = Some (c, u) -> l <> [] -> (u <= length l)%nat.
Proof.
  intros H Hl.
  destruct (le_lt_dec u (length l)) as [|Hlt]; [assumption|exfalso].
  destruct l as [|b l]; [congruence|]. simpl in Hlt.
  assert (Hc : is_cont (rd (b :: l) (length (b :: l))) = true).
  { apply (decode_cont _ _ _ _ H). simpl. lia. }
  rewrite rd_past in Hc by lia. discriminate.
Qed.

(** The decoder looks only at the bytes of the sequence it accepts. *)
Lemma decode_local (l r : list u8) (c : Z) (u : nat) :
  decode_utf8 l = Some (c, u) -> (u <= length l)%nat ->
  decode_utf8 (firstn u l ++ r) = Some (c, u).
Proof.
  intros H Hu.
  assert (R : forall i, (i < u)%nat -> rd (firstn u l ++ r) i = rd l i).
  { intros i Hi. rewrite rd_app_l by (rewrite length_firstn; lia).
    unfold rd. rewrite <- (firstn_skipn u l) at 2.
    rewrite app_nth1 by (rewrite length_firstn; lia). reflexivity. }
  pose proof (decode_units _ _ _ H) as Hu4.
  revert H. unfold decode_utf8.
  rewrite (R 0%nat) by lia.
  destruct (rd l 0 <? 128); [intros H; exact H|].
  destruct (rd l 0 <? 194); [intros H; exact H|].
  destruct (rd l 0 <? 224).
  { destruct (negb (is_cont (rd l 1))) eqn:E1; [discriminate|].
    intros H. inversion H; subst u. rewrite (R 1%nat) by lia.
    rewrite E1. reflexivity. }
  destruct (rd l 0 <? 240).
  { destruct (negb (is_cont (rd l 1))) eqn:E1; [discriminate|].
    destruct ((rd l 0 =? 224) && (rd l 1 <? 160)) eqn:E2; [discriminate|].
    destruct (negb (is_cont (rd l 2))) eqn:E3; [discriminate|].
    intros H. inversion H; subst u.
    rewrite (R 1%nat), (R 2%nat) by lia. rewrite E1, E2, E3. reflexivity. }
  destruct (rd l 0 <? 245); [|discriminate].
  destruct (negb (is_cont (rd l 1))) eqn:E1; [discriminate|].
  destruct ((rd l 0 =? 240) && (rd l 1 <? 144)) eqn:E2; [discriminate|].
  destruct ((rd l 0 =? 244) && (144 <=? rd l 1)) eqn:E2'; [discriminate|].
  destruct (negb (is_cont (rd l 2))) eqn:E3; [discriminate|].
  destruct (negb (is_cont (rd l 3))) eqn:E4; [discriminate|].
  intros H. inversion H; subst u.
  rewrite (R 1%nat), (R 2%nat), (R 3%nat) by lia.
  rewrite E1, E2, E2', E3, E4. reflexivity.
Qed.

(** ** Code point boundaries *)

Lemma skipn_nonnil (s : list u8) (p : nat) :
  (p < length s)%nat -> skipn p s <> [].
Proof.
  intros H E. apply (f_equal (@length _)) in E.
  rewrite length_skipn in E. simpl in E. lia.
Qed.

Lemma decode_at_len (s : list u8) (p : nat) (c : Z) (u : nat) :
  (p < length s)%nat -> decode_utf8 (skipn p s) = Some (c, u) ->
  (p + u <= length s)%nat.
Proof.
  intros Hp H. apply decode_len in H; [|now apply skipn_nonnil].
  rewrite length_skipn in H. lia.
Qed.

Lemma boundary_le (s : list u8) (p : nat) :
  boundary s p -> (p <= length s)%nat.
Proof.
  induction 1 as [|p c u _ _ Hp H]; [lia|]. now apply (decode_at_len s p c u).
Qed.

(** Below a boundary, every offset belongs to a sequence of the chain. *)
Lemma boundary_cover (s : list u8) (r q : nat) :
  boundary s r -> (q < r)%nat ->
  exists p c u, boundary s p /\ (p < length s)%nat /\
    decode_utf8 (skipn p s) = Some (c, u) /\ (p <= q < p + u)%nat /\
    (p + u <= r)%nat.
Proof.
  induction 1 as [|p c u Hb IH Hp H]; intros Hq; [lia|].
  destruct (le_lt_dec p q) as [Hle|Hlt].
  - exists p, c, u. repeat split; (assumption || lia).
  - destruct (IH Hlt) as (p' & c' & u' & B & L & D & R1 & R2).
    exists p', c', u'. repeat split; (assumption || lia).
Qed.

Lemma boundary_not_inside (s : list u8) (r : nat) :
  cstring s -> boundary s r -> not_inside s r.
Proof.
  intros Hs Hr q c u Hq Hd [Hqr Hru].
  destruct (boundary_cover s r q Hr Hqr) as (p & c' & u' & B & L & D & R1 & R2).
  destruct (Nat.eq_dec p q) as [->|Hne].
  - rewrite D in Hd. inversion Hd; subst. lia.
  - assert (Hc : is_cont (rd (skipn p s) (q - p)) = true)
      by (apply (decode_cont _ _ _ _ D); lia).
    rewrite rd_skipn in Hc. replace (p + (q - p))%nat with q in Hc by lia.
    assert (Hl : is_cont (rd (skipn q s) 0) = false).
    { apply (decode_lead _ _ _ Hd). rewrite rd_skipn, Nat.add_0_r.
      pose proof (cstring_rd s q Hs Hq). lia. }
    rewrite rd_skipn, Nat.add_0_r in Hl. congruence.
Qed.

Lemma end_not_inside (s : list u8) : not_inside s (length s).
Proof.
  intros q c u Hq Hd [_ H]. pose proof (decode_at_len s q c u Hq Hd). lia.
Qed.

(** ** The truncation loop *)

Lemma limit_loop_total (str : list u8) (str_size n : nat) :
  forall fuel cur last, (str_size - cur < fuel)%nat ->
  exists r, limit_loop fuel str str_size n cur last = Some r.
Proof.
  induction fuel as [|fuel IH]; intros cur last Hf; [lia|]. simpl.
  destruct ((cur <? str_size)%nat && (cur <? n)%nat) eqn:Hc; [|eauto].
  destruct (decode_utf8 (skipn cur str)) as [[c u]|] eqn:Hd; [|eauto].
  destruct ((c =? 0) || (str_size <? cur + u)%nat) eqn:Hb; [eauto|].
  apply orb_false_iff in Hb. destruct Hb as [_ Hb].
  apply Nat.ltb_ge in Hb. apply decode_units in Hd. apply IH. lia.
Qed.

Lemma limit_loop_inv (str : list u8) (str_size n : nat) :
  (str_size <= length str)%nat ->
  forall fuel cur last r,
  limit_loop fuel str str_size n cur last = Some r ->
  boundary str cur -> boundary str last ->
  (last = 0 \/ last < n)%nat -> (last <= str_size)%nat -> (last <= cur)%nat ->
  boundary str r /\ (r = 0 \/ r < n)%nat /\ (r <= str_size)%nat
  /\ (last <= r)%nat.
Proof.
  intros Hsz. induction fuel as [|fuel IH]; intros cur last r; [discriminate|].
  simpl. intros H Bc Bl Hl Hls Hlc.
  destruct ((cur <? str_size)%nat && (cur <? n)%nat) eqn:Hc;
    [|inversion H; subst; auto with arith].
  apply andb_true_iff in Hc. destruct Hc as [Hc1 Hc2].
  apply Nat.ltb_lt in Hc1, Hc2.
  destruct (decode_utf8 (skipn cur str)) as [[c u]|] eqn:Hd;
    [|inversion H; subst; auto with arith].
  destruct ((c =? 0) || (str_size <? cur + u)%nat) eqn:Hb;
    [inversion H; subst; auto with arith|].
  apply orb_false_iff in Hb. destruct Hb as [_ Hb]. apply Nat.ltb_ge in Hb.
  assert (Bn : boundary str (cur + u)) by (eapply boundary_step; eauto; lia).
  destruct (cur + u <? n)%nat eqn:Hn.
  - apply Nat.ltb_lt in Hn.
    destruct (IH _ _ _ H Bn Bn) as (R1 & R2 & R3 & R4); [lia|lia|lia|].
    repeat split; (assumption || lia).
  - destruct (IH _ _ _ H Bn Bl Hl Hls) as (R1 & R2 & R3 & R4); [lia|].
    repeat split; assumption.
Qed.

Lemma limit_total (str : list u8) (str_size n : nat) :
  exists r, utilsGetUtf8StringLimit str str_size n = Some r.
Proof.
  unfold utilsGetUtf8StringLimit. split_ifs; eauto.
  apply limit_loop_total. lia.
Qed.

(** The result is below the byte limit (or 0), inside the string, and, when
    the loop ran, a boundary. *)
Lemma limit_bounds (str : list u8) (str_size n r : nat) :
  utilsGetUtf8StringLimit str str_size n = Some r ->
  (r <= str_size)%nat /\ (r = 0 \/ r < n)%nat.
Proof.
  unfold utilsGetUtf8StringLimit. intros H.
  destruct ((rd str 0 =? 0) || (str_size =? 0)%nat || (n =? 0)%nat);
    [inversion H; lia|].
  destruct (str_size <? n)%nat eqn:E;
    [apply Nat.ltb_lt in E; inversion H; lia|].
  destruct (le_lt_dec str_size (length str)) as [Hsz|Hsz].
  - apply (limit_loop_inv str str_size n Hsz) in H;
      [tauto|constructor|constructor|lia|lia|lia].
  - (* the bounds do not depend on the bytes read *)
    clear Hsz. revert H. generalize (S str_size) at 1.
    assert (G : forall fuel cur last,
      limit_loop fuel str str_size n cur last = Some r ->
      (last = 0 \/ last < n)%nat -> (last <= str_size)%nat ->
      (r <= str_size)%nat /\ (r = 0 \/ r < n)%nat).
    { induction fuel as [|fuel IH]; intros cur last; [discriminate|]. simpl.
      intros H Hl Hls.
      destruct ((cur <? str_size)%nat && (cur <? n)%nat);
        [|inversion H; subst; auto].
      destruct (decode_utf8 (skipn cur str)) as [[c u]|];
        [|inversion H; subst; auto].
      destruct ((c =? 0) || (str_size <? cur + u)%nat) eqn:Hb;
        [inversion H; subst; auto|].
      apply orb_false_iff in Hb. destruct Hb as [_ Hb]. apply Nat.ltb_ge in Hb.
      destruct (cur + u <? n)%nat eqn:Hn.
      - apply Nat.ltb_lt in Hn. apply (IH _ _ H); lia.
      - apply (IH _ _ H); assumption. }
    intros fuel H. apply (G _ _ _ H); lia.
Qed.

Lemma limit_scan_boundary (str : list u8) (str_size n r : nat) :
  (str_size <= length str)%nat -> (n <= str_size)%nat ->
  utilsGetUtf8StringLimit str str_size n = Some r -> boundary str r.
Proof.
  unfold utilsGetUtf8StringLimit. intros Hsz Hn H.
  destruct ((rd str 0 =? 0) || (str_size =? 0)%nat || (n =? 0)%nat);
    [inversion H; constructor|].
  destruct (str_size <? n)%nat eqn:E; [apply Nat.ltb_lt in E; lia|].
  apply (limit_loop_inv str str_size n Hsz) in H;
    [tauto|constructor|constructor|lia|lia|lia].
Qed.

(** Without truncation the length is returned: the guard is a strict
    comparison. *)
Lemma limit_no_truncation (str : list u8) (str_size n : nat) :
  (str_size < n)%nat -> (str_size = 0%nat \/ rd str 0 <> 0) ->
  utilsGetUtf8StringLimit str str_size n = Some str_size.
Proof.
  unfold utilsGetUtf8StringLimit. intros Hn H0.
  destruct (rd str 0 =? 0) eqn:E0.
  - apply Z.eqb_eq in E0. destruct H0 as [->|]; [reflexivity|congruence].
  - simpl. destruct (str_size =? 0)%nat eqn:E1.
    + apply Nat.eqb_eq in E1. now subst.
    + simpl. destruct (n =? 0)%nat eqn:E2; [apply Nat.eqb_eq in E2; lia|].
      apply Nat.ltb_lt in Hn. now rewrite Hn.
Qed.

(** ** Validity and boundaries *)

Lemma utf8_valid_app (a b : list u8) :
  utf8_valid a -> utf8_valid b -> utf8_valid (a ++ b).
Proof.
  intros Ha Hb. induction Ha as [|x l c u Hd Hv IH]; [exact Hb|].
  assert (Hu : (u <= length (x :: l))%nat)
    by (apply (decode_len _ c); [assumption|discriminate]).
  change ((x :: l) ++ b) with (x :: (l ++ b)).
  apply (utf8_valid_seq x (l ++ b) c u).
  - change (x :: l ++ b) with ((x :: l) ++ b).
    rewrite <- (firstn_skipn u (x :: l)), <- app_assoc.
    now apply decode_local.
  - change (x :: l ++ b) with ((x :: l) ++ b).
    rewrite skipn_app. replace (u - length (x :: l))%nat with O by lia.
    exact IH.
Qed.

Lemma utf8_valid_single (t : list u8) (c : Z) (u : nat) :
  t <> [] -> decode_utf8 t = Some (c, u) -> utf8_valid (firstn u t).
Proof.
  intros Ht Hd. pose proof (decode_len _ _ _ Hd Ht) as Hu.
  pose proof (decode_units _ _ _ Hd) as Hu4.
  pose proof (decode_local t [] c u Hd Hu) as Hl. rewrite app_nil_r in Hl.
  destruct (firstn u t) as [|x l] eqn:E.
  - apply (f_equal (@length _)) in E. rewrite length_firstn in E. simpl in E. lia.
  - apply (utf8_valid_seq x l c u Hl). rewrite <- E.
    rewrite skipn_all2 by (rewrite length_firstn; lia). constructor.
Qed.

Lemma boundary_valid (s : list u8) (p : nat) :
  boundary s p -> utf8_valid (firstn p s).
Proof.
  induction 1 as [|p c u Hb IH Hp Hd]; [constructor|].
  rewrite firstn_plus. apply utf8_valid_app; [exact IH|].
  apply (utf8_valid_single _ c); [now apply skipn_nonnil|exact Hd].
Qed.

Lemma valid_boundary_from (t : list u8) :
  utf8_valid t -> forall s p, boundary s p -> skipn p s = t ->
  boundary s (length s).
Proof.
  induction 1 as [|x l c u Hd Hv IH]; intros s p Hb E.
  - assert (length s <= p)%nat.
    { apply (f_equal (@length _)) in E. rewrite length_skipn in E.
      simpl in E. lia. }
    pose proof (boundary_le s p Hb). now replace (length s) with p by lia.
  - assert (Hp : (p < length s)%nat).
    { apply (f_equal (@length _)) in E. rewrite length_skipn in E.
      simpl in E. lia. }
    apply (IH s (p + u)%nat).
    + apply (boundary_step s p c u Hb Hp). now rewrite E.
    + rewrite Nat.add_comm, <- skipn_skipn, E. reflexivity.
Qed.

Lemma valid_boundary (s : list u8) : utf8_valid s -> boundary s (length s).
Proof.
  intros H. apply (valid_boundary_from s H s 0%nat); [constructor|reflexivity].
Qed.

(** A valid string splits into valid halves in front of any byte that is
    not a continuation byte. *)
Lemma utf8_valid_split (a b : list u8) :
  is_cont (rd b 0) = false -> utf8_valid (a ++ b) ->
  utf8_valid a /\ utf8_valid b.
Proof.
  intros Hb. remember (a ++ b) as t eqn:E. intros Hv. revert a E.
  induction Hv as [|x l c u Hd Hv IH]; intros a E.
  - symmetry in E. apply app_eq_nil in E. destruct E; subst.
    split; constructor.
  - destruct a as [|y a'].
    + simpl in E. subst b. split; [constructor|].
      now apply (utf8_valid_seq x l c u).
    + assert (Hu : (u <= length (y :: a'))%nat).
      { destruct (le_lt_dec u (length (y :: a'))) as [|Hlt]; [assumption|].
        exfalso.
        assert (Hc : is_cont (rd (x :: l) (length (y :: a'))) = true)
          by (apply (decode_cont _ _ _ _ Hd); simpl; simpl in Hlt; lia).
        rewrite E in Hc. unfold rd in Hc, Hb.
        rewrite app_nth2, Nat.sub_diag in Hc by lia. congruence. }
      assert (Hul : (u <= length (x :: l))%nat).
      { rewrite E, length_app. lia. }
      pose proof (decode_local _ (skipn u (y :: a')) _ _ Hd Hul) as Hd'.
      rewrite E, firstn_app in Hd'.
      replace (u - length (y :: a'))%nat with O in Hd' by lia.
      rewrite firstn_O, app_nil_r, firstn_skipn in Hd'.
      destruct (IH (skipn u (y :: a'))) as [V1 V2].
      { rewrite E, skipn_app.
        replace (u - length (y :: a'))%nat with O by lia. reflexivity. }
      split; [|exact V2]. now apply (utf8_valid_seq y a' c u).
Qed.

(** ** Claims about the truncation boundary *)

(** C3 (as stated, refuted): with the budget equal to the length of the
    string abc, the function returns 2 and not the length 3. *)
Lemma limit_budget_equal_length_cex :
  cstring str_abc /\ (3 >= length str_abc)%nat /\
  utilsGetUtf8StringLimit str_abc (length str_abc) 3
    <> Some (length str_abc).
Proof.
  split; [reflexivity|]. split; [simpl; lia|]. vm_compute. discriminate.
Qed.

(** C3 (amended): for a budget of at least the length of the string, the
    function returns the length exactly when the budget is strictly above
    it (or the string is empty); with the budget equal to the length of a
    non-empty string the result is smaller than the length. *)
Theorem limit_budget_above_length (s : list u8) (n : nat) :
  cstring s -> (length s <= n)%nat ->
  exists r, utilsGetUtf8StringLimit s (length s) n = Some r /\
    (r <= length s)%nat /\
    (r = length s <-> (length s < n)%nat \/ s = []).
Proof.
  intros Hs Hn. destruct (limit_total s (length s) n) as [r Hr].
  exists r. split; [exact Hr|].
  pose proof (limit_bounds _ _ _ _ Hr) as [B1 B2]. split; [exact B1|].
  destruct s as [|b l].
  - simpl in B1. split; [intros _; now right|intros _; simpl; lia].
  - destruct (Nat.eq_dec n (length (b :: l))) as [->|Hne].
    + simpl in B2. split; [simpl; lia|]. intros [H|H]; [lia|discriminate].
    + rewrite limit_no_truncation in Hr.
      * inversion Hr. split; [intros _; left; lia|reflexivity].
      * lia.
      * right. apply cstring_cons in Hs. unfold rd. simpl. lia.
Qed.

Lemma limit_budget_above_length_witness :
  exists r, utilsGetUtf8StringLimit str_abc (length str_abc) 4 = Some r /\
    (r <= length str_abc)%nat /\
    (r = length str_abc <-> (length str_abc < 4)%nat \/ str_abc = []).
Proof.
  apply (limit_budget_above_length str_abc 4); [reflexivity|simpl; lia].
Defined.

(** C4 (as stated, refuted): for the string made of the lone lead byte C3
    and the budget 2 the function returns the length 1 without decoding:
    no code point could be decoded, the result is not 0, and the offset is
    not a boundary, the prefix it cuts being no valid UTF-8. *)
Lemma limit_unscanned_cex :
  cstring str_lone_lead
  /\ utilsGetUtf8StringLimit str_lone_lead (length str_lone_lead) 2
     = Some 1%nat
  /\ decode_utf8 str_lone_lead = None
  /\ ~ boundary str_lone_lead 1
  /\ ~ utf8_valid (firstn 1 str_lone_lead).
Proof.
  split; [reflexivity|]. split; [reflexivity|]. split; [reflexivity|].
  assert (N : ~ utf8_valid (firstn 1 str_lone_lead)).
  { intros H. inversion H; subst. discriminate. }
  split; [|exact N]. intros H. now apply boundary_valid in H.
Qed.

(** C4 (amended): for every string and budget, the returned offset is at
    most the budget, lies in the string and never falls inside a
    multi-byte sequence the decoder accepts; it is a boundary reached by
    decoding from the start, cutting off a valid prefix, whenever the
    string was scanned (budget at most the length) or is valid UTF-8; with
    a budget above the length it is the length, whatever the bytes; it is
    0 when the first code point has at least as many bytes as the budget,
    and when the scan finds no code point at the start. *)
Theorem limit_is_boundary (s : list u8) (n : nat) :
  cstring s ->
  exists r, utilsGetUtf8StringLimit s (length s) n = Some r /\
    (r <= n)%nat /\ (r <= length s)%nat /\
    not_inside s r /\
    ((n <= length s)%nat \/ utf8_valid s ->
     boundary s r /\ utf8_valid (firstn r s)) /\
    ((length s < n)%nat -> r = length s) /\
    (forall c u, decode_utf8 s = Some (c, u) -> (n <= u)%nat -> r = 0%nat) /\
    ((n <= length s)%nat -> decode_utf8 s = None -> r = 0%nat).
Proof.
  intros Hs. destruct (limit_total s (length s) n) as [r Hr].
  exists r. split; [exact Hr|].
  pose proof (limit_bounds _ _ _ _ Hr) as [B1 B2].
  assert (Hb : (n <= length s)%nat \/ utf8_valid s -> boundary s r).
  { intros [Hn|Hv].
    - now apply (limit_scan_boundary s (length s) n).
    - destruct (le_lt_dec n (length s)) as [Hn|Hn].
      + now apply (limit_scan_boundary s (length s) n).
      + destruct s as [|b l].
        * replace r with O by (simpl in B1; lia). constructor.
        * rewrite limit_no_truncation in Hr.
          -- inversion Hr. now apply valid_boundary.
          -- exact Hn.
          -- right. apply cstring_cons in Hs. unfold rd. simpl. lia. }
  split; [lia|]. split; [exact B1|]. split.
  { destruct (le_lt_dec n (length s)) as [Hn|Hn].
    - apply boundary_not_inside; auto.
    - destruct s as [|b l].
      + replace r with O by (simpl in B1; lia). intros q c u Hq. simpl in Hq. lia.
      + rewrite limit_no_truncation in Hr.
        * inversion Hr. apply end_not_inside.
        * exact Hn.
        * right. apply cstring_cons in Hs. unfold rd. simpl. lia. }
  split; [intros H; split; [auto | apply boundary_valid; auto]|].
  split.
  { intros Hn. destruct s as [|b l]; [simpl in *; lia|].
    rewrite limit_no_truncation in Hr.
    - now inversion Hr.
    - exact Hn.
    - right. apply cstring_cons in Hs. unfold rd. simpl. lia. }
  split.
  - intros c u Hd Hu. revert Hr. unfold utilsGetUtf8StringLimit.
    destruct ((rd s 0 =? 0) || (length s =? 0)%nat || (n =? 0)%nat) eqn:E0;
      [intros Hr; now inversion Hr|].
    apply orb_false_iff in E0. destruct E0 as [E0 E2].
    apply orb_false_iff in E0. destruct E0 as [E0 E1].
    apply Nat.eqb_neq in E1, E2.
    assert (Hul : (u <= length s)%nat)
      by (apply (decode_len _ c); [assumption|destruct s; simpl in *; congruence]).
    destruct (length s <? n)%nat eqn:E3; [apply Nat.ltb_lt in E3; lia|].
    simpl. replace (0 <? length s)%nat with true by (symmetry; apply Nat.ltb_lt; lia).
    replace (0 <? n)%nat with true by (symmetry; apply Nat.ltb_lt; lia).
    simpl. rewrite Hd.
    destruct ((c =? 0) || (length s <? u)%nat); [intros Hr; now inversion Hr|].
    replace (u <? n)%nat with false by (symmetry; apply Nat.ltb_ge; lia).
    destruct (length s) as [|k]; [lia|]. simpl.
    replace (u <? n)%nat with false by (symmetry; apply Nat.ltb_ge; lia).
    rewrite andb_false_r. intros Hr; now inversion Hr.
  - intros Hn Hd. revert Hr. unfold utilsGetUtf8StringLimit.
    destruct ((rd s 0 =? 0) || (length s =? 0)%nat || (n =? 0)%nat) eqn:E0;
      [intros Hr; now inversion Hr|].
    apply orb_false_iff in E0. destruct E0 as [E0 E2].
    apply orb_false_iff in E0. destruct E0 as [E0 E1].
    apply Nat.eqb_neq in E1, E2.
    destruct (length s <? n)%nat eqn:E3; [apply Nat.ltb_lt in E3; lia|].
    simpl. replace (0 <? length s)%nat with true by (symmetry; apply Nat.ltb_lt; lia).
    replace (0 <? n)%nat with true by (symmetry; apply Nat.ltb_lt; lia).
    simpl. rewrite Hd. intros Hr; now inversion Hr.
Qed.

Lemma limit_is_boundary_witness :
  exists r, utilsGetUtf8StringLimit str_a_eacute (length str_a_eacute) 2
            = Some r /\
    (r <= 2)%nat /\ (r <= length str_a_eacute)%nat /\
    not_inside str_a_eacute r /\
    ((2 <= length str_a_eacute)%nat \/ utf8_valid str_a_eacute ->
     boundary str_a_eacute r /\ utf8_valid (firstn r str_a_eacute)) /\
    ((length str_a_eacute < 2)%nat -> r = length str_a_eacute) /\
    (forall c u, decode_utf8 str_a_eacute = Some (c, u) ->
                 (2 <= u)%nat -> r = 0%nat) /\
    ((2 <= length str_a_eacute)%nat ->
     decode_utf8 str_a_eacute = None -> r = 0%nat).
Proof. apply (limit_is_boundary str_a_eacute 2). reflexivity. Defined.

(** ** The filter as a function of the input bytes *)

Lemma store_firstn (buf : list u8) (i : nat) (v : u8) :
  (i < length buf)%nat -> firstn (S i) (store buf i v) = firstn i buf ++ [v].
Proof.
  intros H. unfold store.
  rewrite firstn_app, length_firstn, Nat.min_l by lia.
  rewrite firstn_all2 by (rewrite length_firstn; lia).
  replace (S i - i)%nat with 1%nat by lia. reflexivity.
Qed.

Lemma store_skipn (buf : list u8) (i j : nat) (v : u8) :
  (i < j)%nat -> (i < length buf)%nat -> skipn j (store buf i v) = skipn j buf.
Proof.
  intros Hij Hi. unfold store.
  rewrite skipn_app, length_firstn, Nat.min_l by lia.
  rewrite skipn_all2 by (rewrite length_firstn; lia).
  destruct (j - i)%nat as [|k] eqn:E; [lia|].
  change ([] ++ skipn (S k) (v :: skipn (S i) buf))
    with (skipn k (skipn (S i) buf)).
  rewrite skipn_skipn. f_equal. lia.
Qed.

Lemma store_length (buf : list u8) (i : nat) (v : u8) :
  (i < length buf)%nat -> length (store buf i v) = length buf.
Proof.
  intros H. unfold store. rewrite length_app, length_firstn.
  change (length (v :: skipn (S i) buf)) with (S (length (skipn (S i) buf))).
  rewrite length_skipn. lia.
Qed.

Lemma memmove_length (buf : list u8) (dst src n : nat) :
  (dst + n <= length buf)%nat -> (src + n <= length buf)%nat ->
  length (memmove buf dst src n) = length buf.
Proof.
  intros H1 H2. unfold memmove.
  rewrite !length_app, !length_firstn, !length_skipn. lia.
Qed.

Lemma memmove_firstn (buf : list u8) (dst src n : nat) :
  (dst + n <= length buf)%nat -> (src + n <= length buf)%nat ->
  firstn (dst + n) (memmove buf dst src n)
  = firstn dst buf ++ firstn n (skipn src buf).
Proof.
  intros H1 H2. unfold memmove. rewrite app_assoc.
  rewrite firstn_app.
  rewrite firstn_all2
    by (rewrite length_app, !length_firstn, length_skipn; lia).
  rewrite length_app, !length_firstn, length_skipn.
  replace (dst + n - _)%nat with O by lia.
  now rewrite firstn_O, app_nil_r.
Qed.

Lemma memmove_skipn (buf : list u8) (dst src n : nat) :
  (dst + n <= length buf)%nat -> (src + n <= length buf)%nat ->
  skipn (dst + n) (memmove buf dst src n) = skipn (dst + n) buf.
Proof.
  intros H1 H2. unfold memmove. rewrite app_assoc.
  rewrite skipn_app.
  rewrite skipn_all2
    by (rewrite length_app, !length_firstn, length_skipn; lia).
  rewrite length_app, !length_firstn, length_skipn.
  replace (dst + n - _)%nat with O by lia. reflexivity.
Qed.

Lemma skipn_skipn_le (a b : nat) (x y : list u8) :
  (a <= b)%nat -> skipn a x = skipn a y -> skipn b x = skipn b y.
Proof.
  intros H E. replace b with ((b - a) + a)%nat by lia.
  rewrite <- !skipn_skipn. now rewrite E.
Qed.

Lemma filtered_fuel (ascii_only : bool) :
  forall f1 f2 s, (length s <= f1)%nat -> (length s <= f2)%nat ->
  filtered f1 ascii_only s = filtered f2 ascii_only s.
Proof.
  induction f1 as [|f1 IH]; intros f2 s H1 H2.
  - destruct s; [|simpl in H1; lia]. destruct f2; reflexivity.
  - destruct f2 as [|f2]; [destruct s; [reflexivity|simpl in H2; lia]|].
    simpl. destruct s as [|x t]; [reflexivity|].
    destruct (decode_utf8 (x :: t)) as [[c u]|] eqn:Hd; [|reflexivity].
    f_equal. pose proof (decode_units _ _ _ Hd).
    apply IH; rewrite length_skipn; cbn [length] in *; lia.
Qed.

Lemma replace_loop_filtered (ascii_only : bool) (str_size : nat) :
  forall fuel str ptr1 ptr2,
  length str = str_size -> (ptr2 <= ptr1)%nat -> (ptr1 <= str_size)%nat ->
  (str_size - ptr1 < fuel)%nat ->
  exists buf p2,
    replace_loop fuel ascii_only str str_size ptr1 ptr2 ptr1 = Some (buf, p2)
    /\ firstn p2 buf
       = firstn ptr2 str
         ++ filtered (str_size - ptr1) ascii_only (skipn ptr1 str).
Proof.
  induction fuel as [|fuel IH]; intros str ptr1 ptr2 Hlen H21 H1 Hf; [lia|].
  simpl. destruct (ptr1 <? str_size)%nat eqn:Hc.
  2:{ apply Nat.ltb_ge in Hc. exists str, ptr2. split; [reflexivity|].
      replace (str_size - ptr1)%nat with O by lia. simpl.
      now rewrite app_nil_r. }
  apply Nat.ltb_lt in Hc.
  destruct (str_size - ptr1)%nat as [|k] eqn:Ek; [lia|].
  assert (Hne : skipn ptr1 str <> []) by (apply skipn_nonnil; lia).
  simpl. destruct (skipn ptr1 str) as [|x t] eqn:Es; [congruence|].
  rewrite <- Es.
  destruct (decode_utf8 (skipn ptr1 str)) as [[c u]|] eqn:Hd.
  2:{ exists str, ptr2. split; [reflexivity|]. now rewrite app_nil_r. }
  pose proof (decode_units _ _ _ Hd) as Hu.
  assert (Hul : (ptr1 + u <= str_size)%nat).
  { rewrite <- Hlen. apply (decode_at_len str ptr1 c); [lia|assumption]. }
  rewrite (filtered_fuel ascii_only k (str_size - (ptr1 + u)))
    by (rewrite !length_skipn; lia).
  destruct (illegal ascii_only c).
  - destruct (IH (store str ptr2 95) (ptr1 + u)%nat (S ptr2))
      as (buf & p2 & R1 & R2);
      [rewrite store_length; lia|lia|lia|lia|].
    exists buf, p2. split; [exact R1|]. rewrite R2.
    rewrite store_firstn, store_skipn by lia.
    rewrite <- app_assoc. simpl. rewrite skipn_skipn.
    now rewrite (Nat.add_comm u ptr1).
  - destruct (ptr2 =? ptr1)%nat eqn:E21.
    + apply Nat.eqb_eq in E21. subst ptr2.
      destruct (IH str (ptr1 + u)%nat (ptr1 + u)%nat)
        as (buf & p2 & R1 & R2); [assumption|lia|lia|lia|].
      exists buf, p2. split; [exact R1|]. rewrite R2.
      rewrite firstn_plus, <- app_assoc, skipn_skipn.
      now rewrite (Nat.add_comm u ptr1).
    + apply Nat.eqb_neq in E21.
      destruct (IH (memmove str ptr2 ptr1 u) (ptr1 + u)%nat (ptr2 + u)%nat)
        as (buf & p2 & R1 & R2);
        [rewrite memmove_length; lia|lia|lia|lia|].
      exists buf, p2. split; [exact R1|]. rewrite R2.
      rewrite memmove_firstn by lia.
      rewrite <- app_assoc. f_equal. f_equal. f_equal.
      rewrite skipn_skipn, (Nat.add_comm u ptr1).
      apply (skipn_skipn_le (ptr2 + u)); [lia|].
      apply memmove_skipn; lia.
Qed.

(** The in-place filter computes [filtered]. *)
Lemma replace_is_filtered (s : list u8) (ascii_only : bool) :
  utilsReplaceIllegalCharacters s ascii_only
  = Some (filtered (length s) ascii_only s).
Proof.
  unfold utilsReplaceIllegalCharacters.
  destruct (length s =? 0)%nat eqn:E.
  - apply Nat.eqb_eq in E. destruct s; [reflexivity|discriminate].
  - destruct (replace_loop_filtered ascii_only (length s) (S (length s)) s 0 0)
      as (buf & p2 & R1 & R2); try lia.
    rewrite R1, R2. simpl. now rewrite Nat.sub_0_r.
Qed.

Lemma underscore_legal (ascii_only : bool) : illegal ascii_only 95 = false.
Proof. destruct ascii_only; reflexivity. Qed.

Lemma decode_head_app (x : u8) (t r : list u8) (c : Z) (u : nat) :
  decode_utf8 (x :: t) = Some (c, u) ->
  decode_utf8 (firstn u (x :: t) ++ r) = Some (c, u).
Proof.
  intros Hd. apply decode_local; [exact Hd|].
  apply (decode_len _ c); [exact Hd|discriminate].
Qed.

Lemma firstn_units_cons (x : u8) (t : list u8) (c : Z) (u : nat) :
  decode_utf8 (x :: t) = Some (c, u) ->
  exists t', firstn u (x :: t) = x :: t' /\ length (x :: t') = u.
Proof.
  intros Hd. pose proof (decode_units _ _ _ Hd) as Hu.
  assert (Hl : (u <= length (x :: t))%nat)
    by (apply (decode_len _ c); [exact Hd|discriminate]).
  destruct u as [|u]; [lia|]. exists (firstn u t). split; [reflexivity|].
  cbn [length] in *. rewrite length_firstn. lia.
Qed.

Lemma filtered_valid (ascii_only : bool) :
  forall fuel s, utf8_valid (filtered fuel ascii_only s).
Proof.
  induction fuel as [|fuel IH]; intros s; simpl; [constructor|].
  destruct s as [|x t]; [constructor|].
  destruct (decode_utf8 (x :: t)) as [[c u]|] eqn:Hd; [|constructor].
  apply utf8_valid_app; [|apply IH].
  destruct (illegal ascii_only c).
  - apply (utf8_valid_seq 95 [] 95 1%nat); [reflexivity|constructor].
  - apply (utf8_valid_single _ c); [discriminate|exact Hd].
Qed.

Lemma filtered_legal (ascii_only : bool) :
  forall fuel s, all_legal ascii_only (filtered fuel ascii_only s).
Proof.
  induction fuel as [|fuel IH]; intros s; simpl; [constructor|].
  destruct s as [|x t]; [constructor|].
  destruct (decode_utf8 (x :: t)) as [[c u]|] eqn:Hd; [|constructor].
  destruct (illegal ascii_only c) eqn:Hi.
  - apply (all_legal_seq ascii_only 95 _ 95 1%nat);
      [reflexivity|apply underscore_legal|apply IH].
  - destruct (firstn_units_cons _ _ _ _ Hd) as (t' & E & L).
    pose proof (decode_head_app x t (filtered fuel ascii_only (skipn u (x :: t)))
                                c u Hd) as Hd'.
    rewrite E in *. simpl app in *.
    apply (all_legal_seq ascii_only x _ c u Hd' Hi).
    change (x :: t' ++ ?r) with ((x :: t') ++ r).
    rewrite skipn_app, skipn_all2 by lia.
    replace (u - length (x :: t'))%nat with O by lia. simpl. apply IH.
Qed.

(** A string of legal code points passes through the filter unchanged. *)
Lemma filtered_of_legal (ascii_only : bool) (s : list u8) :
  all_legal ascii_only s ->
  forall fuel, (length s <= fuel)%nat -> filtered fuel ascii_only s = s.
Proof.
  induction 1 as [|x t c u Hd Hi Hl IH]; intros fuel Hf;
    [destruct fuel; reflexivity|].
  destruct fuel as [|fuel]; [simpl in Hf; lia|].
  cbn [filtered]. rewrite Hd, Hi.
  pose proof (decode_units _ _ _ Hd) as Hu.
  rewrite IH by (rewrite length_skipn; cbn [length] in *; lia).
  apply firstn_skipn.
Qed.

Lemma filtered_step (ascii_only : bool) (fuel : nat) (s : list u8)
    (c : Z) (u : nat) :
  s <> [] -> decode_utf8 s = Some (c, u) ->
  filtered (S fuel) ascii_only s
  = (if illegal ascii_only c then [95] else firstn u s)
    ++ filtered fuel ascii_only (skipn u s).
Proof.
  intros Hs Hd. destruct s as [|x t]; [congruence|].
  cbn [filtered]. now rewrite Hd.
Qed.

(** A decoding failure ends the output: what follows a valid prefix and
    starts with a rejected sequence contributes nothing. *)
Lemma filtered_stops (ascii_only : bool) (v r : list u8) :
  utf8_valid v -> decode_utf8 r = None ->
  forall fuel, (length (v ++ r) <= fuel)%nat ->
  filtered fuel ascii_only (v ++ r) = filtered (length v) ascii_only v.
Proof.
  intros Hv Hr. induction Hv as [|x t c u Hd Hv IH]; intros fuel Hf.
  - simpl. destruct fuel; [reflexivity|]. simpl.
    destruct r; [reflexivity|]. now rewrite Hr.
  - destruct fuel as [|fuel]; [simpl in Hf; lia|].
    assert (Hl : (u <= length (x :: t))%nat)
      by (apply (decode_len _ c); [exact Hd|discriminate]).
    pose proof (decode_units _ _ _ Hd) as Hu.
    assert (Hd' : decode_utf8 ((x :: t) ++ r) = Some (c, u)).
    { rewrite <- (firstn_skipn u (x :: t)), <- app_assoc.
      now apply decode_local. }
    assert (E1 : firstn u ((x :: t) ++ r) = firstn u (x :: t)).
    { rewrite firstn_app. replace (u - length (x :: t))%nat with O by lia.
      now rewrite firstn_O, app_nil_r. }
    assert (E2 : skipn u ((x :: t) ++ r) = skipn u (x :: t) ++ r).
    { rewrite skipn_app. now replace (u - length (x :: t))%nat with O by lia. }
    rewrite (filtered_step _ _ _ c u) by (discriminate || assumption).
    change (length (x :: t)) with (S (length t)).
    rewrite (filtered_step _ _ (x :: t) c u) by (discriminate || assumption).
    rewrite E1, E2. f_equal. rewrite IH.
    + apply filtered_fuel; rewrite length_skipn; cbn [length] in *; lia.
    + rewrite <- E2, length_skipn. lia.
Qed.

Lemma filtered_length (ascii_only : bool) :
  forall fuel s, (length (filtered fuel ascii_only s) <= length s)%nat.
Proof.
  induction fuel as [|fuel IH]; intros s; simpl; [lia|].
  destruct s as [|x t]; [simpl; lia|].
  destruct (decode_utf8 (x :: t)) as [[c u]|] eqn:Hd; [|simpl; lia].
  pose proof (decode_units _ _ _ Hd) as Hu.
  assert (Hl : (u <= length (x :: t))%nat)
    by (apply (decode_len _ c); [exact Hd|discriminate]).
  rewrite length_app. specialize (IH (skipn u (x :: t))).
  rewrite length_skipn in IH.
  destruct (illegal ascii_only c);
    [change (length [95]) with 1%nat|rewrite length_firstn]; lia.
Qed.

Lemma filtered_cstring (ascii_only : bool) :
  forall fuel s, cstring s -> cstring (filtered fuel ascii_only s).
Proof.
  induction fuel as [|fuel IH]; intros s Hs; simpl; [reflexivity|].
  destruct s as [|x t]; [reflexivity|].
  destruct (decode_utf8 (x :: t)) as [[c u]|]; [|reflexivity].
  apply cstring_app. split; [|apply IH, cstring_skipn, Hs].
  destruct (illegal ascii_only c); [reflexivity|apply cstring_firstn, Hs].
Qed.

(** ** Claims about the filter *)

(** C9: filtering is idempotent for either value of the flag: the output of
    the filter is again a C string and filtering it once more returns it
    unchanged.  This holds for every input string, in particular for every
    string without decoding errors. *)
Theorem replace_idempotent (s : list u8) (ascii_only : bool) :
  cstring s ->
  exists out,
    utilsReplaceIllegalCharacters s ascii_only = Some out /\
    cstring out /\
    utilsReplaceIllegalCharacters out ascii_only = Some out.
Proof.
  intros Hs. exists (filtered (length s) ascii_only s).
  split; [apply replace_is_filtered|].
  split; [now apply filtered_cstring|].
  rewrite replace_is_filtered. f_equal.
  apply filtered_of_legal; [apply filtered_legal|lia].
Qed.

Lemma replace_idempotent_witness :
  exists out,
    utilsReplaceIllegalCharacters [97; 58; 195; 169; 42] false = Some out /\
    cstring out /\
    utilsReplaceIllegalCharacters out false = Some out.
Proof. apply (replace_idempotent [97; 58; 195; 169; 42] false). reflexivity. Defined.

(** ** Path elements *)

Lemma limit_of_eq (str : list u8) (str_size n : nat) :
  utilsGetUtf8StringLimit str str_size n = Some (limit_of str str_size n).
Proof.
  unfold limit_of. destruct (limit_total str str_size n) as [r ->].
  reflexivity.
Qed.

Lemma limit_of_le (str : list u8) (str_size n : nat) :
  (limit_of str str_size n <= str_size)%nat.
Proof. apply (limit_bounds str str_size n), limit_of_eq. Qed.

Lemma limit_of_lt (str : list u8) (str_size n : nat) :
  (0 < n)%nat -> (limit_of str str_size n < n)%nat.
Proof.
  intros Hn. pose proof (limit_bounds str str_size n _ (limit_of_eq _ _ _)). lia.
Qed.

Lemma no_sep_cons (b : u8) (c : list u8) :
  no_sep (b :: c) <-> b <> 47 /\ no_sep c.
Proof.
  unfold no_sep. simpl. rewrite andb_true_iff, negb_true_iff, Z.eqb_neq.
  tauto.
Qed.

Lemma split_sep_nonnil (s : list u8) : split_sep s <> [].
Proof.
  destruct s as [|b r]; simpl; [discriminate|].
  destruct (b =? 47); [discriminate|]. destruct (split_sep r); discriminate.
Qed.

(** Splitting and joining are inverse to each other. *)
Lemma split_sep_unsplit (s : list u8) :
  unsplit (split_sep s) = s /\ Forall no_sep (split_sep s).
Proof.
  induction s as [|b r [IH1 IH2]]; simpl.
  - split; [reflexivity|]. constructor; [reflexivity|constructor].
  - destruct (b =? 47) eqn:E.
    + apply Z.eqb_eq in E. subst b. split.
      * simpl. destruct (split_sep r) as [|c cs] eqn:Er;
          [now apply split_sep_nonnil in Er|].
        simpl in IH1. simpl. now rewrite IH1.
      * constructor; [reflexivity|exact IH2].
    + destruct (split_sep r) as [|c cs] eqn:Er;
        [now apply split_sep_nonnil in Er|].
      simpl in IH1. simpl. split; [now rewrite IH1|].
      inversion IH2; subst. constructor; [|assumption].
      apply no_sep_cons. split; [now apply Z.eqb_neq|assumption].
Qed.

Lemma split_sep_app (c : list u8) (cs : list (list u8)) :
  no_sep c -> split_sep (c ++ join cs) = c :: match cs with
                                              | [] => []
                                              | _ => split_sep (tl (join cs))
                                              end.
Proof.
  induction c as [|b c IH]; intros Hc.
  - destruct cs as [|d cs]; reflexivity.
  - apply no_sep_cons in Hc. destruct Hc as [Hb Hc].
    simpl. apply Z.eqb_neq in Hb. rewrite Hb, (IH Hc). reflexivity.
Qed.

Lemma split_sep_join (c : list u8) (cs : list (list u8)) :
  no_sep c -> Forall no_sep cs -> split_sep (c ++ join cs) = c :: cs.
Proof.
  revert c. induction cs as [|d cs IH]; intros c Hc Hcs.
  - now rewrite split_sep_app.
  - rewrite split_sep_app by assumption. inversion Hcs; subst.
    simpl. now rewrite IH.
Qed.

Lemma strchr_no_sep (c : list u8) : no_sep c -> strchr c 47 = None.
Proof.
  induction c as [|b c IH]; intros H; [reflexivity|].
  apply no_sep_cons in H. destruct H as [Hb Hc]. simpl.
  apply Z.eqb_neq in Hb. rewrite Hb, (IH Hc). reflexivity.
Qed.

Lemma strchr_sep_app (c r : list u8) :
  no_sep c -> strchr (c ++ 47 :: r) 47 = Some (length c).
Proof.
  induction c as [|b c IH]; intros H; [reflexivity|].
  apply no_sep_cons in H. destruct H as [Hb Hc]. simpl.
  apply Z.eqb_neq in Hb. rewrite Hb, (IH Hc). reflexivity.
Qed.

(** ** The loop of utilsGeneratePath *)

(** Closing the gap left by a truncated element. *)
Lemma shift_left (A X B : list u8) (dst src n len' : nat) :
  dst = length A -> src = (length A + length X)%nat -> n = length B ->
  len' = (length A + length B)%nat ->
  firstn len' (memmove (A ++ X ++ B) dst src n) = A ++ B.
Proof.
  intros -> -> -> ->. unfold memmove.
  assert (E1 : firstn (length A) (A ++ X ++ B) = A).
  { rewrite <- (Nat.add_0_r (length A)), firstn_app_2, firstn_O.
    apply app_nil_r. }
  assert (E2 : firstn (length B) (skipn (length A + length X) (A ++ X ++ B))
               = B).
  { rewrite app_assoc, <- length_app, skipn_app, skipn_all, Nat.sub_diag.
    cbn [app skipn]. apply firstn_all. }
  rewrite E1, E2, app_assoc, <- length_app.
  rewrite <- (Nat.add_0_r (length (A ++ B))), firstn_app_2, firstn_O.
  apply app_nil_r.
Qed.

(** Moving the extension to the end of the truncated last element. *)
Lemma splice_ext (A c : list u8) (b el dst src len' : nat) :
  (el < b)%nat -> (b < length c)%nat ->
  dst = (length A + b - el)%nat -> src = (length A + length c - el)%nat ->
  len' = (length A + b)%nat ->
  firstn len' (memmove (A ++ c) dst src el)
  = A ++ firstn (b - el) c ++ skipn (length c - el) c.
Proof.
  intros H1 H2 -> -> ->. unfold memmove.
  assert (E1 : firstn (length A + b - el) (A ++ c) = A ++ firstn (b - el) c).
  { replace (length A + b - el)%nat with (length A + (b - el))%nat by lia.
    apply firstn_app_2. }
  assert (E2 : firstn el (skipn (length A + length c - el) (A ++ c))
               = skipn (length c - el) c).
  { rewrite skipn_app, skipn_all2 by lia.
    replace (length A + length c - el - length A)%nat
      with (length c - el)%nat by lia.
    cbn [app]. apply firstn_all2. rewrite length_skipn. lia. }
  rewrite E1, E2, app_assoc, firstn_app.
  rewrite firstn_all2
    by (rewrite !length_app, length_firstn, length_skipn; lia).
  rewrite !length_app, length_firstn, length_skipn.
  replace (length A + b - _)%nat with O by lia.
  now rewrite firstn_O, app_nil_r, app_assoc.
Qed.

Lemma rd_at_sep (pre r : list u8) : rd (pre ++ 47 :: r) (length pre) = 47.
Proof. unfold rd. now rewrite app_nth2, Nat.sub_diag by lia. Qed.

Lemma skipn_past_sep (pre r : list u8) :
  skipn (S (length pre)) (pre ++ 47 :: r) = r.
Proof.
  rewrite skipn_app, skipn_all2 by lia.
  now replace (S (length pre) - length pre)%nat with 1%nat by lia.
Qed.

(** The body on an element that is followed by another one. *)
Lemma gen_body_middle (ue : bool) (el : nat) (pre c r : list u8)
    (ptr2 : option nat) (b : nat) :
  no_sep c ->
  b = limit_of (c ++ 47 :: r) (length c) NT_MAX_FILENAME_LENGTH ->
  gen_body false ue el
    (mk_gen_state (pre ++ 47 :: c ++ 47 :: r)
                  (length (pre ++ 47 :: c ++ 47 :: r)) (length pre) ptr2)
  = Next ((pre ++ 47 :: firstn b c) ++ 47 :: r)
         (length ((pre ++ 47 :: firstn b c) ++ 47 :: r))
         (Some (length (pre ++ 47 :: firstn b c)))
         (Some (length (pre ++ 47 :: firstn b c))).
Proof.
  intros Hc Eb. unfold gen_body. cbn [g_path g_path_len g_ptr1 g_ptr2].
  rewrite rd_at_sep. cbn [negb andb Z.eqb].
  rewrite skipn_past_sep.
  rewrite strchr_sep_app by assumption.
  cbn [option_map].
  replace (S (length pre) + length c - S (length pre))%nat
    with (length c) by lia.
  rewrite limit_of_eq, <- Eb.
  pose proof (limit_of_le (c ++ 47 :: r) (length c) NT_MAX_FILENAME_LENGTH)
    as Hb.
  rewrite <- Eb in Hb.
  set (rest := 47 :: r). set (pre' := pre ++ 47 :: firstn b c).
  assert (Lp : length pre' = (S (length pre) + b)%nat).
  { unfold pre'. rewrite length_app. cbn [length].
    rewrite length_firstn. lia. }
  destruct (b <? length c)%nat eqn:E.
  - apply Nat.ltb_lt in E.
    assert (P : pre ++ 47 :: c ++ rest = pre' ++ skipn b c ++ rest).
    { unfold pre'. rewrite <- app_assoc. cbn [app]. f_equal. f_equal.
      now rewrite app_assoc, firstn_skipn. }
    assert (Lr : length (pre ++ 47 :: c ++ rest)
                 = (S (length pre) + length c + length rest)%nat).
    { rewrite length_app. cbn [length]. rewrite length_app. lia. }
    assert (Ln : length (pre' ++ rest) = (length pre' + length rest)%nat)
      by apply length_app.
    rewrite Lr, Ln, Lp.
    replace (S (length pre) + length c + length rest - (length c - b))%nat
      with (S (length pre) + b + length rest)%nat by lia.
    replace (S (length pre) + length c - (length c - b))%nat
      with (S (length pre) + b)%nat by lia.
    f_equal. rewrite P.
    apply shift_left; rewrite ?length_skipn; lia.
  - apply Nat.ltb_ge in E. assert (b = length c) by lia.
    assert (F : firstn b c = c) by (apply firstn_all2; lia).
    unfold pre'. rewrite F, <- app_assoc. cbn [app].
    rewrite !length_app. cbn [length]. f_equal; f_equal; lia.
Qed.

(** The body on the last element, [ptr1] standing right before it. *)
Lemma gen_body_last (fo ue : bool) (el : nat) (A c : list u8) (p1 : nat)
    (ptr2 : option nat) :
  no_sep c ->
  (fo = true /\ p1 = length A /\ ptr2 = None \/
   fo = false /\ exists pre, A = pre ++ [47] /\ p1 = length pre) ->
  gen_body fo ue el (mk_gen_state (A ++ c) (length (A ++ c)) p1 ptr2)
  = match gen_last ue el c with
    | inl c' => Next (A ++ c') (length (A ++ c')) None None
    | inr e => Abort (A ++ c) e
    end.
Proof.
  intros Hc Hm. unfold gen_body. cbn [g_path g_path_len g_ptr1 g_ptr2].
  assert (E : (negb fo && (rd (A ++ c) p1 =? 0)) = false).
  { destruct Hm as [(-> & _)|(-> & pre & -> & ->)]; [reflexivity|].
    rewrite <- app_assoc. cbn [app]. now rewrite rd_at_sep. }
  rewrite E. clear E.
  assert (E1 : (if fo then p1 else S p1) = length A).
  { destruct Hm as [(-> & -> & _)|(-> & pre & -> & ->)]; [reflexivity|].
    rewrite length_app. simpl. lia. }
  rewrite E1.
  assert (E2 : (if fo then ptr2
                else option_map (Nat.add (length A))
                                (strchr (skipn (length A) (A ++ c)) 47))
               = None).
  { destruct Hm as [(-> & _ & ->)|(-> & _)]; [reflexivity|].
    rewrite skipn_app, skipn_all, Nat.sub_diag. cbn [app skipn].
    now rewrite strchr_no_sep. }
  rewrite E2. clear E1 E2.
  rewrite skipn_app, skipn_all, Nat.sub_diag. cbn [app skipn].
  rewrite length_app.
  replace (length A + length c - length A)%nat with (length c) by lia.
  rewrite limit_of_eq. unfold gen_last.
  set (b := limit_of c (length c) NT_MAX_FILENAME_LENGTH).
  pose proof (limit_of_le c (length c) NT_MAX_FILENAME_LENGTH) as Hb.
  fold b in Hb.
  destruct (b <? length c)%nat eqn:E; [|now rewrite length_app].
  apply Nat.ltb_lt in E. destruct ue.
  - destruct (b <=? el)%nat eqn:E'; [reflexivity|].
    apply Nat.leb_gt in E'.
    replace (length A + length c - (length c - b))%nat
      with (length A + b)%nat by lia.
    rewrite (splice_ext A c b el) by lia.
    rewrite !length_app, length_firstn, length_skipn. do 2 f_equal. lia.
  - replace (length A + length c - (length c - b))%nat
      with (length A + b)%nat by lia.
    rewrite firstn_app_2, length_app, length_firstn. do 2 f_equal. lia.
Qed.

Lemma join_length (cs : list (list u8)) : (length cs <= length (join cs))%nat.
Proof.
  induction cs as [|c cs IH]; simpl; [lia|]. rewrite length_app. lia.
Qed.

Lemma gen_loop_null (fuel : nat) (fo ue : bool) (el : nat) (p : list u8)
    (l : nat) (ptr2 : option nat) :
  gen_loop fuel fo ue el p l None ptr2 = Some (inl (p, l)).
Proof. destruct fuel; reflexivity. Qed.

Lemma gen_loop_elems (ue : bool) (el : nat) :
  forall cs pre fuel ptr2,
  cs <> [] -> Forall no_sep cs -> (length cs <= fuel)%nat ->
  match gen_elems ue el cs with
  | inl r =>
    gen_loop fuel false ue el (pre ++ join cs) (length (pre ++ join cs))
             (Some (length pre)) ptr2
    = Some (inl (pre ++ join r, length (pre ++ join r)))
  | inr e =>
    exists p,
    gen_loop fuel false ue el (pre ++ join cs) (length (pre ++ join cs))
             (Some (length pre)) ptr2
    = Some (inr (p, e))
  end.
Proof.
  induction cs as [|c cs IH]; intros pre fuel ptr2 Hne Hns Hf; [congruence|].
  inversion Hns as [|? ? Hc Hcs]; subst.
  destruct fuel as [|fuel]; [simpl in Hf; lia|].
  destruct cs as [|d ds].
  - cbn [gen_elems join]. rewrite app_nil_r.
    pose proof (gen_body_last false ue el (pre ++ [47]) c (length pre) ptr2 Hc)
      as B.
    rewrite <- app_assoc in B. cbn [app] in B.
    cbn [gen_loop]. rewrite B by (right; split; [reflexivity|eauto]).
    destruct (gen_last ue el c) as [c'|e]; [|eauto].
    rewrite <- (app_assoc pre [47] c'). cbn [app].
    rewrite gen_loop_null. cbn [join]. now rewrite app_nil_r.
  - specialize (IH (pre ++ 47 :: firstn
                      (limit_of (c ++ join (d :: ds)) (length c)
                                NT_MAX_FILENAME_LENGTH) c)
                   fuel).
    change (gen_elems ue el (c :: d :: ds))
      with (match gen_elems ue el (d :: ds) with
            | inl r => inl (firstn (limit_of (c ++ join (d :: ds)) (length c)
                                             NT_MAX_FILENAME_LENGTH) c :: r)
            | inr e => inr e
            end).
    set (b := limit_of (c ++ join (d :: ds)) (length c)
                       NT_MAX_FILENAME_LENGTH) in *.
    assert (Hb : gen_body false ue el
              (mk_gen_state (pre ++ join (c :: d :: ds))
                            (length (pre ++ join (c :: d :: ds)))
                            (length pre) ptr2)
            = Next ((pre ++ 47 :: firstn b c) ++ join (d :: ds))
                   (length ((pre ++ 47 :: firstn b c) ++ join (d :: ds)))
                   (Some (length (pre ++ 47 :: firstn b c)))
                   (Some (length (pre ++ 47 :: firstn b c)))).
    { apply (gen_body_middle ue el pre c (d ++ join ds) ptr2 b Hc).
      reflexivity. }
    cbn [gen_loop]. rewrite Hb.
    specialize (IH (Some (length (pre ++ 47 :: firstn b c)))).
    assert (Hl : (length (d :: ds) <= fuel)%nat) by (simpl in *; lia).
    specialize (IH ltac:(discriminate) Hcs Hl).
    destruct (gen_elems ue el (d :: ds)) as [r|e].
    + rewrite IH. cbn [join]. rewrite <- !app_assoc. reflexivity.
    + exact IH.
Qed.

Lemma gen_concat_length (prefix extension : option (list u8))
    (fname : list u8) :
  let use_prefix := nonempty_str prefix in
  let prefix_len := if use_prefix then length (bytes_of prefix) else O in
  let append_path_sep :=
    use_prefix && negb (rd (bytes_of prefix) (prefix_len - 1) =? 47) in
  let extension_len :=
    if nonempty_str extension then length (bytes_of extension) else O in
  ((prefix_len + length fname + extension_len)
   + (if append_path_sep then 1 else 0))%nat
  = length (gen_concat prefix extension fname).
Proof.
  unfold gen_concat. cbv zeta. rewrite !length_app.
  destruct (nonempty_str prefix), (nonempty_str extension); cbn [andb];
    try destruct (negb _); cbn [length]; lia.
Qed.

Lemma generate_outcome (FS_MAX_PATH : nat)
    (prefix filename extension : option (list u8)) :
  nonempty_str filename = true ->
  utilsGeneratePath FS_MAX_PATH prefix filename extension
  = Some (gen_outcome FS_MAX_PATH prefix filename extension).
Proof.
  intros Hf. unfold utilsGeneratePath, gen_outcome. rewrite Hf. cbn [negb].
  cbv zeta. rewrite gen_concat_length.
  set (P := gen_concat prefix extension (bytes_of filename)).
  set (ue := nonempty_str extension).
  set (el := if ue then length (bytes_of extension) else O).
  destruct (split_sep_unsplit P) as [HP Hns].
  destruct (split_sep P) as [|c0 cs] eqn:Es; [now apply split_sep_nonnil in Es|].
  inversion Hns as [|? ? Hc0 Hcs]; subst.
  destruct cs as [|d ds].
  - cbn [unsplit join] in HP. rewrite app_nil_r in HP. subst c0.
    rewrite (strchr_no_sep P Hc0).
    pose proof (gen_body_last true ue el [] P O None Hc0) as B.
    cbn [app length] in B. cbn [gen_loop gen_components].
    rewrite B by (left; auto).
    destruct (gen_last ue el P) as [c'|e]; [|reflexivity].
    rewrite gen_loop_null. cbn [unsplit join]. rewrite app_nil_r.
    destruct (FS_MAX_PATH <=? length c')%nat; reflexivity.
  - cbn [unsplit] in HP. rewrite <- HP.
    assert (Hs : strchr (c0 ++ join (d :: ds)) 47 = Some (length c0))
      by (cbn [join]; now apply strchr_sep_app).
    rewrite Hs.
    pose proof (gen_loop_elems ue el (d :: ds) c0
                  (S (length (c0 ++ join (d :: ds)))) None
                  ltac:(discriminate) Hcs) as L.
    assert (Hl : (length (d :: ds) <= S (length (c0 ++ join (d :: ds))))%nat).
    { rewrite length_app. pose proof (join_length (d :: ds)). lia. }
    specialize (L Hl).
    change (gen_components ue el (c0 :: d :: ds))
      with (match gen_elems ue el (d :: ds) with
            | inl r => inl (c0 :: r)
            | inr e => inr e
            end).
    destruct (gen_elems ue el (d :: ds)) as [r|e].
    + rewrite L. cbn [unsplit].
      destruct (FS_MAX_PATH <=? length (c0 ++ join r))%nat; reflexivity.
    + destruct L as [p L]. rewrite L. reflexivity.
Qed.

(** The loop never runs out of fuel: the call always returns. *)
Lemma generate_total (FS_MAX_PATH : nat)
    (prefix filename extension : option (list u8)) :
  exists r, utilsGeneratePath FS_MAX_PATH prefix filename extension = Some r.
Proof.
  destruct (nonempty_str filename) eqn:Hf.
  - rewrite (generate_outcome _ _ _ _ Hf). eexists. reflexivity.
  - unfold utilsGeneratePath. rewrite Hf. eexists. reflexivity.
Qed.

(** ** Claims about utilsGeneratePath: arguments *)

(** C10: an empty prefix or extension is treated like a NULL one, and a
    NULL or empty filename gives the invalid-parameters failure, that is a
    NULL result. *)
Theorem generate_empty_arguments (FS_MAX_PATH : nat)
    (prefix filename extension : option (list u8)) :
  utilsGeneratePath FS_MAX_PATH (Some []) filename (Some [])
  = utilsGeneratePath FS_MAX_PATH None filename None
  /\ utilsGeneratePath FS_MAX_PATH (Some []) filename extension
     = utilsGeneratePath FS_MAX_PATH None filename extension
  /\ utilsGeneratePath FS_MAX_PATH prefix filename (Some [])
     = utilsGeneratePath FS_MAX_PATH prefix filename None
  /\ utilsGeneratePath FS_MAX_PATH prefix None extension
     = Some (Failure InvalidParameters)
  /\ utilsGeneratePath FS_MAX_PATH prefix (Some []) extension
     = Some (Failure InvalidParameters)
  /\ returned_path (Failure InvalidParameters) = None.
Proof. repeat split; reflexivity. Qed.

(** ** The elements of the result *)

Lemma no_sep_app (a b : list u8) : no_sep (a ++ b) <-> no_sep a /\ no_sep b.
Proof. unfold no_sep. rewrite forallb_app. apply andb_true_iff. Qed.

Lemma no_sep_firstn (n : nat) (c : list u8) : no_sep c -> no_sep (firstn n c).
Proof.
  intros H. rewrite <- (firstn_skipn n c) in H. now apply no_sep_app in H.
Qed.

Lemma no_sep_skipn (n : nat) (c : list u8) : no_sep c -> no_sep (skipn n c).
Proof.
  intros H. rewrite <- (firstn_skipn n c) in H. now apply no_sep_app in H.
Qed.

Lemma max_filename_pos : (0 < NT_MAX_FILENAME_LENGTH)%nat.
Proof. unfold NT_MAX_FILENAME_LENGTH. lia. Qed.

(** The last element comes out with at most 254 bytes, without separator,
    and not longer than it was. *)
Lemma gen_last_props (ue : bool) (el : nat) (c c' : list u8) :
  gen_last ue el c = inl c' ->
  (length c' < NT_MAX_FILENAME_LENGTH)%nat /\ (length c' <= length c)%nat
  /\ (no_sep c -> no_sep c').
Proof.
  unfold gen_last.
  pose proof (limit_of_le c (length c) NT_MAX_FILENAME_LENGTH) as Hb.
  pose proof (limit_of_lt c (length c) _ max_filename_pos) as Hn.
  set (b := limit_of c (length c) NT_MAX_FILENAME_LENGTH) in *.
  destruct (b <? length c)%nat eqn:E.
  - apply Nat.ltb_lt in E. destruct ue.
    + destruct (b <=? el)%nat eqn:E'; [discriminate|].
      apply Nat.leb_gt in E'. intros H. inversion H; subst c'.
      rewrite length_app, length_firstn, length_skipn.
      repeat split; try lia.
      intros Hc. apply no_sep_app.
      split; [now apply no_sep_firstn|now apply no_sep_skipn].
    + intros H. inversion H; subst c'. rewrite length_firstn.
      repeat split; try lia. intros Hc. now apply no_sep_firstn.
  - apply Nat.ltb_ge in E. intros H. inversion H; subst c'.
    repeat split; (lia || auto).
Qed.

Lemma gen_elems_props (ue : bool) (el : nat) :
  forall cs r, cs <> [] -> gen_elems ue el cs = inl r ->
  length r = length cs
  /\ Forall (fun c => (length c < NT_MAX_FILENAME_LENGTH)%nat) r
  /\ (Forall no_sep cs -> Forall no_sep r)
  /\ gen_last ue el (last cs []) = inl (last r []).
Proof.
  induction cs as [|c cs IH]; intros r Hne; [congruence|].
  destruct cs as [|d ds].
  - cbn [gen_elems]. destruct (gen_last ue el c) as [c'|e] eqn:E;
      [|discriminate].
    intros H. inversion H; subst r.
    destruct (gen_last_props ue el c c' E) as (P1 & P2 & P3).
    split; [reflexivity|]. split; [now constructor|].
    split; [|exact E].
    intros Hc. inversion Hc; subst. constructor; auto.
  - change (gen_elems ue el (c :: d :: ds))
      with (match gen_elems ue el (d :: ds) with
            | inl r => inl (firstn (limit_of (c ++ join (d :: ds)) (length c)
                                             NT_MAX_FILENAME_LENGTH) c :: r)
            | inr e => inr e
            end).
    destruct (gen_elems ue el (d :: ds)) as [r'|e] eqn:E; [|discriminate].
    intros H. inversion H; subst r.
    destruct (IH r' ltac:(discriminate) eq_refl) as (P1 & P2 & P3 & P4).
    pose proof (limit_of_lt (c ++ join (d :: ds)) (length c) _
                            max_filename_pos) as Hn.
    split; [simpl in *; lia|]. split.
    { constructor; [|exact P2]. rewrite length_firstn.
      change (join (d :: ds)) with (47 :: d ++ join ds) in Hn. lia. }
    split.
    { intros Hc. inversion Hc; subst.
      constructor; [now apply no_sep_firstn|auto]. }
    destruct r' as [|x r']; [simpl in P1; discriminate|]. exact P4.
Qed.

Lemma gen_elems_error (ue : bool) (el : nat) :
  forall cs e, cs <> [] ->
  (gen_elems ue el cs = inr e <-> gen_last ue el (last cs []) = inr e).
Proof.
  induction cs as [|c cs IH]; intros e Hne; [congruence|].
  destruct cs as [|d ds].
  - cbn [gen_elems last]. destruct (gen_last ue el c); split; congruence.
  - change (gen_elems ue el (c :: d :: ds))
      with (match gen_elems ue el (d :: ds) with
            | inl r => inl (firstn (limit_of (c ++ join (d :: ds)) (length c)
                                             NT_MAX_FILENAME_LENGTH) c :: r)
            | inr e => inr e
            end).
    change (last (c :: d :: ds) []) with (last (d :: ds) []).
    rewrite <- (IH e ltac:(discriminate)).
    destruct (gen_elems ue el (d :: ds)); split; congruence.
Qed.

(** The same for a whole path given by its elements. *)
Lemma gen_components_props (ue : bool) (el : nat) (cs r : list (list u8)) :
  cs <> [] -> gen_components ue el cs = inl r ->
  length r = length cs
  /\ (Forall no_sep cs -> Forall no_sep r)
  /\ Forall (fun c => (length c < NT_MAX_FILENAME_LENGTH)%nat) (tl r)
  /\ (tl r = [] -> (length (hd [] r) < NT_MAX_FILENAME_LENGTH)%nat)
  /\ (tl cs <> [] -> hd [] r = hd [] cs)
  /\ gen_last ue el (last cs []) = inl (last r []).
Proof.
  intros Hne. destruct cs as [|c0 cs]; [congruence|]. destruct cs as [|d ds].
  - cbn [gen_components]. destruct (gen_last ue el c0) as [c'|e] eqn:E;
      [|discriminate].
    intros H. inversion H; subst r.
    destruct (gen_last_props ue el c0 c' E) as (P1 & P2 & P3).
    cbn [tl hd last length]. repeat split; auto; try congruence.
    intros Hc. inversion Hc; subst. constructor; auto.
  - change (gen_components ue el (c0 :: d :: ds))
      with (match gen_elems ue el (d :: ds) with
            | inl r => inl (c0 :: r)
            | inr e => inr e
            end).
    destruct (gen_elems ue el (d :: ds)) as [r'|e] eqn:E; [|discriminate].
    intros H. inversion H; subst r.
    destruct (gen_elems_props ue el (d :: ds) r' ltac:(discriminate) E)
      as (P1 & P2 & P3 & P4).
    cbn [tl hd]. split; [simpl in *; lia|]. split.
    { intros Hc. inversion Hc; subst. constructor; auto. }
    split; [exact P2|]. split.
    { intros ->. simpl in P1. discriminate. }
    split; [reflexivity|].
    destruct r' as [|x r']; [simpl in P1; discriminate|]. exact P4.
Qed.

Lemma gen_components_error (ue : bool) (el : nat) (cs : list (list u8))
    (e : gen_error) :
  cs <> [] ->
  (gen_components ue el cs = inr e <-> gen_last ue el (last cs []) = inr e).
Proof.
  intros Hne. destruct cs as [|c0 cs]; [congruence|]. destruct cs as [|d ds].
  - cbn [gen_components last]. destruct (gen_last ue el c0); split; congruence.
  - change (gen_components ue el (c0 :: d :: ds))
      with (match gen_elems ue el (d :: ds) with
            | inl r => inl (c0 :: r)
            | inr e => inr e
            end).
    change (last (c0 :: d :: ds) []) with (last (d :: ds) []).
    rewrite <- (gen_elems_error ue el (d :: ds) e ltac:(discriminate)).
    destruct (gen_elems ue el (d :: ds)); split; congruence.
Qed.

Lemma split_sep_of_unsplit (r : list (list u8)) :
  r <> [] -> Forall no_sep r -> split_sep (unsplit r) = r.
Proof.
  intros Hne Hr. destruct r as [|c cs]; [congruence|].
  inversion Hr; subst. cbn [unsplit]. now apply split_sep_join.
Qed.

Lemma unsplit_last (r : list (list u8)) :
  r <> [] -> exists Y, unsplit r = Y ++ last r [].
Proof.
  intros Hne. destruct r as [|c cs]; [congruence|]. cbn [unsplit].
  clear Hne. revert c. induction cs as [|d ds IH]; intros c.
  - exists []. cbn [join last]. now rewrite app_nil_r.
  - destruct (IH d) as [Y HY]. exists (c ++ 47 :: Y).
    change (last (c :: d :: ds) []) with (last (d :: ds) []).
    cbn [join]. rewrite HY, <- app_assoc. reflexivity.
Qed.

(** ** Claims about utilsGeneratePath: results *)

Lemma generate_success_inv (FS_MAX_PATH : nat)
    (prefix filename extension : option (list u8)) (out : list u8) :
  utilsGeneratePath FS_MAX_PATH prefix filename extension = Some (Path out) ->
  nonempty_str filename = true /\
  exists comps,
    gen_components (nonempty_str extension)
      (if nonempty_str extension then length (bytes_of extension) else O)
      (split_sep (gen_concat prefix extension (bytes_of filename)))
    = inl comps
    /\ out = unsplit comps /\ (length out < FS_MAX_PATH)%nat
    /\ split_sep out = comps /\ comps <> [].
Proof.
  intros H. destruct (nonempty_str filename) eqn:Hf.
  2:{ unfold utilsGeneratePath in H. rewrite Hf in H. discriminate. }
  split; [reflexivity|].
  rewrite (generate_outcome FS_MAX_PATH _ _ _ Hf) in H.
  unfold gen_outcome in H. cbv zeta in H.
  set (P := gen_concat prefix extension (bytes_of filename)) in *.
  destruct (gen_components _ _ (split_sep P)) as [comps|e] eqn:E;
    [|discriminate].
  destruct (FS_MAX_PATH <=? length (unsplit comps))%nat eqn:EF;
    [discriminate|].
  apply Nat.leb_gt in EF. inversion H; subst out.
  destruct (gen_components_props _ _ _ _ (split_sep_nonnil P) E)
    as (P1 & P2 & _).
  assert (Hne : comps <> []).
  { intros ->. simpl in P1. symmetry in P1. apply length_zero_iff_nil in P1.
    now apply split_sep_nonnil in P1. }
  exists comps. repeat split; auto.
  apply split_sep_of_unsplit; [exact Hne|].
  apply P2, split_sep_unsplit.
Qed.

(** What the loop does bound: in every path returned, each element behind
    the first separator has at most 254 bytes, a path without separator has
    at most 254 bytes, and the total length is below FS_MAX_PATH. *)
Lemma generate_checked_bound (FS_MAX_PATH : nat)
    (prefix filename extension : option (list u8)) (out : list u8) :
  utilsGeneratePath FS_MAX_PATH prefix filename extension = Some (Path out) ->
  (length out < FS_MAX_PATH)%nat
  /\ Forall (fun c => (length c <= 254)%nat) (checked_elems out).
Proof.
  intros H.
  destruct (generate_success_inv _ _ _ _ _ H)
    as (Hf & comps & E & Eo & Hl & Es & Hne).
  split; [exact Hl|].
  set (P := gen_concat prefix extension (bytes_of filename)) in *.
  destruct (gen_components_props _ _ _ _ (split_sep_nonnil P) E)
    as (P1 & P2 & P3 & P4 & P5 & P6).
  unfold checked_elems. rewrite Es.
  assert (G : Forall (fun c => (length c <= 254)%nat) (tl comps)).
  { eapply Forall_impl; [|exact P3]. unfold NT_MAX_FILENAME_LENGTH.
    intros c Hc. simpl in Hc. lia. }
  destruct comps as [|c0 [|d ds]]; [congruence| |exact G].
  constructor; [|constructor].
  specialize (P4 eq_refl). unfold NT_MAX_FILENAME_LENGTH in P4.
  simpl in P4. lia.
Qed.

(** C6 (defect of the code): the loop that is to make sure that each path
    element does not exceed NT_MAX_FILENAME_LENGTH starts behind the first
    separator.  With a prefix of 300 bytes without separator and the file
    name a the call succeeds and returns the prefix, a separator and the
    file name: the first element of the path has 300 bytes, above the
    limit of 255.  The same 300 bytes passed as the file name alone, the
    path without separator, are measured and cut to 254 bytes. *)
Theorem generate_first_element_unchecked :
  utilsGeneratePath FS_MAX_PATH_NX (Some scenario_name) (Some str_a) None
  = Some (Path (scenario_name ++ [47] ++ str_a))
  /\ split_sep (scenario_name ++ [47] ++ str_a) = [scenario_name; str_a]
  /\ length scenario_name = 300%nat
  /\ utilsGeneratePath FS_MAX_PATH_NX None (Some scenario_name) None
     = Some (Path (repeat 120 254)).
Proof.
  split; [vm_compute; reflexivity|].
  split; [vm_compute; reflexivity|].
  split; vm_compute; reflexivity.
Qed.

Lemma suffix_of_suffix (Y c Z e : list u8) :
  Y ++ c = Z ++ e -> (length e <= length c)%nat ->
  skipn (length c - length e) c = e.
Proof.
  intros E H.
  assert (L : length Z = (length Y + (length c - length e))%nat).
  { apply (f_equal (@length _)) in E. rewrite !length_app in E. lia. }
  assert (S1 : skipn (length Z) (Z ++ e) = e)
    by (rewrite skipn_app, skipn_all, Nat.sub_diag; reflexivity).
  rewrite <- E, L, skipn_app, skipn_all2 in S1 by lia.
  replace (length Y + (length c - length e) - length Y)%nat
    with (length c - length e)%nat in S1 by lia.
  exact S1.
Qed.

Lemma gen_concat_extension (prefix extension : option (list u8))
    (fname : list u8) :
  nonempty_str extension = true ->
  exists Z, gen_concat prefix extension fname = Z ++ bytes_of extension.
Proof.
  intros He. unfold gen_concat. cbv zeta. rewrite He.
  eexists. rewrite !app_assoc. reflexivity.
Qed.

Lemma path_last_elem (P : list u8) : exists Y, P = Y ++ last_elem P.
Proof.
  destruct (unsplit_last (split_sep P) (split_sep_nonnil P)) as [Y HY].
  exists Y. unfold last_elem. rewrite <- HY.
  symmetry. apply split_sep_unsplit.
Qed.

(** C5: when the call succeeds with a non-empty extension and the last
    element of the result is shorter than the last element of the
    concatenated input (it was truncated), the result ends with the bytes
    of the extension. *)
Theorem generate_keeps_extension (FS_MAX_PATH : nat)
    (prefix filename extension : option (list u8)) (out : list u8) :
  nonempty_str extension = true ->
  utilsGeneratePath FS_MAX_PATH prefix filename extension = Some (Path out) ->
  (length (last_elem out)
   < length (last_elem (gen_concat prefix extension (bytes_of filename))))%nat ->
  exists base, out = base ++ bytes_of extension.
Proof.
  intros He H Ht.
  destruct (generate_success_inv _ _ _ _ _ H)
    as (Hf & comps & E & Eo & Hl & Es & Hne).
  set (P := gen_concat prefix extension (bytes_of filename)) in *.
  destruct (gen_components_props _ _ _ _ (split_sep_nonnil P) E)
    as (_ & _ & _ & _ & _ & P6).
  unfold last_elem in Ht. rewrite Es in Ht. fold (last_elem P) in *.
  set (c := last_elem P) in *. set (c' := last comps []) in *.
  rewrite He in P6. unfold gen_last in P6.
  set (b := limit_of c (length c) NT_MAX_FILENAME_LENGTH) in *.
  set (el := length (bytes_of extension)) in *.
  destruct (b <? length c)%nat eqn:E1;
    [|inversion P6 as [Q]; rewrite <- Q in Ht; lia].
  apply Nat.ltb_lt in E1.
  destruct (b <=? el)%nat eqn:E2; [discriminate|]. apply Nat.leb_gt in E2.
  inversion P6 as [Q]. clear P6.
  destruct (unsplit_last comps Hne) as [Y HY]. fold c' in HY.
  destruct (path_last_elem P) as [Y' HP]. fold c in HP.
  destruct (gen_concat_extension prefix extension (bytes_of filename) He)
    as [Z HZ]. fold P in HZ.
  assert (S1 : skipn (length c - el) c = bytes_of extension).
  { apply (suffix_of_suffix Y' c Z); [now rewrite <- HP|unfold el in *; lia]. }
  exists (Y ++ firstn (b - el) c).
  rewrite Eo, HY, <- Q, S1, app_assoc. reflexivity.
Qed.

Lemma generate_keeps_extension_witness :
  exists base, scenario_out = base ++ bytes_of (Some scenario_ext).
Proof.
  apply (generate_keeps_extension FS_MAX_PATH_NX (Some scenario_prefix)
           (Some scenario_name) (Some scenario_ext) scenario_out).
  - reflexivity.
  - vm_compute. reflexivity.
  - apply Nat.ltb_lt. vm_compute. reflexivity.
Defined.

(** C8: when the last element has to be truncated and an extension was
    given, the call fails with the extension-too-long error exactly when
    the extension has at least as many bytes as the truncated length; and
    whenever the function leaves through its failure exit the buffer is
    dropped and NULL is returned. *)
Theorem generate_extension_too_long (FS_MAX_PATH : nat)
    (prefix filename extension : option (list u8)) (b : nat) :
  nonempty_str filename = true ->
  nonempty_str extension = true ->
  let c := last_elem (gen_concat prefix extension (bytes_of filename)) in
  utilsGetUtf8StringLimit c (length c) NT_MAX_FILENAME_LENGTH = Some b ->
  (b < length c)%nat ->
  (utilsGeneratePath FS_MAX_PATH prefix filename extension
   = Some (Failure ExtensionTooLong)
   <-> (b <= length (bytes_of extension))%nat)
  /\ (forall e,
      utilsGeneratePath FS_MAX_PATH prefix filename extension
      = Some (Failure e) ->
      option_map returned_path
        (utilsGeneratePath FS_MAX_PATH prefix filename extension)
      = Some None)
  /\ (forall partial e, returned_path (gen_end false partial e) = None).
Proof.
  intros Hf He c Hb Hlt.
  split; [|split; [intros e ->; reflexivity|reflexivity]].
  rewrite (generate_outcome FS_MAX_PATH _ _ _ Hf). unfold gen_outcome.
  cbv zeta. rewrite He.
  set (P := gen_concat prefix extension (bytes_of filename)) in *.
  set (el := length (bytes_of extension)).
  assert (G : forall e, gen_components true el (split_sep P) = inr e
                        <-> gen_last true el c = inr e)
    by (intros e; apply gen_components_error, split_sep_nonnil).
  assert (L : gen_last true el c
              = if (b <=? el)%nat then inr ExtensionTooLong
                else inl (firstn (b - el) c ++ skipn (length c - el) c)).
  { unfold gen_last, limit_of. rewrite Hb.
    apply Nat.ltb_lt in Hlt. now rewrite Hlt. }
  split.
  - intros H. destruct (gen_components true el (split_sep P)) as [r|e] eqn:E.
    + destruct (FS_MAX_PATH <=? length (unsplit r))%nat; discriminate.
    + inversion H; subst e. rewrite <- E in G. apply G in E. rewrite L in E.
      destruct (b <=? el)%nat eqn:E'; [now apply Nat.leb_le|discriminate].
  - intros H. apply Nat.leb_le in H. rewrite H in L. apply G in L.
    now rewrite L.
Qed.

Lemma generate_extension_too_long_witness :
  (utilsGeneratePath FS_MAX_PATH_NX (Some scenario_prefix)
     (Some scenario_name) (Some scenario_ext)
   = Some (Failure ExtensionTooLong)
   <-> (254 <= length (bytes_of (Some scenario_ext)))%nat)
  /\ (forall e,
      utilsGeneratePath FS_MAX_PATH_NX (Some scenario_prefix)
        (Some scenario_name) (Some scenario_ext)
      = Some (Failure e) ->
      option_map returned_path
        (utilsGeneratePath FS_MAX_PATH_NX (Some scenario_prefix)
           (Some scenario_name) (Some scenario_ext))
      = Some None)
  /\ (forall partial e, returned_path (gen_end false partial e) = None).
Proof.
  apply (generate_extension_too_long FS_MAX_PATH_NX (Some scenario_prefix)
           (Some scenario_name) (Some scenario_ext) 254).
  - reflexivity.
  - reflexivity.
  - vm_compute. reflexivity.
  - apply Nat.ltb_lt. vm_compute. reflexivity.
Defined.

(** ** Short elements pass through unchanged *)

Lemma cstring_head_nonzero (c r : list u8) :
  cstring c -> length c = 0%nat \/ rd (c ++ r) 0 <> 0.
Proof.
  intros Hc. destruct c as [|x t]; [now left|right].
  apply cstring_cons in Hc. unfold rd. simpl. lia.
Qed.

Lemma gen_last_short (ue : bool) (el : nat) (c : list u8) :
  cstring c -> (length c < NT_MAX_FILENAME_LENGTH)%nat ->
  gen_last ue el c = inl c.
Proof.
  intros Hc Hl. unfold gen_last, limit_of.
  rewrite limit_no_truncation; [now rewrite Nat.ltb_irrefl|exact Hl|].
  rewrite <- (app_nil_r c) at 2. now apply cstring_head_nonzero.
Qed.

Lemma gen_elems_short (ue : bool) (el : nat) (cs : list (list u8)) :
  Forall cstring cs ->
  Forall (fun c => (length c < NT_MAX_FILENAME_LENGTH)%nat) cs ->
  gen_elems ue el cs = inl cs.
Proof.
  induction cs as [|c cs IH]; intros Hc Hl; [reflexivity|].
  inversion Hc; subst. inversion Hl; subst.
  destruct cs as [|d ds].
  - cbn [gen_elems]. now rewrite gen_last_short.
  - change (gen_elems ue el (c :: d :: ds))
      with (match gen_elems ue el (d :: ds) with
            | inl r => inl (firstn (limit_of (c ++ join (d :: ds)) (length c)
                                             NT_MAX_FILENAME_LENGTH) c :: r)
            | inr e => inr e
            end).
    rewrite IH by assumption. unfold limit_of.
    rewrite limit_no_truncation;
      [now rewrite firstn_all|assumption|now apply cstring_head_nonzero].
Qed.

Lemma cstring_join (cs : list (list u8)) :
  cstring (join cs) -> Forall cstring cs.
Proof.
  induction cs as [|c cs IH]; intros H; [constructor|].
  cbn [join] in H. apply cstring_cons in H. destruct H as [_ H].
  apply cstring_app in H. destruct H as [H1 H2]. constructor; auto.
Qed.

Lemma cstring_split (P : list u8) : cstring P -> Forall cstring (split_sep P).
Proof.
  intros H. destruct (split_sep_unsplit P) as [E _]. rewrite <- E in H.
  destruct (split_sep P) as [|c cs]; [constructor|].
  cbn [unsplit] in H. apply cstring_app in H. destruct H as [H1 H2].
  constructor; [exact H1|now apply cstring_join].
Qed.

Lemma gen_components_short (ue : bool) (el : nat) (P : list u8) :
  cstring P ->
  Forall (fun c => (length c < NT_MAX_FILENAME_LENGTH)%nat) (checked_elems P) ->
  gen_components ue el (split_sep P) = inl (split_sep P).
Proof.
  intros Hc Hl. apply cstring_split in Hc. unfold checked_elems in Hl.
  destruct (split_sep P) as [|c0 [|d ds]]; [reflexivity| |].
  - cbn [gen_components]. inversion Hc; subst. inversion Hl; subst.
    now rewrite gen_last_short.
  - change (gen_components ue el (c0 :: d :: ds))
      with (match gen_elems ue el (d :: ds) with
            | inl r => inl (c0 :: r)
            | inr e => inr e
            end).
    inversion Hc; subst. cbn [tl] in Hl. now rewrite gen_elems_short.
Qed.

(** C7 (as stated, refuted): the file name made of the single byte FF is
    not valid UTF-8, yet the call succeeds and returns it. *)
Lemma generate_malformed_cex :
  decode_utf8 [255] = None /\ ~ utf8_valid (gen_concat None None [255])
  /\ utilsGeneratePath FS_MAX_PATH_NX None (Some [255]) None
     = Some (Path [255]).
Proof.
  split; [reflexivity|]. split; [|reflexivity].
  intros H. inversion H; subst. discriminate.
Qed.

(** C7 (amended): the function does not validate UTF-8.  For a non-empty
    file name, whenever every element the loop looks at is shorter than
    255 bytes and the concatenated path is shorter than FS_MAX_PATH, the
    call succeeds and returns the concatenated path unchanged, whether or
    not it is valid UTF-8. *)
Theorem generate_no_validation (FS_MAX_PATH : nat)
    (prefix filename extension : option (list u8)) :
  nonempty_str filename = true ->
  cstring (gen_concat prefix extension (bytes_of filename)) ->
  Forall (fun c => (length c < NT_MAX_FILENAME_LENGTH)%nat)
         (checked_elems (gen_concat prefix extension (bytes_of filename))) ->
  (length (gen_concat prefix extension (bytes_of filename))
   < FS_MAX_PATH)%nat ->
  utilsGeneratePath FS_MAX_PATH prefix filename extension
  = Some (Path (gen_concat prefix extension (bytes_of filename))).
Proof.
  intros Hf Hc Hs Hl. rewrite (generate_outcome FS_MAX_PATH _ _ _ Hf).
  unfold gen_outcome. cbv zeta.
  rewrite gen_components_short by assumption.
  destruct (split_sep_unsplit (gen_concat prefix extension (bytes_of filename)))
    as [E _].
  rewrite E. apply Nat.leb_gt in Hl. now rewrite Hl.
Qed.

Lemma generate_no_validation_witness :
  utilsGeneratePath FS_MAX_PATH_NX (Some scenario_prefix)
                    (Some str_malformed) (Some scenario_ext)
  = Some (Path (gen_concat (Some scenario_prefix) (Some scenario_ext)
                           (bytes_of (Some str_malformed)))).
Proof.
  apply (generate_no_validation FS_MAX_PATH_NX (Some scenario_prefix)
           (Some str_malformed) (Some scenario_ext)).
  - reflexivity.
  - reflexivity.
  - vm_compute. repeat constructor.
  - apply Nat.ltb_lt. vm_compute. reflexivity.
Defined.

(** A malformed sequence in an element of 255 bytes or more is no error
    either: the element is cut at the last boundary in front of it. *)
Lemma generate_cuts_at_malformed :
  utilsGeneratePath FS_MAX_PATH_NX None (Some str_malformed_long) None
  = Some (Path [97; 98]).
Proof. vm_compute. reflexivity. Qed.

(** C2 (as stated, refuted): the call of scenario C succeeds, but the last
    element of the path it returns does not have 255 bytes. *)
Lemma scenario_c_last_element_cex :
  exists out,
    utilsGeneratePath FS_MAX_PATH_NX (Some scenario_prefix)
                      (Some scenario_name) (Some scenario_ext)
    = Some (Path out)
    /\ length (last_elem out) <> 255%nat.
Proof.
  exists scenario_out. split; [vm_compute; reflexivity|].
  vm_compute. discriminate.
Qed.

(** C2 (amended): for any path limit above 262, the call of scenario C
    succeeds; the last element of the result has exactly 254 bytes: 250
    letters x of the file name followed by the extension .txt. *)
Theorem generate_scenario_c (FS_MAX_PATH : nat) :
  (262 < FS_MAX_PATH)%nat ->
  utilsGeneratePath FS_MAX_PATH (Some scenario_prefix)
                    (Some scenario_name) (Some scenario_ext)
  = Some (Path scenario_out)
  /\ last_elem scenario_out = repeat 120 250 ++ scenario_ext
  /\ length (last_elem scenario_out) = 254%nat.
Proof.
  intros H. split; [|split; vm_compute; reflexivity].
  rewrite generate_outcome by reflexivity. unfold gen_outcome. cbv zeta.
  assert (E : gen_components (nonempty_str (Some scenario_ext))
                (if nonempty_str (Some scenario_ext)
                 then length (bytes_of (Some scenario_ext)) else O)
                (split_sep (gen_concat (Some scenario_prefix)
                              (Some scenario_ext)
                              (bytes_of (Some scenario_name))))
              = inl (split_sep scenario_out))
    by (vm_compute; reflexivity).
  rewrite E. destruct (split_sep_unsplit scenario_out) as [U _]. rewrite U.
  replace (length scenario_out) with 262%nat by (vm_compute; reflexivity).
  apply Nat.leb_gt in H. now rewrite H.
Qed.

Lemma generate_scenario_c_witness :
  utilsGeneratePath FS_MAX_PATH_NX (Some scenario_prefix)
                    (Some scenario_name) (Some scenario_ext)
  = Some (Path scenario_out)
  /\ last_elem scenario_out = repeat 120 250 ++ scenario_ext
  /\ length (last_elem scenario_out) = 254%nat.
Proof.
  apply (generate_scenario_c FS_MAX_PATH_NX). unfold FS_MAX_PATH_NX. lia.
Defined.

(** ** Validity of the result *)

Lemma utf8_valid_sep : utf8_valid [47].
Proof. apply (utf8_valid_seq 47 [] 47 1%nat); [reflexivity|constructor]. Qed.

Lemma join_head_not_cont (cs : list (list u8)) : is_cont (rd (join cs) 0) = false.
Proof. destruct cs; reflexivity. Qed.

Lemma utf8_valid_join (cs : list (list u8)) :
  utf8_valid (join cs) <-> Forall utf8_valid cs.
Proof.
  induction cs as [|c cs IH]; [split; constructor|]. cbn [join]. split.
  - intros H. inversion H as [|? ? code units Hd Hv]; subst.
    assert (units = 1%nat)
      by (unfold decode_utf8 in Hd; simpl in Hd; congruence).
    subst units. cbn [skipn] in Hv.
    apply utf8_valid_split in Hv; [|apply join_head_not_cont].
    destruct Hv as [H1 H2]. constructor; [exact H1|now apply IH].
  - intros H. inversion H; subst.
    change (47 :: c ++ join cs) with ([47] ++ c ++ join cs).
    apply utf8_valid_app; [apply utf8_valid_sep|].
    apply utf8_valid_app; [assumption|now apply IH].
Qed.

Lemma utf8_valid_unsplit (cs : list (list u8)) :
  cs <> [] -> (utf8_valid (unsplit cs) <-> Forall utf8_valid cs).
Proof.
  intros Hne. destruct cs as [|c cs]; [congruence|]. cbn [unsplit]. split.
  - intros H. apply utf8_valid_split in H; [|apply join_head_not_cont].
    destruct H as [H1 H2]. constructor; [exact H1|now apply utf8_valid_join].
  - intros H. inversion H; subst.
    apply utf8_valid_app; [assumption|now apply utf8_valid_join].
Qed.

(** Cutting an element at the offset the boundary finder returns keeps it
    valid. *)
Lemma limit_cut_valid (c r : list u8) :
  cstring c -> utf8_valid c ->
  utf8_valid (firstn (limit_of (c ++ r) (length c) NT_MAX_FILENAME_LENGTH) c).
Proof.
  intros Hc Hv.
  destruct (le_lt_dec NT_MAX_FILENAME_LENGTH (length c)) as [Hl|Hl].
  - pose proof (limit_of_le (c ++ r) (length c) NT_MAX_FILENAME_LENGTH) as Hb.
    assert (B : boundary (c ++ r)
                  (limit_of (c ++ r) (length c) NT_MAX_FILENAME_LENGTH)).
    { apply (limit_scan_boundary (c ++ r) (length c) NT_MAX_FILENAME_LENGTH);
        [rewrite length_app; lia|exact Hl|apply limit_of_eq]. }
    apply boundary_valid in B. rewrite firstn_app in B.
    replace (_ - length c)%nat with O in B by lia.
    now rewrite firstn_O, app_nil_r in B.
  - unfold limit_of. rewrite limit_no_truncation;
      [now rewrite firstn_all|exact Hl|now apply cstring_head_nonzero].
Qed.

(** The last element stays valid when it is not spliced, and when the
    bytes kept in front of the extension and the bytes of the extension
    are valid each. *)
Lemma gen_last_valid (ue : bool) (el : nat) (c c' : list u8) :
  cstring c -> utf8_valid c -> gen_last ue el c = inl c' ->
  ue = false \/ length c' = length c
  \/ (utf8_valid (firstn (limit_of c (length c) NT_MAX_FILENAME_LENGTH - el) c)
      /\ utf8_valid (skipn (length c - el) c)) ->
  utf8_valid c'.
Proof.
  intros Hc Hv. unfold gen_last.
  pose proof (limit_of_le c (length c) NT_MAX_FILENAME_LENGTH) as Hb.
  pose proof (limit_cut_valid c [] Hc Hv) as Hcut. rewrite app_nil_r in Hcut.
  set (b := limit_of c (length c) NT_MAX_FILENAME_LENGTH) in *.
  destruct (b <? length c)%nat eqn:E;
    [|intros H _; inversion H; now subst].
  apply Nat.ltb_lt in E. destruct ue.
  - destruct (b <=? el)%nat eqn:E'; [discriminate|]. apply Nat.leb_gt in E'.
    intros H [Hu|[Hlen|[Hbase Hext]]]; [discriminate| |]; inversion H; subst c'.
    + rewrite length_app, length_firstn, length_skipn in Hlen. lia.
    + now apply utf8_valid_app.
  - intros H _. inversion H; now subst.
Qed.

Lemma gen_elems_valid (ue : bool) (el : nat) :
  forall cs r, cs <> [] -> Forall cstring cs -> Forall utf8_valid cs ->
  gen_elems ue el cs = inl r ->
  ue = false \/ length (last r []) = length (last cs [])
  \/ (utf8_valid (firstn (limit_of (last cs []) (length (last cs []))
                                   NT_MAX_FILENAME_LENGTH - el) (last cs []))
      /\ utf8_valid (skipn (length (last cs []) - el) (last cs []))) ->
  Forall utf8_valid r.
Proof.
  induction cs as [|c cs IH]; intros r Hne Hc Hv; [congruence|].
  inversion Hc; subst. inversion Hv; subst.
  destruct cs as [|d ds].
  - cbn [gen_elems last]. destruct (gen_last ue el c) as [c'|e] eqn:E;
      [|discriminate].
    intros H Hu. inversion H; subst r. cbn [last] in Hu.
    constructor; [|constructor]. now apply (gen_last_valid ue el c c').
  - change (gen_elems ue el (c :: d :: ds))
      with (match gen_elems ue el (d :: ds) with
            | inl r => inl (firstn (limit_of (c ++ join (d :: ds)) (length c)
                                             NT_MAX_FILENAME_LENGTH) c :: r)
            | inr e => inr e
            end).
    destruct (gen_elems ue el (d :: ds)) as [r'|e] eqn:E; [|discriminate].
    intros H Hu. inversion H; subst r.
    destruct (gen_elems_props ue el (d :: ds) r' ltac:(discriminate) E)
      as (P1 & _).
    constructor; [now apply limit_cut_valid|].
    apply (IH r'); auto; [discriminate|].
    destruct r' as [|x r']; [simpl in P1; discriminate|]. exact Hu.
Qed.

Lemma gen_components_valid (ue : bool) (el : nat) (cs r : list (list u8)) :
  cs <> [] -> Forall cstring cs -> Forall utf8_valid cs ->
  gen_components ue el cs = inl r ->
  ue = false \/ length (last r []) = length (last cs [])
  \/ (utf8_valid (firstn (limit_of (last cs []) (length (last cs []))
                                   NT_MAX_FILENAME_LENGTH - el) (last cs []))
      /\ utf8_valid (skipn (length (last cs []) - el) (last cs []))) ->
  Forall utf8_valid r.
Proof.
  intros Hne Hc Hv. destruct cs as [|c0 cs]; [congruence|].
  inversion Hc; subst. inversion Hv; subst.
  destruct cs as [|d ds].
  - cbn [gen_components last]. destruct (gen_last ue el c0) as [c'|e] eqn:E;
      [|discriminate].
    intros H Hu. inversion H; subst r. cbn [last] in Hu.
    constructor; [|constructor]. now apply (gen_last_valid ue el c0 c').
  - change (gen_components ue el (c0 :: d :: ds))
      with (match gen_elems ue el (d :: ds) with
            | inl r => inl (c0 :: r)
            | inr e => inr e
            end).
    destruct (gen_elems ue el (d :: ds)) as [r'|e] eqn:E; [|discriminate].
    intros H Hu. inversion H; subst r.
    destruct (gen_elems_props ue el (d :: ds) r' ltac:(discriminate) E)
      as (P1 & _).
    constructor; [assumption|].
    apply (gen_elems_valid ue el (d :: ds) r'); auto; [discriminate|].
    destruct r' as [|x r']; [simpl in P1; discriminate|]. exact Hu.
Qed.

(** ** Claims about UTF-8 safety *)

Lemma utf8_validb_sound (fuel : nat) :
  forall s, utf8_validb fuel s = true -> utf8_valid s.
Proof.
  induction fuel as [|fuel IH]; intros s; destruct s as [|x t]; simpl;
    try constructor; try discriminate.
  destruct (decode_utf8 (x :: t)) as [[c u]|] eqn:Hd; [|discriminate].
  intros H. apply (utf8_valid_seq x t c u Hd). now apply IH.
Qed.

Lemma utf8_validb_complete (s : list u8) :
  utf8_valid s -> forall fuel, (length s <= fuel)%nat ->
  utf8_validb fuel s = true.
Proof.
  induction 1 as [|x t c u Hd Hv IH]; intros fuel Hf;
    [destruct fuel; reflexivity|].
  destruct fuel as [|fuel]; [simpl in Hf; lia|].
  cbn [utf8_validb]. rewrite Hd. apply IH.
  pose proof (decode_units _ _ _ Hd). rewrite length_skipn.
  cbn [length] in *. lia.
Qed.

(** C1 (as stated, refuted): for the file name made of the letter a and
    the lone lead byte C3 the call succeeds and returns these two bytes,
    which end inside a two-byte sequence and are not valid UTF-8. *)
Lemma generate_invalid_output_cex :
  utilsGeneratePath FS_MAX_PATH_NX None (Some [97; 195]) None
  = Some (Path [97; 195])
  /\ ~ utf8_valid [97; 195].
Proof.
  split; [reflexivity|]. intros H.
  apply utf8_validb_complete with (fuel := 2%nat) in H; [|simpl; lia].
  vm_compute in H. discriminate.
Qed.

(** With an extension of odd length the splice into the truncated last
    element cuts a two-byte sequence of a valid input in two. *)
Lemma generate_splice_splits_sequence :
  utf8_valid (gen_concat None (Some str_dot_tx) str_eacute_200)
  /\ exists out,
       utilsGeneratePath FS_MAX_PATH_NX None (Some str_eacute_200)
                         (Some str_dot_tx) = Some (Path out)
       /\ out = concat (repeat [195; 169] 125) ++ [195] ++ str_dot_tx
       /\ ~ utf8_valid out.
Proof.
  split.
  - apply (utf8_validb_sound 500). vm_compute. reflexivity.
  - eexists. split; [vm_compute; reflexivity|]. split; [vm_compute; reflexivity|].
    intros H. apply utf8_validb_complete with (fuel := 300%nat) in H.
    + vm_compute in H. discriminate.
    + apply Nat.leb_le. vm_compute. reflexivity.
Qed.

(** C1 (amended): the filter always produces valid UTF-8, and stops
    exactly at the first sequence the decoder rejects: what follows a valid
    prefix and starts with a rejected sequence leaves no byte in the
    output.  [utilsGeneratePath] does not validate its input; when the
    concatenated path is valid UTF-8 the path returned is valid UTF-8 in
    each of these cases: there is no extension; the last element was not
    shortened; the extension is valid UTF-8 and so are the bytes of the
    last element kept in front of it, its first last_cp_pos -
    extension_len bytes (the cut does not fall inside a sequence). *)
Theorem outputs_valid_utf8 :
  (forall s ascii_only,
     exists out,
       utilsReplaceIllegalCharacters s ascii_only = Some out
       /\ utf8_valid out
       /\ (forall v r, s = v ++ r -> utf8_valid v -> decode_utf8 r = None ->
           utilsReplaceIllegalCharacters v ascii_only = Some out))
  /\ (forall FS_MAX_PATH prefix filename extension out,
        utilsGeneratePath FS_MAX_PATH prefix filename extension
        = Some (Path out) ->
        cstring (gen_concat prefix extension (bytes_of filename)) ->
        utf8_valid (gen_concat prefix extension (bytes_of filename)) ->
        nonempty_str extension = false
        \/ length (last_elem out)
           = length (last_elem (gen_concat prefix extension
                                           (bytes_of filename)))
        \/ (utf8_valid (bytes_of extension)
            /\ utf8_valid
                 (firstn
                    (limit_of
                       (last_elem (gen_concat prefix extension
                                              (bytes_of filename)))
                       (length (last_elem (gen_concat prefix extension
                                                      (bytes_of filename))))
                       NT_MAX_FILENAME_LENGTH
                     - length (bytes_of extension))
                    (last_elem (gen_concat prefix extension
                                           (bytes_of filename))))) ->
        utf8_valid out).
Proof.
  split.
  - intros s ao. exists (filtered (length s) ao s).
    split; [apply replace_is_filtered|]. split; [apply filtered_valid|].
    intros v r -> Hv Hr. rewrite replace_is_filtered. f_equal.
    symmetry. now apply filtered_stops.
  - intros FS prefix filename extension out H Hc Hv Hu.
    destruct (generate_success_inv _ _ _ _ _ H)
      as (Hf & comps & E & Eo & Hl & Es & Hne).
    set (P := gen_concat prefix extension (bytes_of filename)) in *.
    rewrite Eo. apply utf8_valid_unsplit; [exact Hne|].
    eapply (gen_components_valid _ _ (split_sep P) comps);
      [apply split_sep_nonnil|now apply cstring_split| |exact E|].
    + apply utf8_valid_unsplit; [apply split_sep_nonnil|].
      destruct (split_sep_unsplit P) as [U _]. now rewrite U.
    + destruct (nonempty_str extension) eqn:He; [|now left].
      destruct Hu as [Hu|[Hu|[Hext Hbase]]]; [discriminate| |].
      { unfold last_elem in Hu. rewrite Es in Hu. right. now left. }
      fold (last_elem P). set (c := last_elem P) in *.
      destruct (Nat.eq_dec (length (last comps [])) (length c)) as [Q|Q];
        [right; now left|].
      right. right. split; [exact Hbase|].
      destruct (gen_components_props _ _ _ _ (split_sep_nonnil P) E)
        as (_ & _ & _ & _ & _ & P6).
      fold (last_elem P) in P6. fold c in P6. unfold gen_last in P6.
      set (b := limit_of c (length c) NT_MAX_FILENAME_LENGTH) in *.
      set (el := length (bytes_of extension)) in *.
      destruct (b <? length c)%nat eqn:E1;
        [|inversion P6 as [R]; rewrite <- R in Q; congruence].
      apply Nat.ltb_lt in E1.
      destruct (b <=? el)%nat eqn:E2; [discriminate|]. apply Nat.leb_gt in E2.
      destruct (path_last_elem P) as [Y' HP]. fold c in HP.
      destruct (gen_concat_extension prefix extension (bytes_of filename) He)
        as [Z HZ]. fold P in HZ.
      assert (S1 : skipn (length c - el) c = bytes_of extension)
        by (apply (suffix_of_suffix Y' c Z);
            [now rewrite <- HP|unfold el in *; lia]).
      change (utf8_valid (skipn (length c - el) c)). now rewrite S1.
Qed.

Lemma outputs_valid_utf8_witness :
  (exists out,
     utilsReplaceIllegalCharacters str_malformed false = Some out
     /\ utf8_valid out
     /\ (forall v r, str_malformed = v ++ r -> utf8_valid v ->
         decode_utf8 r = None ->
         utilsReplaceIllegalCharacters v false = Some out))
  /\ utf8_valid scenario_out.
Proof.
  split.
  - apply (proj1 outputs_valid_utf8 str_malformed false).
  - apply (proj2 outputs_valid_utf8 FS_MAX_PATH_NX (Some scenario_prefix)
                 (Some scenario_name) (Some scenario_ext) scenario_out).
    + vm_compute. reflexivity.
    + vm_compute. reflexivity.
    + apply (utf8_validb_sound 400). vm_compute. reflexivity.
    + right. right.
      split; apply (utf8_validb_sound 400); vm_compute; reflexivity.
Defined.

(** ** Further properties of the filter *)

Lemma rd_range (s : list Z) (i : nat) : cstring s -> 0 <= rd s i < 256.
Proof.
  intros Hs. destruct (le_lt_dec (length s) i) as [H|H].
  - rewrite rd_past by assumption. lia.
  - pose proof (cstring_rd s i Hs H). lia.
Qed.

Lemma decode_shape (l : list Z) (c : Z) (u : nat) :
  (forall i, 0 <= rd l i < 256) ->
  decode_utf8 l = Some (c, u) ->
  (u = 1%nat /\ c = rd l 0 /\ rd l 0 < 0x80)
  \/ ((2 <= u)%nat /\ 0xC2 <= rd l 0 /\ 0x80 <= c).
Proof.
  intros R. unfold decode_utf8.
  pose proof (R 0%nat) as R0. pose proof (R 1%nat) as R1.
  pose proof (R 2%nat) as R2. pose proof (R 3%nat) as R3.
  rewrite !is_cont_range by assumption.
  rewrite !Z.shiftl_mul_pow2 by lia.
  generalize dependent (rd l 0). generalize dependent (rd l 1).
  generalize dependent (rd l 2). generalize dependent (rd l 3).
  intros b4 R4 b3 R3 b2 R2 b1 R1 H.
  repeat match type of H with
         | context [?a <? ?b] => destruct (Z.ltb_spec a b); try lia
         | context [?a <=? ?b] => destruct (Z.leb_spec a b); try lia
         | context [?a =? ?b] => destruct (Z.eqb_spec a b); try lia
         end; cbn in H; try discriminate; inversion H; subst; lia.
Qed.

Lemma memchr_illegal_false (c : Z) :
  0 <= c < 256 -> memchr_illegal c = false -> ~ In c g_illegalFileSystemChars.
Proof.
  intros Hc H Hin. unfold memchr_illegal in H.
  assert (E : existsb (fun ch => ch =? c mod 256) g_illegalFileSystemChars = true).
  { apply existsb_exists. exists c. split; [exact Hin|].
    rewrite Z.mod_small by lia. apply Z.eqb_refl. }
  congruence.
Qed.

Lemma reserved_below_128 (b : Z) : In b g_illegalFileSystemChars -> b < 128.
Proof. unfold g_illegalFileSystemChars. simpl. intros H. intuition lia. Qed.

(** The bytes of a legal decoded sequence are legal bytes. *)
Lemma legal_sequence_bytes (ao : bool) (s : list Z) (c : Z) (u : nat) :
  cstring s -> s <> [] -> decode_utf8 s = Some (c, u) ->
  illegal ao c = false -> Forall (legal_byte ao) (firstn u s).
Proof.
  intros Hs Hne Hd Hi.
  pose proof (decode_len _ _ _ Hd Hne) as Hl.
  destruct (decode_shape s c u (fun i => rd_range s i Hs) Hd)
    as [(-> & Hc & Hlt)|(Hu & Hlead & Hc)].
  - destruct s as [|x t]; [congruence|]. unfold rd in Hc, Hlt. simpl in Hc, Hlt.
    subst c. cbn [firstn]. constructor; [|constructor].
    apply cstring_cons in Hs. destruct Hs as [Hx _].
    unfold illegal in Hi. apply orb_false_iff in Hi. destruct Hi as [Hi H4].
    apply orb_false_iff in Hi. destruct Hi as [Hi H3].
    apply orb_false_iff in Hi. destruct Hi as [H1 H2].
    apply Z.ltb_ge in H2. split; [lia|]. split.
    + apply memchr_illegal_false; [lia|exact H1].
    + destruct ao; simpl in H3, H4.
      * apply Z.leb_gt in H4. lia.
      * apply Z.eqb_neq in H3. exact H3.
  - assert (Hao : ao = false).
    { destruct ao; [|reflexivity]. unfold illegal in Hi.
      replace (127 <=? c) with true in Hi by (symmetry; apply Z.leb_le; lia).
      simpl in Hi. now rewrite !orb_true_r in Hi. }
    subst ao. apply Forall_forall. intros b Hb.
    apply (In_nth _ _ 0) in Hb. destruct Hb as (i & Hi' & Hb).
    rewrite length_firstn in Hi'.
    assert (Hbi : b = rd s i).
    { rewrite <- Hb. unfold rd. rewrite <- (firstn_skipn u s) at 2.
      rewrite app_nth1 by (rewrite length_firstn; lia). reflexivity. }
    assert (Hge : 0x80 <= b < 256).
    { pose proof (rd_range s i Hs) as Hr. rewrite <- Hbi in Hr.
      destruct i as [|i]; [subst b; lia|].
      assert (Hcnt : is_cont (rd s (S i)) = true)
        by (apply (decode_cont _ _ _ _ Hd); lia).
      rewrite <- Hbi in Hcnt. rewrite is_cont_range in Hcnt by lia.
      apply andb_true_iff in Hcnt. destruct Hcnt as [Hcnt _].
      apply Z.leb_le in Hcnt. lia. }
    split; [lia|]. split; [|lia].
    intros Hin. apply reserved_below_128 in Hin. lia.
Qed.

Lemma filtered_legal_bytes (ao : bool) :
  forall fuel s, cstring s -> Forall (legal_byte ao) (filtered fuel ao s).
Proof.
  induction fuel as [|fuel IH]; intros s Hs; simpl; [constructor|].
  destruct s as [|x t]; [constructor|].
  destruct (decode_utf8 (x :: t)) as [[c u]|] eqn:Hd; [|constructor].
  apply Forall_app. split; [|apply IH, cstring_skipn, Hs].
  destruct (illegal ao c) eqn:Hi.
  - constructor; [|constructor]. unfold legal_byte, g_illegalFileSystemChars.
    split; [lia|]. split; [simpl; intuition lia|destruct ao; lia].
  - apply (legal_sequence_bytes ao (x :: t) c u); auto. discriminate.
Qed.

(** X1: for a C string, no byte of the output of
    utilsReplaceIllegalCharacters is a control byte, one of the reserved
    characters or DEL; with ascii_only every byte of the output is
    printable ASCII (0x20 to 0x7E). *)
Theorem replace_output_legal_bytes (s out : list Z) (ascii_only : bool) :
  cstring s ->
  utilsReplaceIllegalCharacters s ascii_only = Some out ->
  Forall (legal_byte ascii_only) out.
Proof.
  intros Hs H. rewrite replace_is_filtered in H. inversion H; subst out.
  now apply filtered_legal_bytes.
Qed.

Lemma replace_output_legal_bytes_witness :
  Forall (legal_byte false) str_reserved_out.
Proof.
  apply (replace_output_legal_bytes str_reserved str_reserved_out false);
    reflexivity.
Defined.

(** On ASCII input the filter is a bytewise map. *)
Lemma filtered_ascii (ao : bool) :
  forall s fuel, Forall (fun b => 0 < b < 128) s -> (length s <= fuel)%nat ->
  filtered fuel ao s = map (fun b => if illegal ao b then 95 else b) s.
Proof.
  induction s as [|x t IH]; intros fuel Hs Hf; [destruct fuel; reflexivity|].
  destruct fuel as [|fuel]; [simpl in Hf; lia|].
  inversion Hs as [|? ? Hx Ht]; subst.
  assert (Hd : decode_utf8 (x :: t) = Some (x, 1%nat)).
  { unfold decode_utf8, rd. simpl.
    replace (x <? 128) with true by (symmetry; apply Z.ltb_lt; lia).
    reflexivity. }
  cbn [filtered]. rewrite Hd. cbn [firstn skipn map].
  rewrite IH by (auto; simpl in Hf; lia).
  destruct (illegal ao x); reflexivity.
Qed.

(** X2: on a string of ASCII bytes utilsReplaceIllegalCharacters works
    byte by byte: every illegal byte becomes an underscore, every other
    byte stays, and the length is kept. *)
Theorem replace_ascii_bytewise (s : list Z) (ascii_only : bool) :
  Forall (fun b => 0 < b < 128) s ->
  utilsReplaceIllegalCharacters s ascii_only
  = Some (map (fun b => if illegal ascii_only b then 95 else b) s).
Proof.
  intros Hs. rewrite replace_is_filtered. f_equal. now apply filtered_ascii.
Qed.

Lemma replace_ascii_bytewise_witness :
  utilsReplaceIllegalCharacters str_reserved_ascii true
  = Some (map (fun b => if illegal true b then 95 else b) str_reserved_ascii).
Proof.
  apply (replace_ascii_bytewise str_reserved_ascii true).
  repeat constructor; lia.
Defined.

(** X3: the string utilsReplaceIllegalCharacters leaves in place is never
    longer than the input, whatever the bytes: the edit stays inside the
    original buffer. *)
Theorem replace_never_grows (s out : list Z) (ascii_only : bool) :
  utilsReplaceIllegalCharacters s ascii_only = Some out ->
  (length out <= length s)%nat.
Proof.
  intros H. rewrite replace_is_filtered in H. inversion H.
  apply filtered_length.
Qed.

Lemma replace_never_grows_witness :
  (length str_reserved_out <= length str_reserved)%nat.
Proof.
  apply (replace_never_grows str_reserved str_reserved_out false).
  reflexivity.
Defined.

(** X4: the reserved characters are searched with memchr, which looks
    at the low byte of the code point only: a code point of any size whose
    low byte is that of a reserved character is replaced by an underscore,
    also without ascii_only. *)
Theorem replace_low_byte_collision (s : list Z) (c : Z) (u : nat)
    (ascii_only : bool) :
  s <> [] -> decode_utf8 s = Some (c, u) ->
  In (c mod 256) g_illegalFileSystemChars ->
  exists rest,
    utilsReplaceIllegalCharacters (skipn u s) ascii_only = Some rest
    /\ utilsReplaceIllegalCharacters s ascii_only = Some (95 :: rest).
Proof.
  intros Hne Hd Hin. rewrite !replace_is_filtered.
  exists (filtered (length (skipn u s)) ascii_only (skipn u s)).
  split; [reflexivity|]. f_equal.
  destruct s as [|x t]; [congruence|].
  change (length (x :: t)) with (S (length t)).
  rewrite (filtered_step _ _ _ c u) by (discriminate || assumption).
  assert (Hi : illegal ascii_only c = true).
  { unfold illegal, memchr_illegal.
    replace (existsb _ _) with true; [reflexivity|]. symmetry.
    apply existsb_exists. exists (c mod 256). split; [exact Hin|apply Z.eqb_refl]. }
  rewrite Hi. cbn [app]. f_equal.
  pose proof (decode_units _ _ _ Hd).
  apply filtered_fuel; rewrite length_skipn; cbn [length]; lia.
Qed.

Lemma replace_low_byte_collision_witness :
  exists rest,
    utilsReplaceIllegalCharacters (skipn 2 str_s_circumflex) false = Some rest
    /\ utilsReplaceIllegalCharacters str_s_circumflex false
       = Some (95 :: rest).
Proof.
  apply (replace_low_byte_collision str_s_circumflex 348 2 false).
  - discriminate.
  - reflexivity.
  - vm_compute. tauto.
Defined.

(** ** Further properties of the truncation boundary *)

(** After a boundary at which a sequence is accepted, the next boundary is
    the end of that sequence. *)
Lemma boundary_next (s : list Z) (p b : nat) (c : Z) (u : nat) :
  cstring s -> boundary s p -> (p < length s)%nat ->
  decode_utf8 (skipn p s) = Some (c, u) ->
  boundary s b -> (p < b)%nat -> (p + u <= b)%nat.
Proof.
  intros Hs Hp Hlt Hd Hb Hpb.
  destruct (le_lt_dec (p + u) b) as [|Hin]; [assumption|exfalso].
  apply (boundary_not_inside s b Hs Hb p c u Hlt Hd). lia.
Qed.

(** No boundary lies beyond a boundary at which decoding fails. *)
Lemma boundary_stuck (s : list Z) (p b : nat) :
  cstring s -> boundary s p -> decode_utf8 (skipn p s) = None ->
  boundary s b -> (b <= p)%nat.
Proof.
  intros Hs Hp Hd Hb.
  destruct (le_lt_dec b p) as [|Hlt]; [assumption|exfalso].
  destruct (boundary_cover s b p Hb Hlt) as (q & c & u & Bq & Lq & Dq & R1 & R2).
  destruct (Nat.eq_dec q p) as [->|Hne]; [congruence|].
  apply (boundary_not_inside s p Hs Hp q c u Lq Dq). lia.
Qed.

Lemma decode_code_nonzero (s : list Z) (p : nat) (c : Z) (u : nat) :
  cstring s -> (p < length s)%nat ->
  decode_utf8 (skipn p s) = Some (c, u) -> c <> 0.
Proof.
  intros Hs Hp Hd.
  destruct (decode_shape _ c u (fun i => rd_range _ i (cstring_skipn p s Hs)) Hd)
    as [(_ & Hc & _)|(_ & _ & Hc)]; [|lia].
  rewrite rd_skipn, Nat.add_0_r in Hc. pose proof (cstring_rd s p Hs Hp). lia.
Qed.

(** The loop returns the largest boundary below the byte limit. *)
Lemma limit_loop_maximal (s : list Z) (n : nat) :
  cstring s ->
  forall fuel cur last r,
  limit_loop fuel s (length s) n cur last = Some r ->
  boundary s cur -> (last <= cur)%nat ->
  (forall b, boundary s b -> (b <= cur)%nat -> (b < n)%nat -> (b <= last)%nat) ->
  forall b, boundary s b -> (b < n)%nat -> (b <= r)%nat.
Proof.
  intros Hs. induction fuel as [|fuel IH]; intros cur last r; [discriminate|].
  simpl. intros H Bc Hlc Hmax b Hb Hbn.
  destruct ((cur <? length s)%nat && (cur <? n)%nat) eqn:Hc.
  - apply andb_true_iff in Hc. destruct Hc as [Hc1 Hc2].
    apply Nat.ltb_lt in Hc1, Hc2.
    destruct (decode_utf8 (skipn cur s)) as [[c u]|] eqn:Hd.
    + pose proof (decode_code_nonzero s cur c u Hs Hc1 Hd) as Hnz.
      pose proof (decode_at_len s cur c u Hc1 Hd) as Hle.
      pose proof (decode_units _ _ _ Hd) as Hu.
      apply Z.eqb_neq in Hnz. rewrite Hnz in H.
      replace (length s <? cur + u)%nat with false in H
        by (symmetry; apply Nat.ltb_ge; lia).
      simpl in H.
      assert (Bn : boundary s (cur + u)) by (eapply boundary_step; eauto).
      apply (IH _ _ _ H Bn); auto.
      * destruct (cur + u <? n)%nat; lia.
      * intros b' Hb' Hle' Hn'.
        destruct (le_lt_dec b' cur) as [Hl|Hg].
        -- specialize (Hmax b' Hb' Hl Hn'). destruct (cur + u <? n)%nat; lia.
        -- pose proof (boundary_next s cur b' c u Hs Bc Hc1 Hd Hb' Hg).
           assert (b' = cur + u)%nat by lia. subst b'.
           apply Nat.ltb_lt in Hn'. rewrite Hn'. lia.
    + inversion H; subst r.
      pose proof (boundary_stuck s cur b Hs Bc Hd Hb). auto.
  - inversion H; subst r. apply Hmax; auto.
    apply andb_false_iff in Hc. destruct Hc as [Hc|Hc]; apply Nat.ltb_ge in Hc.
    + pose proof (boundary_le s b Hb). lia.
    + lia.
Qed.

Lemma limit_scan_maximal (s : list Z) (n r b : nat) :
  cstring s -> (n <= length s)%nat ->
  utilsGetUtf8StringLimit s (length s) n = Some r ->
  boundary s b -> (b < n)%nat -> (b <= r)%nat.
Proof.
  intros Hs Hn H Hb Hbn. unfold utilsGetUtf8StringLimit in H.
  destruct ((rd s 0 =? 0) || (length s =? 0)%nat || (n =? 0)%nat) eqn:E0.
  - apply orb_true_iff in E0. destruct E0 as [E0|E0].
    + apply orb_true_iff in E0. destruct E0 as [E0|E0].
      * apply Z.eqb_eq in E0. destruct s as [|x t]; [simpl in *; lia|].
        apply cstring_cons in Hs. unfold rd in E0. simpl in E0. lia.
      * apply Nat.eqb_eq in E0. lia.
    + apply Nat.eqb_eq in E0. lia.
  - destruct (length s <? n)%nat eqn:E1; [apply Nat.ltb_lt in E1; lia|].
    apply (limit_loop_maximal s n Hs _ _ _ _ H); auto;
      solve [constructor | intros; lia].
Qed.

(** X5: when the budget is at most the length, the offset
    utilsGetUtf8StringLimit returns is the largest code point boundary
    below the budget: no more is cut off than the budget demands. *)
Theorem limit_is_maximal (s : list Z) (n b : nat) :
  cstring s -> (n <= length s)%nat ->
  boundary s b -> (b < n)%nat ->
  exists r, utilsGetUtf8StringLimit s (length s) n = Some r /\
            boundary s r /\ (b <= r)%nat /\ (r < n)%nat.
Proof.
  intros Hs Hn Hb Hbn. destruct (limit_total s (length s) n) as [r Hr].
  exists r. split; [exact Hr|].
  split; [now apply (limit_scan_boundary s (length s) n)|].
  split; [now apply (limit_scan_maximal s n r b)|].
  pose proof (limit_bounds _ _ _ _ Hr). lia.
Qed.

Lemma limit_is_maximal_witness :
  exists r, utilsGetUtf8StringLimit str_a_eacute (length str_a_eacute) 2
            = Some r /\
            boundary str_a_eacute r /\ (1 <= r)%nat /\ (r < 2)%nat.
Proof.
  apply (limit_is_maximal str_a_eacute 2 1).
  - reflexivity.
  - simpl. lia.
  - apply (boundary_step str_a_eacute 0 97 1).
    + apply boundary_start.
    + simpl. lia.
    + reflexivity.
  - lia.
Defined.

(** X6: utilsGetUtf8StringLimit is monotone in the budget: for a C
    string, a larger budget never gives a smaller offset. *)
Theorem limit_monotone (s : list Z) (n m : nat) :
  cstring s -> (n <= m)%nat ->
  exists r1 r2,
    utilsGetUtf8StringLimit s (length s) n = Some r1 /\
    utilsGetUtf8StringLimit s (length s) m = Some r2 /\ (r1 <= r2)%nat.
Proof.
  intros Hs Hnm.
  destruct (limit_total s (length s) n) as [r1 H1].
  destruct (limit_total s (length s) m) as [r2 H2].
  exists r1, r2. split; [exact H1|]. split; [exact H2|].
  pose proof (limit_bounds _ _ _ _ H1) as [B1 B1'].
  destruct (le_lt_dec m (length s)) as [Hm|Hm].
  - destruct B1' as [->|B1']; [lia|].
    apply (limit_scan_maximal s m r2 r1 Hs Hm H2); [|lia].
    apply (limit_scan_boundary s (length s) n); auto; lia.
  - destruct s as [|x t]; [simpl in B1; lia|].
    rewrite limit_no_truncation in H2.
    + inversion H2; subst. exact B1.
    + exact Hm.
    + right. apply cstring_cons in Hs. unfold rd. simpl. lia.
Qed.

Lemma limit_monotone_witness :
  exists r1 r2,
    utilsGetUtf8StringLimit str_a_eacute (length str_a_eacute) 2 = Some r1 /\
    utilsGetUtf8StringLimit str_a_eacute (length str_a_eacute) 3 = Some r2 /\
    (r1 <= r2)%nat.
Proof.
  apply (limit_monotone str_a_eacute 2 3).
  - reflexivity.
  - lia.
Defined.

(** ** Further properties of utilsGeneratePath *)

Lemma shortened_refl (c : list Z) : shortened c c.
Proof. repeat split; auto. Qed.

Lemma shortened_firstn (b : nat) (c : list Z) : shortened c (firstn b c).
Proof.
  unfold shortened. rewrite length_firstn. split; [lia|]. split.
  - intros H. apply firstn_all2. lia.
  - apply cstring_firstn.
Qed.

Lemma gen_last_shortened (ue : bool) (el : nat) (c c' : list Z) :
  gen_last ue el c = inl c' -> shortened c c'.
Proof.
  unfold gen_last.
  set (b := limit_of c (length c) NT_MAX_FILENAME_LENGTH).
  destruct (b <? length c)%nat eqn:E;
    [|intros H; inversion H; apply shortened_refl].
  apply Nat.ltb_lt in E. destruct ue.
  - destruct (b <=? el)%nat eqn:E'; [discriminate|]. apply Nat.leb_gt in E'.
    intros H. inversion H; subst c'. unfold shortened.
    rewrite length_app, length_firstn, length_skipn.
    split; [lia|]. split; [lia|].
    intros Hc. apply cstring_app.
    split; [now apply cstring_firstn|now apply cstring_skipn].
  - intros H. inversion H. apply shortened_firstn.
Qed.

Lemma gen_elems_shortened (ue : bool) (el : nat) :
  forall cs r, gen_elems ue el cs = inl r -> Forall2 shortened cs r.
Proof.
  induction cs as [|c cs IH]; intros r.
  - simpl. intros H. inversion H. constructor.
  - destruct cs as [|d ds].
    + cbn [gen_elems]. destruct (gen_last ue el c) as [c'|e] eqn:E;
        [|discriminate].
      intros H. inversion H. constructor; [|constructor].
      now apply (gen_last_shortened ue el).
    + change (gen_elems ue el (c :: d :: ds))
        with (match gen_elems ue el (d :: ds) with
              | inl r => inl (firstn (limit_of (c ++ join (d :: ds)) (length c)
                                               NT_MAX_FILENAME_LENGTH) c :: r)
              | inr e => inr e
              end).
      destruct (gen_elems ue el (d :: ds)) as [r'|e] eqn:E; [|discriminate].
      intros H. inversion H. constructor; [apply shortened_firstn|].
      now apply IH.
Qed.

Lemma gen_components_shortened (ue : bool) (el : nat) (cs r : list (list Z)) :
  gen_components ue el cs = inl r -> Forall2 shortened cs r.
Proof.
  destruct cs as [|c0 [|d ds]].
  - simpl. intros H. inversion H. constructor.
  - cbn [gen_components]. destruct (gen_last ue el c0) as [c'|e] eqn:E;
      [|discriminate].
    intros H. inversion H. constructor; [|constructor].
    now apply (gen_last_shortened ue el).
  - change (gen_components ue el (c0 :: d :: ds))
      with (match gen_elems ue el (d :: ds) with
            | inl r => inl (c0 :: r)
            | inr e => inr e
            end).
    destruct (gen_elems ue el (d :: ds)) as [r'|e] eqn:E; [|discriminate].
    intros H. inversion H. constructor; [apply shortened_refl|].
    now apply (gen_elems_shortened ue el).
Qed.

Lemma join_shortened (cs r : list (list Z)) :
  Forall2 shortened cs r ->
  (length (join r) <= length (join cs))%nat
  /\ (length (join r) = length (join cs) -> join r = join cs)
  /\ (cstring (join cs) -> cstring (join r)).
Proof.
  induction 1 as [|c c' cs r (H1 & H2 & H3) _ (I1 & I2 & I3)];
    [repeat split; auto|].
  cbn [join length]. rewrite !length_app. split; [lia|]. split.
  - intros E. rewrite H2, I2 by lia. reflexivity.
  - intros Hc. apply cstring_cons in Hc. destruct Hc as [Hs Hc].
    apply cstring_app in Hc. destruct Hc as [Hc Hj].
    apply cstring_cons. split; [exact Hs|]. apply cstring_app. auto.
Qed.

Lemma unsplit_shortened (cs r : list (list Z)) :
  Forall2 shortened cs r ->
  (length (unsplit r) <= length (unsplit cs))%nat
  /\ (length (unsplit r) = length (unsplit cs) -> unsplit r = unsplit cs)
  /\ (cstring (unsplit cs) -> cstring (unsplit r)).
Proof.
  intros H. destruct H as [|c c' cs r (H1 & H2 & H3) HF];
    [repeat split; auto|].
  destruct (join_shortened cs r HF) as (I1 & I2 & I3).
  cbn [unsplit]. rewrite !length_app. split; [lia|]. split.
  - intros E. rewrite H2, I2 by lia. reflexivity.
  - intros Hc. apply cstring_app in Hc. destruct Hc as [Hc Hj].
    apply cstring_app. auto.
Qed.

Lemma subseq_refl (s : list Z) : subseq s s.
Proof. induction s; constructor; assumption. Qed.

Lemma subseq_app (t1 s1 t2 s2 : list Z) :
  subseq t1 s1 -> subseq t2 s2 -> subseq (t1 ++ t2) (s1 ++ s2).
Proof. induction 1; intros H2; simpl; auto; constructor; auto. Qed.

Lemma subseq_firstn (n : nat) (s : list Z) : subseq (firstn n s) s.
Proof.
  revert n. induction s as [|x s IH]; intros [|n]; simpl;
    repeat constructor; auto.
  apply (IH O).
Qed.

Lemma subseq_skipn (n : nat) (s : list Z) : subseq (skipn n s) s.
Proof.
  revert s. induction n as [|n IH]; intros s; [apply subseq_refl|].
  destruct s as [|x s]; simpl; constructor. apply IH.
Qed.

Lemma subseq_length (t s : list Z) :
  subseq t s -> (length t <= length s)%nat.
Proof. induction 1; simpl; lia. Qed.

Lemma subseq_same_length (t s : list Z) :
  subseq t s -> length t = length s -> t = s.
Proof.
  induction 1 as [|x t s H IH|x t s H IH]; simpl; intros E.
  - reflexivity.
  - f_equal. apply IH. lia.
  - apply subseq_length in H. lia.
Qed.

(** The bytes kept in front of an extension and the extension itself. *)
Lemma subseq_splice (k m : nat) (c : list Z) :
  (k <= m)%nat -> subseq (firstn k c ++ skipn m c) c.
Proof.
  intros H. rewrite <- (firstn_skipn k c) at 3.
  apply subseq_app; [apply subseq_refl|].
  replace m with ((m - k) + k)%nat by lia. rewrite <- skipn_skipn.
  apply subseq_skipn.
Qed.

Lemma gen_last_subseq (ue : bool) (el : nat) (c c' : list Z) :
  gen_last ue el c = inl c' -> subseq c' c.
Proof.
  unfold gen_last.
  set (b := limit_of c (length c) NT_MAX_FILENAME_LENGTH).
  destruct (b <? length c)%nat eqn:E;
    [|intros H; inversion H; apply subseq_refl].
  apply Nat.ltb_lt in E. destruct ue.
  - destruct (b <=? el)%nat eqn:E'; [discriminate|].
    intros H. inversion H. apply subseq_splice. lia.
  - intros H. inversion H. apply subseq_firstn.
Qed.

Lemma gen_elems_subseq (ue : bool) (el : nat) :
  forall cs r, gen_elems ue el cs = inl r ->
  Forall2 (fun c c' => subseq c' c) cs r.
Proof.
  induction cs as [|c cs IH]; intros r.
  - simpl. intros H. inversion H. constructor.
  - destruct cs as [|d ds].
    + cbn [gen_elems]. destruct (gen_last ue el c) as [c'|e] eqn:E;
        [|discriminate].
      intros H. inversion H. constructor; [|constructor].
      now apply (gen_last_subseq ue el).
    + change (gen_elems ue el (c :: d :: ds))
        with (match gen_elems ue el (d :: ds) with
              | inl r => inl (firstn (limit_of (c ++ join (d :: ds)) (length c)
                                               NT_MAX_FILENAME_LENGTH) c :: r)
              | inr e => inr e
              end).
      destruct (gen_elems ue el (d :: ds)) as [r'|e] eqn:E; [|discriminate].
      intros H. inversion H. constructor; [apply subseq_firstn|].
      now apply IH.
Qed.

Lemma gen_components_subseq (ue : bool) (el : nat) (cs r : list (list Z)) :
  gen_components ue el cs = inl r ->
  Forall2 (fun c c' => subseq c' c) cs r.
Proof.
  destruct cs as [|c0 [|d ds]].
  - simpl. intros H. inversion H. constructor.
  - cbn [gen_components]. destruct (gen_last ue el c0) as [c'|e] eqn:E;
      [|discriminate].
    intros H. inversion H. constructor; [|constructor].
    now apply (gen_last_subseq ue el).
  - change (gen_components ue el (c0 :: d :: ds))
      with (match gen_elems ue el (d :: ds) with
            | inl r => inl (c0 :: r)
            | inr e => inr e
            end).
    destruct (gen_elems ue el (d :: ds)) as [r'|e] eqn:E; [|discriminate].
    intros H. inversion H. constructor; [apply subseq_refl|].
    now apply (gen_elems_subseq ue el).
Qed.

Lemma join_subseq (cs r : list (list Z)) :
  Forall2 (fun c c' => subseq c' c) cs r -> subseq (join r) (join cs).
Proof.
  induction 1 as [|c c' cs r H _ IH]; [constructor|].
  cbn [join]. constructor. now apply subseq_app.
Qed.

Lemma unsplit_subseq (cs r : list (list Z)) :
  Forall2 (fun c c' => subseq c' c) cs r -> subseq (unsplit r) (unsplit cs).
Proof.
  intros H. destruct H as [|c c' cs r H HF]; [constructor|].
  cbn [unsplit]. apply subseq_app; [exact H|now apply join_subseq].
Qed.

(** X7: utilsGeneratePath only ever removes bytes.  The path it returns is
    the concatenation of prefix, separator, file name and extension with
    some bytes removed, the others in their order; it has as many elements
    as the concatenation, and each element is the element at its place with
    some bytes removed, so no separator is removed or added; it is never
    longer than the concatenation, and when it has its length it is the
    concatenation. *)
Theorem generate_only_shortens (FS_MAX_PATH : nat)
    (prefix filename extension : option (list Z)) (out : list Z) :
  utilsGeneratePath FS_MAX_PATH prefix filename extension = Some (Path out) ->
  subseq out (gen_concat prefix extension (bytes_of filename))
  /\ Forall2 (fun c c' => subseq c' c)
             (split_sep (gen_concat prefix extension (bytes_of filename)))
             (split_sep out)
  /\ (length out
      <= length (gen_concat prefix extension (bytes_of filename)))%nat
  /\ (length out = length (gen_concat prefix extension (bytes_of filename))
      -> out = gen_concat prefix extension (bytes_of filename)).
Proof.
  intros H.
  destruct (generate_success_inv _ _ _ _ _ H)
    as (Hf & comps & E & Eo & Hl & Es & Hne).
  set (P := gen_concat prefix extension (bytes_of filename)) in *.
  pose proof (gen_components_subseq _ _ _ _ E) as F.
  assert (S : subseq out P).
  { destruct (split_sep_unsplit P) as [U _]. rewrite <- U, Eo.
    now apply unsplit_subseq. }
  split; [exact S|]. split; [now rewrite Es|].
  split; [now apply subseq_length|now apply subseq_same_length].
Qed.

Lemma generate_only_shortens_witness :
  subseq scenario_out
         (gen_concat (Some scenario_prefix) (Some scenario_ext)
                     (bytes_of (Some scenario_name)))
  /\ Forall2 (fun c c' => subseq c' c)
             (split_sep (gen_concat (Some scenario_prefix) (Some scenario_ext)
                                    (bytes_of (Some scenario_name))))
             (split_sep scenario_out)
  /\ (length scenario_out
      <= length (gen_concat (Some scenario_prefix) (Some scenario_ext)
                            (bytes_of (Some scenario_name))))%nat
  /\ (length scenario_out
      = length (gen_concat (Some scenario_prefix) (Some scenario_ext)
                           (bytes_of (Some scenario_name)))
      -> scenario_out
         = gen_concat (Some scenario_prefix) (Some scenario_ext)
                      (bytes_of (Some scenario_name))).
Proof.
  apply (generate_only_shortens FS_MAX_PATH_NX (Some scenario_prefix)
           (Some scenario_name) (Some scenario_ext) scenario_out).
  vm_compute. reflexivity.
Defined.

(** X8: a path utilsGeneratePath returned for C strings is a fixed
    point: given back as the file name, without prefix and extension, it
    is returned unchanged. *)
Theorem generate_fixed_point (FS_MAX_PATH : nat)
    (prefix filename extension : option (list Z)) (out : list Z) :
  utilsGeneratePath FS_MAX_PATH prefix filename extension = Some (Path out) ->
  cstring (gen_concat prefix extension (bytes_of filename)) ->
  out <> [] ->
  utilsGeneratePath FS_MAX_PATH None (Some out) None = Some (Path out).
Proof.
  intros H Hc Hne.
  destruct (generate_success_inv _ _ _ _ _ H)
    as (Hf & comps & E & Eo & Hl & Es & Hcne).
  set (P := gen_concat prefix extension (bytes_of filename)) in *.
  destruct (gen_components_props _ _ _ _ (split_sep_nonnil P) E)
    as (_ & _ & P3 & P4 & _).
  pose proof (gen_components_shortened _ _ _ _ E) as Sh.
  apply unsplit_shortened in Sh. destruct Sh as (_ & _ & Sc).
  destruct (split_sep_unsplit P) as [U _]. rewrite U, <- Eo in Sc.
  specialize (Sc Hc).
  assert (Hn : nonempty_str (Some out) = true).
  { destruct out as [|x t]; [congruence|]. apply cstring_cons in Sc.
    unfold nonempty_str, rd. simpl. apply negb_true_iff, Z.eqb_neq. lia. }
  rewrite (generate_outcome _ _ _ _ Hn). unfold gen_outcome. cbv zeta.
  assert (Ec : gen_concat None None (bytes_of (Some out)) = out).
  { unfold gen_concat. simpl. apply app_nil_r. }
  rewrite Ec. cbn [nonempty_str].
  rewrite gen_components_short; [| exact Sc |].
  - destruct (split_sep_unsplit out) as [U' _]. rewrite U'.
    apply Nat.leb_gt in Hl. now rewrite Hl.
  - unfold checked_elems. rewrite Es.
    destruct comps as [|c0 [|d ds]]; [constructor| |exact P3].
    constructor; [|constructor]. apply P4. reflexivity.
Qed.

Lemma generate_fixed_point_witness :
  utilsGeneratePath FS_MAX_PATH_NX None (Some scenario_out) None
  = Some (Path scenario_out).
Proof.
  apply (generate_fixed_point FS_MAX_PATH_NX (Some scenario_prefix)
           (Some scenario_name) (Some scenario_ext) scenario_out).
  - vm_compute. reflexivity.
  - vm_compute. reflexivity.
  - discriminate.
Defined.

(** ** Properties of utilsTrimString *)

Lemma trim_end_loop_spec (str : list Z) :
  forall fuel e, 0 <= e <= Z.of_nat (length str) -> (Z.to_nat e < fuel)%nat ->
  exists e', trim_end_loop fuel str e = Some e' /\ -1 <= e' < e
    /\ all_space (skipn (Z.to_nat (e' + 1)) (firstn (Z.to_nat e) str))
    /\ (0 <= e' -> isspace (rd str (Z.to_nat e')) = false).
Proof.
  induction fuel as [|fuel IH]; intros e He Hf; [lia|]. simpl.
  destruct (0 <=? e - 1) eqn:E0.
  - apply Z.leb_le in E0.
    destruct (isspace (rd str (Z.to_nat (e - 1)))) eqn:Es; simpl.
    + destruct (IH (e - 1)) as (e' & R1 & R2 & R3 & R4); [lia|lia|].
      exists e'. split; [exact R1|]. split; [lia|]. split; [|exact R4].
      replace (Z.to_nat e) with (S (Z.to_nat (e - 1))) by lia.
      assert (Hlt : (Z.to_nat (e - 1) < length str)%nat) by lia.
      assert (F : firstn (S (Z.to_nat (e - 1))) str
                  = firstn (Z.to_nat (e - 1)) str ++ [rd str (Z.to_nat (e - 1))]).
      { replace (S (Z.to_nat (e - 1))) with (Z.to_nat (e - 1) + 1)%nat by lia.
        rewrite firstn_plus. f_equal.
        destruct (skipn (Z.to_nat (e - 1)) str) as [|x t] eqn:Ek.
        - apply (f_equal (@length _)) in Ek. rewrite length_skipn in Ek.
          simpl in Ek. lia.
        - rewrite <- (Nat.add_0_r (Z.to_nat (e - 1))), <- rd_skipn, Ek.
          reflexivity. }
      rewrite F, skipn_app. unfold all_space in *. rewrite forallb_app, R3.
      rewrite length_firstn.
      replace (Z.to_nat (e' + 1) - Nat.min (Z.to_nat (e - 1)) (length str))%nat
        with O by lia.
      simpl. now rewrite Es.
    + exists (e - 1). split; [reflexivity|]. split; [lia|]. split; [|auto].
      replace (Z.to_nat (e - 1 + 1)) with (Z.to_nat e) by lia.
      rewrite skipn_all2 by (rewrite length_firstn; lia). reflexivity.
  - apply Z.leb_gt in E0. exists (e - 1). split; [reflexivity|].
    split; [lia|]. split; [|lia].
    assert (e = 0) by lia. subst e. reflexivity.
Qed.

Lemma trim_start_loop_spec (str : list Z) :
  forall fuel start, (start <= length str)%nat ->
  (length str - start < fuel)%nat ->
  exists s', trim_start_loop fuel str start = Some s'
    /\ (start <= s' <= length str)%nat
    /\ all_space (firstn (s' - start) (skipn start str))
    /\ isspace (rd str s') = false.
Proof.
  induction fuel as [|fuel IH]; intros start Hs Hf; [lia|]. simpl.
  destruct (isspace (rd str start)) eqn:Es.
  - assert (Hlt : (start < length str)%nat).
    { destruct (le_lt_dec (length str) start) as [H|H]; [|exact H].
      rewrite rd_past in Es by assumption. discriminate. }
    destruct (IH (S start)) as (s' & R1 & R2 & R3 & R4); [lia|lia|].
    exists s'. split; [exact R1|]. split; [lia|]. split; [|exact R4].
    replace (s' - start)%nat with (1 + (s' - S start))%nat by lia.
    rewrite firstn_plus. unfold all_space in *. rewrite forallb_app.
    rewrite skipn_skipn. replace (1 + start)%nat with (S start) by lia.
    rewrite R3, andb_true_r.
    destruct (skipn start str) as [|x t] eqn:Ek.
    + reflexivity.
    + rewrite <- (Nat.add_0_r start), <- rd_skipn, Ek in Es.
      unfold rd in Es. simpl in Es. simpl. now rewrite Es.
  - exists start. split; [reflexivity|]. split; [lia|]. split; [|exact Es].
    now rewrite Nat.sub_diag.
Qed.

(** The function as a split of the input. *)
Lemma trim_split (s : list Z) :
  exists l out r,
    utilsTrimString s = Some out /\ s = l ++ out ++ r
    /\ all_space l /\ all_space r
    /\ isspace (hd 0 out) = false /\ isspace (last out 0) = false.
Proof.
  unfold utilsTrimString. destruct (length s =? 0)%nat eqn:E.
  { apply Nat.eqb_eq in E. destruct s; [|discriminate].
    exists [], [], []. repeat split; reflexivity. }
  apply Nat.eqb_neq in E.
  destruct (trim_end_loop_spec s (S (length s)) (Z.of_nat (length s)))
    as (e & R1 & R2 & R3 & R4); [lia|lia|].
  rewrite R1. rewrite Nat2Z.id, firstn_all in R3.
  set (e1 := Z.to_nat (e + 1)) in *.
  assert (He1 : (e1 <= length s)%nat) by lia.
  assert (Ll : length (firstn e1 s) = e1) by (rewrite length_firstn; lia).
  destruct (trim_start_loop_spec (firstn e1 s) (S e1) O)
    as (st & S1 & S2 & S3 & S4); [lia|lia|].
  rewrite S1. rewrite Ll in S2. rewrite Nat.sub_0_r in S3. cbn [skipn] in S3.
  assert (Eout : (if (st =? 0)%nat then Some (firstn e1 s)
                  else Some (firstn (e1 - st)
                               (memmove (firstn e1 s) O st (e1 - st))))
                 = Some (skipn st (firstn e1 s))).
  { destruct (st =? 0)%nat eqn:E0.
    - apply Nat.eqb_eq in E0. now subst st.
    - f_equal. unfold memmove. cbn [firstn app].
      rewrite firstn_app, firstn_firstn.
      rewrite (firstn_all2 (skipn st (firstn e1 s)))
        by (rewrite length_skipn; lia).
      rewrite length_firstn, length_skipn, Ll, Nat.min_id.
      replace (e1 - st - (e1 - st))%nat with O by lia.
      now rewrite firstn_O, app_nil_r. }
  rewrite Eout.
  exists (firstn st (firstn e1 s)), (skipn st (firstn e1 s)), (skipn e1 s).
  split; [reflexivity|]. split.
  { now rewrite app_assoc, !firstn_skipn. }
  split; [exact S3|]. split; [exact R3|]. split.
  - destruct (skipn st (firstn e1 s)) as [|x t] eqn:Ek.
    + reflexivity.
    + rewrite <- (Nat.add_0_r st), <- rd_skipn, Ek in S4. exact S4.
  - destruct (Nat.eq_dec st e1) as [->|Hne].
    + rewrite skipn_all2 by lia. reflexivity.
    + assert (He : 0 <= e) by lia.
      specialize (R4 He).
      assert (Hl : last (skipn st (firstn e1 s)) 0 = rd s (Z.to_nat e)).
      { assert (F : firstn e1 s = firstn (Z.to_nat e) s ++ [rd s (Z.to_nat e)]).
        { unfold e1. replace (Z.to_nat (e + 1)) with (Z.to_nat e + 1)%nat by lia.
          rewrite firstn_plus. f_equal.
          destruct (skipn (Z.to_nat e) s) as [|x t] eqn:Ek.
          - apply (f_equal (@length _)) in Ek. rewrite length_skipn in Ek.
            simpl in Ek. lia.
          - rewrite <- (Nat.add_0_r (Z.to_nat e)), <- rd_skipn, Ek.
            reflexivity. }
        rewrite F, skipn_app, length_firstn.
        replace (st - Nat.min (Z.to_nat e) (length s))%nat with O by lia.
        cbn [skipn]. apply last_last. }
      now rewrite Hl.
Qed.

Lemma space_is_ascii (x : Z) : isspace x = true -> 0 < x < 128.
Proof.
  unfold isspace. intros H. apply orb_true_iff in H. destruct H as [H|H].
  - apply Z.eqb_eq in H. lia.
  - apply andb_true_iff in H. destruct H as [H1 H2].
    apply Z.leb_le in H1, H2. lia.
Qed.

Lemma all_space_cons (x : Z) (l : list Z) :
  all_space (x :: l) <-> isspace x = true /\ all_space l.
Proof. unfold all_space. simpl. apply andb_true_iff. Qed.

Lemma all_space_last (l : list Z) :
  all_space l -> l <> [] -> isspace (last l 0) = true.
Proof.
  induction l as [|x t IH]; intros H Hne; [congruence|].
  apply all_space_cons in H. destruct H as [Hx Ht].
  destruct t as [|y t']; [exact Hx|]. apply IH; [exact Ht|discriminate].
Qed.

Lemma last_app_nonnil (a b : list Z) : b <> [] -> last (a ++ b) 0 = last b 0.
Proof.
  intros Hb. induction a as [|x a IH]; [reflexivity|].
  simpl. destruct (a ++ b) eqn:E; [|exact IH].
  apply app_eq_nil in E. destruct E. congruence.
Qed.

(** A string without white space at its ends is left as it is. *)
Lemma trim_fixed (s : list Z) :
  isspace (hd 0 s) = false -> isspace (last s 0) = false ->
  utilsTrimString s = Some s.
Proof.
  intros Hh Hl. destruct (trim_split s) as (l & out & r & E & Es & Sl & Sr & _).
  rewrite E. f_equal.
  assert (L : l = []).
  { destruct l as [|x l']; [reflexivity|]. apply all_space_cons in Sl.
    rewrite Es in Hh. simpl in Hh. destruct Sl. congruence. }
  assert (R : r = []).
  { destruct r as [|x r']; [reflexivity|].
    pose proof (all_space_last _ Sr ltac:(discriminate)) as H.
    rewrite Es, app_assoc, last_app_nonnil in Hl by discriminate. congruence. }
  subst l r. rewrite app_nil_r in Es. now simpl in Es.
Qed.

(** X9: utilsTrimString returns for every string, and what it leaves is
    the input without a run of white space at its start and a run of white
    space at its end; the result neither starts nor ends with white space,
    and the bytes between are untouched. *)
Theorem trim_removes_edge_space (s : list Z) :
  exists l out r,
    utilsTrimString s = Some out /\ s = l ++ out ++ r
    /\ all_space l /\ all_space r
    /\ isspace (hd 0 out) = false /\ isspace (last out 0) = false.
Proof. exact (trim_split s). Qed.

(** X10: utilsTrimString leaves a string unchanged exactly when the
    string neither starts nor ends with white space. *)
Theorem trim_unchanged_iff (s : list Z) :
  utilsTrimString s = Some s
  <-> isspace (hd 0 s) = false /\ isspace (last s 0) = false.
Proof.
  split.
  - intros H. destruct (trim_split s) as (l & out & r & E & _ & _ & _ & Hh & Hl).
    rewrite H in E. inversion E; subst out. auto.
  - intros [Hh Hl]. now apply trim_fixed.
Qed.

(** X11: utilsTrimString is idempotent: trimming its result again changes
    nothing. *)
Theorem trim_idempotent (s : list Z) :
  exists out, utilsTrimString s = Some out /\ utilsTrimString out = Some out.
Proof.
  destruct (trim_split s) as (l & out & r & E & _ & _ & _ & Hh & Hl).
  exists out. split; [exact E|]. now apply trim_fixed.
Qed.

Lemma utf8_valid_drop_space (l t : list Z) :
  all_space l -> utf8_valid (l ++ t) -> utf8_valid t.
Proof.
  induction l as [|x l IH]; intros Hs Hv; [exact Hv|].
  apply all_space_cons in Hs. destruct Hs as [Hx Hs].
  apply space_is_ascii in Hx.
  inversion Hv as [|? ? c u Hd Hr]; subst.
  assert (u = 1%nat).
  { unfold decode_utf8, rd in Hd. simpl in Hd.
    replace (x <? 128) with true in Hd by (symmetry; apply Z.ltb_lt; lia).
    congruence. }
  subst u. cbn [skipn] in Hr. auto.
Qed.

Lemma space_head_not_cont (r : list Z) :
  all_space r -> is_cont (rd r 0) = false.
Proof.
  intros H. destruct r as [|x r']; [reflexivity|].
  apply all_space_cons in H. destruct H as [Hx _].
  apply space_is_ascii in Hx. unfold rd. simpl.
  rewrite is_cont_range by lia.
  replace (128 <=? x) with false by (symmetry; apply Z.leb_gt; lia).
  reflexivity.
Qed.

(** X12: utilsTrimString works on bytes, yet it keeps a valid UTF-8 string
    valid: no white space byte is part of a multi-byte sequence. *)
Theorem trim_keeps_utf8 (s : list Z) :
  utf8_valid s ->
  exists out, utilsTrimString s = Some out /\ utf8_valid out.
Proof.
  intros Hv. destruct (trim_split s) as (l & out & r & E & Es & Sl & Sr & _).
  exists out. split; [exact E|]. rewrite Es in Hv.
  apply (utf8_valid_drop_space l) in Hv; [|exact Sl].
  apply utf8_valid_split in Hv; [tauto|]. now apply space_head_not_cont.
Qed.

Lemma trim_keeps_utf8_witness :
  exists out, utilsTrimString str_padded = Some out /\ utf8_valid out.
Proof.
  apply (trim_keeps_utf8 str_padded).
  apply (utf8_validb_sound 4). reflexivity.
Defined.

(** ** Properties of utilsGenerateHexStringFromData *)

Lemma hex_of_length (src : list Z) (up : bool) :
  length (hex_of src up) = (2 * length src)%nat.
Proof. induction src as [|b r IH]; simpl; [reflexivity|]. rewrite IH. lia. Qed.

Lemma store_app_gap (a : list Z) (x : Z) (t : list Z) (v : Z) :
  store (a ++ x :: t) (length a) v = a ++ v :: t.
Proof.
  unfold store. rewrite firstn_app, firstn_all, Nat.sub_diag, firstn_O, app_nil_r.
  f_equal. f_equal.
  rewrite skipn_app, skipn_all2 by lia.
  replace (S (length a) - length a)%nat with 1%nat by lia. reflexivity.
Qed.

Lemma hex_loop_spec (up : bool) :
  forall src pre gap post,
  length gap = (2 * length src)%nat ->
  hex_loop src (pre ++ gap ++ post) (length pre) up
  = (pre ++ hex_of src up ++ post, (length pre + 2 * length src)%nat).
Proof.
  induction src as [|b r IH]; intros pre gap post Hg.
  - destruct gap; [|discriminate]. simpl. f_equal. lia.
  - destruct gap as [|g1 [|g2 gap]]; try (simpl in Hg; lia).
    cbn [hex_loop hex_of]. cbn [app].
    rewrite store_app_gap.
    replace (S (length pre)) with (length (pre ++ [hex_char (Z.land (Z.shiftr b 4) 15) up]))
      by (rewrite length_app; simpl; lia).
    change (pre ++ ?h :: g2 :: gap ++ post)
      with (pre ++ [h] ++ g2 :: gap ++ post).
    rewrite (app_assoc pre [_]), store_app_gap.
    replace (S (length (pre ++ [hex_char (Z.land (Z.shiftr b 4) 15) up])))
      with (length ((pre ++ [hex_char (Z.land (Z.shiftr b 4) 15) up])
                    ++ [hex_char (Z.land b 15) up]))
      by (rewrite !length_app; simpl; lia).
    change ((pre ++ [?h]) ++ ?l :: gap ++ post)
      with ((pre ++ [h]) ++ [l] ++ gap ++ post).
    rewrite (app_assoc (pre ++ [_]) [_]).
    rewrite IH by (simpl in Hg; lia).
    rewrite <- !app_assoc. cbn [app]. f_equal.
    rewrite !length_app. simpl. lia.
Qed.

Lemma hex_result (dst : list Z) (dst_size : nat) (src : list Z) (up : bool) :
  src <> [] -> (2 * length src + 1 <= dst_size)%nat ->
  (dst_size <= length dst)%nat ->
  utilsGenerateHexStringFromData dst dst_size src up
  = hex_of src up ++ 0 :: skipn (2 * length src + 1) dst.
Proof.
  intros Hs Hd Hsz. unfold utilsGenerateHexStringFromData.
  replace (length src =? 0)%nat with false
    by (symmetry; apply Nat.eqb_neq; destruct src; simpl; congruence).
  replace (dst_size <? length src * 2 + 1)%nat with false
    by (symmetry; apply Nat.ltb_ge; lia).
  cbn [orb].
  assert (D : dst = [] ++ firstn (2 * length src) dst
                      ++ skipn (2 * length src) dst)
    by (simpl; now rewrite firstn_skipn).
  rewrite D at 1.
  rewrite (hex_loop_spec up src [] _ _) by (rewrite length_firstn; lia).
  cbn [app length Nat.add].
  destruct (skipn (2 * length src) dst) as [|x t] eqn:Ek.
  { apply (f_equal (@length _)) in Ek. rewrite length_skipn in Ek.
    simpl in Ek. lia. }
  rewrite <- (hex_of_length src up), store_app_gap. f_equal. f_equal.
  rewrite hex_of_length.
  replace (2 * length src + 1)%nat with (1 + 2 * length src)%nat by lia.
  rewrite <- skipn_skipn, Ek. reflexivity.
Qed.

Lemma nibble_range (x : Z) : 0 <= Z.land x 0xF < 16.
Proof.
  change 0xF with (Z.ones 4). rewrite Z.land_ones by lia.
  apply Z.mod_pos_bound. lia.
Qed.

Lemma hex_char_digit (nib : Z) (up : bool) :
  0 <= nib < 16 -> is_hex_digit up (hex_char nib up).
Proof.
  intros H. unfold hex_char, is_hex_digit.
  destruct (Z.ltb_spec nib 10); [left; lia|right; destruct up; lia].
Qed.

Lemma hex_value_char (nib : Z) (up : bool) :
  0 <= nib < 16 -> hex_value (hex_char nib up) = Some nib.
Proof.
  intros H. unfold hex_char, hex_value.
  destruct (Z.ltb_spec nib 10).
  - replace ((48 <=? nib + 48) && (nib + 48 <=? 57)) with true
      by (symmetry; apply andb_true_iff; split; apply Z.leb_le; lia).
    f_equal. lia.
  - destruct up.
    + replace ((48 <=? nib + 55) && (nib + 55 <=? 57)) with false
        by (symmetry; apply andb_false_iff; right; apply Z.leb_gt; lia).
      replace ((65 <=? nib + 55) && (nib + 55 <=? 70)) with true
        by (symmetry; apply andb_true_iff; split; apply Z.leb_le; lia).
      f_equal. lia.
    + replace ((48 <=? nib + 87) && (nib + 87 <=? 57)) with false
        by (symmetry; apply andb_false_iff; right; apply Z.leb_gt; lia).
      replace ((65 <=? nib + 87) && (nib + 87 <=? 70)) with false
        by (symmetry; apply andb_false_iff; right; apply Z.leb_gt; lia).
      replace ((97 <=? nib + 87) && (nib + 87 <=? 102)) with true
        by (symmetry; apply andb_true_iff; split; apply Z.leb_le; lia).
      f_equal. lia.
Qed.

Lemma hex_of_digits (src : list Z) (up : bool) :
  Forall (is_hex_digit up) (hex_of src up).
Proof.
  induction src as [|b r IH]; simpl; constructor; [|constructor; [|exact IH]];
    apply hex_char_digit, nibble_range.
Qed.

Lemma nibbles_of_byte (b : Z) :
  0 <= b < 256 -> 16 * Z.land (Z.shiftr b 4) 0xF + Z.land b 0xF = b.
Proof.
  intros H. change 0xF with (Z.ones 4). rewrite !Z.land_ones by lia.
  rewrite Z.shiftr_div_pow2 by lia. change (2 ^ 4) with 16.
  rewrite (Z.mod_small (b / 16)).
  - pose proof (Z.div_mod b 16). lia.
  - split; [apply Z.div_pos; lia|apply Z.div_lt_upper_bound; lia].
Qed.

Lemma hex_decode_of (src : list Z) (up : bool) :
  Forall (fun b => 0 <= b < 256) src ->
  hex_decode (hex_of src up) = Some src.
Proof.
  induction 1 as [|b r Hb Hr IH]; [reflexivity|].
  cbn [hex_of hex_decode].
  rewrite !hex_value_char by apply nibble_range.
  rewrite IH. now rewrite nibbles_of_byte.
Qed.

(** X13: with a non-empty source and a stated size that has room for two
    digits a byte and the terminator and does not exceed the array, the
    array gets the digits of the requested case, then the terminator, and
    keeps the bytes behind it: 2 * src_size + 1 bytes are written, none
    outside the stated size. *)
Theorem hex_string_layout (dst : list Z) (dst_size : nat) (src : list Z)
    (uppercase : bool) :
  src <> [] -> (2 * length src + 1 <= dst_size)%nat ->
  (dst_size <= length dst)%nat ->
  exists digits,
    utilsGenerateHexStringFromData dst dst_size src uppercase
    = digits ++ 0 :: skipn (2 * length src + 1) dst
    /\ length digits = (2 * length src)%nat
    /\ Forall (is_hex_digit uppercase) digits
    /\ length (utilsGenerateHexStringFromData dst dst_size src uppercase)
       = length dst.
Proof.
  intros Hs Hd Hsz. exists (hex_of src uppercase).
  rewrite (hex_result dst dst_size src uppercase Hs Hd Hsz).
  split; [reflexivity|]. split; [apply hex_of_length|].
  split; [apply hex_of_digits|].
  rewrite length_app, hex_of_length. cbn [length]. rewrite length_skipn. lia.
Qed.

Lemma hex_string_layout_witness :
  exists digits,
    utilsGenerateHexStringFromData hex_dst 5 hex_src true
    = digits ++ 0 :: skipn (2 * length hex_src + 1) hex_dst
    /\ length digits = (2 * length hex_src)%nat
    /\ Forall (is_hex_digit true) digits
    /\ length (utilsGenerateHexStringFromData hex_dst 5 hex_src true)
       = length hex_dst.
Proof.
  apply (hex_string_layout hex_dst 5 hex_src true).
  - discriminate.
  - simpl. lia.
  - simpl. lia.
Defined.

(** X14: the digits written read back, two digits a byte, as the source
    bytes, for either case: the hexadecimal string loses nothing. *)
Theorem hex_string_round_trip (dst : list Z) (dst_size : nat)
    (src : list Z) (uppercase : bool) :
  src <> [] -> (2 * length src + 1 <= dst_size)%nat ->
  (dst_size <= length dst)%nat ->
  Forall (fun b => 0 <= b < 256) src ->
  hex_decode
    (firstn (2 * length src)
            (utilsGenerateHexStringFromData dst dst_size src uppercase))
  = Some src.
Proof.
  intros Hs Hd Hsz Hb.
  rewrite (hex_result dst dst_size src uppercase Hs Hd Hsz).
  rewrite <- (hex_of_length src uppercase) at 1.
  rewrite <- (Nat.add_0_r (length (hex_of src uppercase))), firstn_app_2.
  rewrite firstn_O, app_nil_r. now apply hex_decode_of.
Qed.

Lemma hex_string_round_trip_witness :
  hex_decode
    (firstn (2 * length hex_src)
            (utilsGenerateHexStringFromData hex_dst 5 hex_src false))
  = Some hex_src.
Proof.
  apply (hex_string_round_trip hex_dst 5 hex_src false).
  - discriminate.
  - simpl. lia.
  - simpl. lia.
  - repeat constructor; lia.
Defined.

(** ** Properties of utilsCreateDirectoryTree *)

Lemma strchr_none_offsets (s : list Z) (base : nat) :
  strchr s 47 = None -> sep_offsets s base = [].
Proof.
  revert base. induction s as [|b r IH]; intros base; simpl; [reflexivity|].
  destruct (b =? 47); [discriminate|].
  destruct (strchr r 47); simpl; [discriminate|]. intros _. now apply IH.
Qed.

Lemma strchr_some_offsets (s : list Z) (base i : nat) :
  strchr s 47 = Some i ->
  (i < length s)%nat /\
  sep_offsets s base = (base + i)%nat :: sep_offsets (skipn (S i) s) (base + S i).
Proof.
  revert base i. induction s as [|b r IH]; intros base i; simpl; [discriminate|].
  destruct (b =? 47) eqn:E.
  - intros H. inversion H; subst. split; [lia|].
    rewrite Nat.add_0_r. f_equal. f_equal. lia.
  - destruct (strchr r 47) as [j|] eqn:Ej; simpl; [|discriminate].
    intros H. inversion H; subst.
    destruct (IH (S base) j eq_refl) as [I1 I2]. split; [lia|].
    rewrite I2. f_equal; [lia|]. f_equal. lia.
Qed.

Lemma tree_loop_spec (path : list Z) :
  forall fuel p made,
  (p <= length path)%nat -> (length path - p < fuel)%nat ->
  tree_loop fuel path
            (option_map (Nat.add p) (strchr (skipn p path) 47)) made
  = Some (made ++ map (fun i => firstn i path)
                      (sep_offsets (skipn p path) p)).
Proof.
  induction fuel as [|fuel IH]; intros p made Hp Hf; [lia|].
  destruct (strchr (skipn p path) 47) as [i|] eqn:E.
  - destruct (strchr_some_offsets _ p i E) as [Hi Ho].
    rewrite length_skipn in Hi.
    cbn [option_map tree_loop]. rewrite Ho. cbn [map].
    rewrite skipn_skipn in *.
    replace (S i + p)%nat with (S (p + i)) by lia.
    replace (p + S i)%nat with (S (p + i)) by lia.
    rewrite IH by lia. rewrite <- app_assoc. reflexivity.
  - cbn [option_map tree_loop].
    rewrite (strchr_none_offsets _ p E). cbn [map]. now rewrite app_nil_r.
Qed.

Lemma tree_calls (path : list Z) (flag : bool) :
  path <> [] ->
  utilsCreateDirectoryTree path flag
  = Some (map (fun i => firstn i path) (sep_offsets path O)
          ++ (if flag then [path] else [])).
Proof.
  intros Hne. unfold utilsCreateDirectoryTree.
  replace (length path =? 0)%nat with false
    by (symmetry; apply Nat.eqb_neq; destruct path; simpl; congruence).
  pose proof (tree_loop_spec path (S (length path)) O [] ltac:(lia) ltac:(lia))
    as H.
  cbn [skipn] in H.
  replace (option_map (Nat.add 0) (strchr path 47)) with (strchr path 47) in H
    by (destruct (strchr path 47); reflexivity).
  rewrite H. cbn [app]. destruct flag; [reflexivity|now rewrite app_nil_r].
Qed.

Lemma sep_offsets_in (s : list Z) :
  forall base i, In i (sep_offsets s base)
  <-> (base <= i < base + length s)%nat /\ rd s (i - base) = 47.
Proof.
  induction s as [|b r IH]; intros base i; simpl.
  - split; [tauto|lia].
  - assert (R : forall k, (S base <= k)%nat ->
                rd (b :: r) (k - base) = rd r (k - S base)).
    { intros k Hk. unfold rd. replace (k - base)%nat with (S (k - S base)) by lia.
      reflexivity. }
    destruct (Z.eqb_spec b 47) as [E|E].
    + simpl. rewrite IH. split.
      * intros [->|[H1 H2]].
        -- split; [lia|]. rewrite Nat.sub_diag. exact E.
        -- split; [lia|]. rewrite R by lia. exact H2.
      * intros [H1 H2]. destruct (Nat.eq_dec base i) as [|Hne]; [now left|].
        right. split; [lia|]. rewrite <- R by lia. exact H2.
    + rewrite IH. split.
      * intros [H1 H2]. split; [lia|]. rewrite R by lia. exact H2.
      * intros [H1 H2]. destruct (Nat.eq_dec base i) as [->|Hne].
        -- rewrite Nat.sub_diag in H2. unfold rd in H2. simpl in H2. congruence.
        -- split; [lia|]. rewrite <- R by lia. exact H2.
Qed.

Lemma sep_offsets_sorted (s : list Z) :
  forall base, StronglySorted lt (sep_offsets s base).
Proof.
  induction s as [|b r IH]; intros base; simpl; [constructor|].
  destruct (b =? 47); [|apply IH].
  constructor; [apply IH|]. apply Forall_forall. intros i Hi.
  apply sep_offsets_in in Hi. lia.
Qed.

Lemma prefixes_sorted (path : list Z) (l : list nat) :
  StronglySorted lt l -> Forall (fun i => (i < length path)%nat) l ->
  StronglySorted shorter (map (fun i => firstn i path) l).
Proof.
  induction 1 as [|i l Hs IH Hi]; intros Hb; [constructor|].
  inversion Hb; subst. cbn [map]. constructor; [now apply IH|].
  apply Forall_forall. intros d Hd. apply in_map_iff in Hd.
  destruct Hd as (k & <- & Hk). unfold shorter. rewrite !length_firstn.
  rewrite Forall_forall in Hi, H2. specialize (Hi k Hk). specialize (H2 k Hk).
  lia.
Qed.

Lemma sorted_snoc (l : list (list Z)) (x : list Z) :
  StronglySorted shorter l -> Forall (fun d => shorter d x) l ->
  StronglySorted shorter (l ++ [x]).
Proof.
  induction 1 as [|d l Hs IH Hd]; intros Hx; [repeat constructor|].
  inversion Hx; subst. cbn [app]. constructor; [now apply IH|].
  apply Forall_app. split; [exact Hd|]. now constructor.
Qed.

(** The calls of the function: in front of every separator, shortest
    first, then the path itself when asked for. *)
Lemma tree_calls_facts (path : list Z) (flag : bool) :
  path <> [] ->
  exists made,
    utilsCreateDirectoryTree path flag
    = Some (made ++ (if flag then [path] else []))
    /\ (forall d, In d made <->
          exists i, (i < length path)%nat /\ rd path i = 47
                    /\ d = firstn i path)
    /\ StronglySorted shorter (made ++ (if flag then [path] else [])).
Proof.
  intros Hne. exists (map (fun i => firstn i path) (sep_offsets path O)).
  split; [now apply tree_calls|].
  assert (In_made : forall d,
            In d (map (fun i => firstn i path) (sep_offsets path O)) <->
            exists i, (i < length path)%nat /\ rd path i = 47
                      /\ d = firstn i path).
  { intros d. rewrite in_map_iff. split.
    - intros (i & <- & Hi). apply sep_offsets_in in Hi.
      rewrite Nat.sub_0_r in Hi. exists i. repeat split; (lia || tauto).
    - intros (i & H1 & H2 & ->). exists i. split; [reflexivity|].
      apply sep_offsets_in. rewrite Nat.sub_0_r. split; [lia|exact H2]. }
  split; [exact In_made|].
  assert (S0 : StronglySorted shorter
                 (map (fun i => firstn i path) (sep_offsets path O))).
  { apply prefixes_sorted; [apply sep_offsets_sorted|].
    apply Forall_forall. intros i Hi. apply sep_offsets_in in Hi. lia. }
  destruct flag; [|now rewrite app_nil_r].
  apply sorted_snoc; [exact S0|]. apply Forall_forall. intros d Hd.
  apply In_made in Hd. destruct Hd as (i & H1 & _ & ->).
  unfold shorter. rewrite length_firstn. lia.
Qed.

(** X15: for a non-empty path utilsCreateDirectoryTree calls mkdir on
    exactly the prefixes of the path in front of its separators, the
    shorter before the longer, and last on the path itself when the last
    element is asked for, and on nothing else. *)
Theorem tree_creates_prefixes (path : list Z) (flag : bool) :
  path <> [] ->
  exists made,
    utilsCreateDirectoryTree path flag
    = Some (made ++ (if flag then [path] else []))
    /\ (forall d, In d made <->
          exists i, (i < length path)%nat /\ rd path i = 47
                    /\ d = firstn i path)
    /\ StronglySorted shorter (made ++ (if flag then [path] else [])).
Proof. exact (tree_calls_facts path flag). Qed.

Lemma sorted_middle (l1 l2 : list (list Z)) (d x : list Z) :
  StronglySorted shorter (l1 ++ d :: l2) -> In x (l1 ++ d :: l2) ->
  shorter x d -> In x l1.
Proof.
  induction l1 as [|a l1 IH]; cbn [app]; intros Hs Hin Hx.
  - inversion Hs as [|? ? _ Hall]; subst. destruct Hin as [->|Hin].
    + unfold shorter in Hx. lia.
    + rewrite Forall_forall in Hall. specialize (Hall x Hin).
      unfold shorter in *. lia.
  - inversion Hs as [|? ? Hs' Hall]; subst. destruct Hin as [->|Hin].
    + now left.
    + right. now apply IH.
Qed.

Lemma tree_creates_prefixes_witness :
  exists made,
    utilsCreateDirectoryTree str_a_b_c true
    = Some (made ++ (if true then [str_a_b_c] else []))
    /\ (forall d, In d made <->
          exists i, (i < length str_a_b_c)%nat /\ rd str_a_b_c i = 47
                    /\ d = firstn i str_a_b_c)
    /\ StronglySorted shorter (made ++ (if true then [str_a_b_c] else [])).
Proof.
  apply (tree_creates_prefixes str_a_b_c true). discriminate.
Defined.

(** X16: utilsCreateDirectoryTree creates a directory only after all its
    parents: every prefix of a created directory that ends in front of a
    separator was passed to mkdir earlier. *)
Theorem tree_parents_first (path : list Z) (flag : bool)
    (l1 l2 : list (list Z)) (d : list Z) (i : nat) :
  utilsCreateDirectoryTree path flag = Some (l1 ++ d :: l2) ->
  (i < length d)%nat -> rd d i = 47 -> In (firstn i d) l1.
Proof.
  intros H Hi Hr.
  destruct path as [|x t] eqn:Ep.
  { unfold utilsCreateDirectoryTree in H. simpl in H. inversion H.
    destruct l1; discriminate. }
  rewrite <- Ep in *. assert (Hne : path <> []) by (subst; discriminate).
  clear Ep x t.
  destruct (tree_calls_facts path flag Hne) as (made & E & Hin & Hs).
  rewrite E in H. inversion H as [Hc]. rewrite Hc in Hs.
  assert (Hd : exists k, (k <= length path)%nat /\ d = firstn k path).
  { assert (In d (made ++ (if flag then [path] else [])))
      by (rewrite Hc; apply in_or_app; right; now left).
    apply in_app_or in H0. destruct H0 as [H0|H0].
    - apply Hin in H0. destruct H0 as (k & K1 & _ & K3). exists k. split; [lia|auto].
    - destruct flag; [|contradiction]. destruct H0 as [<-|[]].
      exists (length path). split; [lia|]. symmetry. apply firstn_all. }
  destruct Hd as (k & Hk & ->). rewrite length_firstn in Hi.
  assert (Hx : firstn i (firstn k path) = firstn i path).
  { rewrite firstn_firstn. f_equal. lia. }
  assert (Hrd : rd path i = 47).
  { rewrite <- Hr. unfold rd. rewrite <- (firstn_skipn k path) at 1.
    rewrite app_nth1 by (rewrite length_firstn; lia). reflexivity. }
  rewrite Hx. apply (sorted_middle l1 l2 (firstn k path)); [exact Hs| |].
  - rewrite <- Hc. apply in_or_app. left. apply Hin. exists i.
    split; [lia|]. split; [exact Hrd|reflexivity].
  - unfold shorter. rewrite !length_firstn. lia.
Qed.

Lemma tree_parents_first_witness : In (firstn 1 str_a_b) [str_a].
Proof.
  apply (tree_parents_first str_a_b_c true [str_a] [str_a_b_c] str_a_b 1).
  - reflexivity.
  - simpl. lia.
  - reflexivity.
Defined.

Lemma split_sep_at_sep (a b : list Z) :
  split_sep (a ++ 47 :: b) = split_sep a ++ split_sep b.
Proof.
  induction a as [|x a IH]; [reflexivity|].
  cbn [app split_sep]. rewrite IH.
  destruct (x =? 47); [reflexivity|].
  destruct (split_sep a) as [|c cs] eqn:E; [now apply split_sep_nonnil in E|].
  reflexivity.
Qed.

Lemma split_at_offset (s : list Z) (i : nat) :
  (i < length s)%nat -> s = firstn i s ++ rd s i :: skipn (S i) s.
Proof.
  revert i. induction s as [|x t IH]; intros i Hi; [simpl in Hi; lia|].
  destruct i as [|i]; [reflexivity|].
  cbn [firstn skipn app]. unfold rd. cbn [nth]. f_equal.
  apply IH. simpl in Hi. lia.
Qed.

(** X17: utilsCreateDirectoryTree after utilsGeneratePath: every
    directory created from a path the path synthesizer returned is shorter
    than FS_MAX_PATH, and its elements behind the first one have at most
    254 bytes. *)
Theorem tree_of_generated_path (FS_MAX_PATH : nat)
    (prefix filename extension : option (list Z)) (out : list Z)
    (flag : bool) (calls : list (list Z)) :
  utilsGeneratePath FS_MAX_PATH prefix filename extension = Some (Path out) ->
  utilsCreateDirectoryTree out flag = Some calls ->
  Forall (fun d => (length d < FS_MAX_PATH)%nat
                   /\ Forall (fun c => (length c <= 254)%nat)
                             (tl (split_sep d))) calls.
Proof.
  intros H Ht.
  destruct (generate_success_inv _ _ _ _ _ H)
    as (Hf & comps & E & Eo & Hl & Es & Hne).
  destruct (gen_components_props _ _ _ _ (split_sep_nonnil _) E)
    as (_ & _ & P3 & _).
  assert (G : Forall (fun c => (length c <= 254)%nat) (tl (split_sep out))).
  { rewrite Es. eapply Forall_impl; [|exact P3].
    unfold NT_MAX_FILENAME_LENGTH. intros c Hc. simpl in Hc. lia. }
  destruct out as [|x t] eqn:Eout.
  { unfold utilsCreateDirectoryTree in Ht. simpl in Ht. inversion Ht.
    constructor. }
  rewrite <- Eout in *. assert (Hno : out <> []) by (subst; discriminate).
  clear Eout x t.
  destruct (tree_calls_facts out flag Hno) as (made & Ec & Hin & _).
  rewrite Ec in Ht. inversion Ht as [Hc]. clear Ht.
  apply Forall_app. split.
  - apply Forall_forall. intros d Hd. apply Hin in Hd.
    destruct Hd as (i & H1 & H2 & ->). rewrite length_firstn.
    split; [lia|].
    pose proof (split_at_offset out i H1) as Hs. rewrite H2 in Hs.
    rewrite Hs, split_sep_at_sep in G.
    destruct (split_sep (firstn i out)) as [|c cs] eqn:E1;
      [now apply split_sep_nonnil in E1|].
    cbn [app tl] in *. apply Forall_app in G. tauto.
  - destruct flag; [|constructor]. constructor; [|constructor]. auto.
Qed.

Lemma tree_of_generated_path_witness :
  Forall (fun d => (length d < FS_MAX_PATH_NX)%nat
                   /\ Forall (fun c => (length c <= 254)%nat)
                             (tl (split_sep d))) scenario_dirs.
Proof.
  apply (tree_of_generated_path FS_MAX_PATH_NX (Some scenario_prefix)
           (Some scenario_name) (Some scenario_ext) scenario_out false).
  - vm_compute. reflexivity.
  - vm_compute. reflexivity.
Defined.

(** ** Properties of utilsAppendFormattedStringToBuffer *)

(** X18: a call of utilsAppendFormattedStringToBuffer on a well-formed
    buffer that fails, also for a failed realloc, leaves pointer and size
    as they were.  After a call that succeeds the block has not shrunk and
    has room for the old string, the text vsnprintf measured and the
    terminator; when vsprintf, which is handed the va_list that vsnprintf
    has traversed, writes no more bytes than were measured, the string is
    the old content followed by the bytes written and the buffer is well
    formed again. *)
Theorem append_keeps_buffer (buf buf' : str_buffer)
    (fmt formatted : option (list Z)) (written : list Z)
    (realloc_ok ok : bool) :
  buffer_ok buf ->
  utilsAppendFormattedStringToBuffer buf fmt formatted written realloc_ok
  = (ok, buf') ->
  (ok = false -> buf' = buf)
  /\ (ok = true ->
      exists text, formatted = Some text
        /\ (b_size buf <= b_size buf')%nat
        /\ (length (b_content buf) + length text < b_size buf')%nat
        /\ ((length written <= length text)%nat ->
            b_dst buf' = Some (b_content buf ++ written)
            /\ buffer_ok buf')).
Proof.
  intros Hok. unfold utilsAppendFormattedStringToBuffer.
  destruct buf as [[s|] sz]; unfold buffer_ok, b_content in *;
    cbn [b_dst b_size bytes_of] in *.
  - replace (sz =? 0)%nat with false by (symmetry; apply Nat.eqb_neq; lia).
    replace (sz <=? length s)%nat with false
      by (symmetry; apply Nat.leb_gt; lia).
    destruct (nonempty_str fmt); cbn [negb andb orb];
      [|intros H; inversion H; subst; split; [auto|discriminate]].
    destruct formatted as [text|];
      [|intros H; inversion H; subst; split; [auto|discriminate]].
    destruct (length text =? 0)%nat eqn:E0;
      [intros H; inversion H; subst; split; [auto|discriminate]|].
    destruct (sz - length s <? length text + 1)%nat eqn:E1.
    + destruct realloc_ok; cbn [negb];
        [|intros H; inversion H; subst; split; [auto|discriminate]].
      apply Nat.ltb_lt in E1. intros H. inversion H; subst.
      cbn [b_dst b_size]. split; [discriminate|].
      intros _. exists text. split; [reflexivity|]. split; [lia|].
      split; [lia|]. intros Hw. split; [reflexivity|].
      rewrite length_app. lia.
    + apply Nat.ltb_ge in E1. intros H. inversion H; subst.
      cbn [b_dst b_size]. split; [discriminate|].
      intros _. exists text. split; [reflexivity|]. split; [lia|].
      split; [lia|]. intros Hw. split; [reflexivity|].
      rewrite length_app. lia.
  - subst sz. cbn [Nat.eqb negb andb orb].
    destruct (nonempty_str fmt); cbn [negb andb orb];
      [|intros H; inversion H; subst; split; [auto|discriminate]].
    destruct formatted as [text|];
      [|intros H; inversion H; subst; split; [auto|discriminate]].
    destruct (length text =? 0)%nat eqn:E0;
      [intros H; inversion H; subst; split; [auto|discriminate]|].
    destruct realloc_ok; cbn [negb];
      [|intros H; inversion H; subst; split; [auto|discriminate]].
    intros H. inversion H; subst. cbn [b_dst b_size app length].
    split; [discriminate|].
    intros _. exists text. split; [reflexivity|]. split; [lia|].
    split; [lia|]. intros Hw. split; [reflexivity|]. lia.
Qed.

Lemma append_keeps_buffer_witness :
  (true = false -> buf_a_grown = buf_a)
  /\ (true = true ->
      exists text, Some str_bc = Some text
        /\ (b_size buf_a <= b_size buf_a_grown)%nat
        /\ (length (b_content buf_a) + length text < b_size buf_a_grown)%nat
        /\ ((length (@nil Z) <= length text)%nat ->
            b_dst buf_a_grown = Some (b_content buf_a ++ [])
            /\ buffer_ok buf_a_grown)).
Proof.
  apply (append_keeps_buffer buf_a buf_a_grown (Some str_fmt) (Some str_bc)
           [] true true).
  - unfold buffer_ok. simpl. lia.
  - reflexivity.
Defined.

(** X19: on a well-formed buffer utilsAppendFormattedStringToBuffer
    succeeds exactly when the format is not empty, the formatted text
    exists and is not empty, and the text with its terminator fits the room
    left in the block or the block can be grown; the block keeps its size
    when the text fits and is otherwise exactly as large as the new string
    and its terminator. *)
Theorem append_succeeds_iff (buf : str_buffer)
    (fmt formatted : option (list Z)) (written : list Z)
    (realloc_ok : bool) :
  buffer_ok buf ->
  (fst (utilsAppendFormattedStringToBuffer buf fmt formatted written
                                           realloc_ok)
   = true <->
   nonempty_str fmt = true
   /\ exists text, formatted = Some text /\ text <> []
        /\ ((length text + 1 <= b_size buf - length (b_content buf))%nat
            \/ realloc_ok = true))
  /\ (fst (utilsAppendFormattedStringToBuffer buf fmt formatted written
                                              realloc_ok)
      = true ->
      forall text, formatted = Some text ->
      b_size (snd (utilsAppendFormattedStringToBuffer buf fmt formatted
                                                      written realloc_ok))
      = if (length text + 1 <=? b_size buf - length (b_content buf))%nat
        then b_size buf
        else (length (b_content buf) + length text + 1)%nat).
Proof.
  intros Hok. cbv zeta. unfold utilsAppendFormattedStringToBuffer.
  destruct buf as [[s|] sz]; unfold buffer_ok, b_content in *;
    cbn [b_dst b_size bytes_of] in *.
  - replace (sz =? 0)%nat with false by (symmetry; apply Nat.eqb_neq; lia).
    replace (sz <=? length s)%nat with false by (symmetry; apply Nat.leb_gt; lia).
    destruct (nonempty_str fmt); cbn [negb andb orb fst snd];
      [|split; [split; [discriminate|intros [H _]; discriminate]|discriminate]].
    destruct formatted as [text|]; cbn [fst snd];
      [|split; [split; [discriminate|intros (_ & t & H & _); discriminate]
               |discriminate]].
    destruct (length text =? 0)%nat eqn:E0; cbn [fst snd].
    { apply Nat.eqb_eq in E0. apply length_zero_iff_nil in E0. subst text.
      split; [split; [discriminate|]|discriminate].
      intros (_ & t & H & Hn & _). inversion H; subst. congruence. }
    assert (Hne : text <> []) by (intros ->; discriminate).
    destruct (sz - length s <? length text + 1)%nat eqn:E1.
    + apply Nat.ltb_lt in E1.
      replace (length text + 1 <=? sz - length s)%nat with false
        by (symmetry; apply Nat.leb_gt; lia).
      destruct realloc_ok; cbn [negb fst snd b_size].
      * split.
        -- split; [intros _|reflexivity]. split; [reflexivity|].
           exists text. auto.
        -- intros _ t H. inversion H; subst.
           destruct (Nat.leb_spec (length t + 1) (sz - length s)); lia.
      * split; [|discriminate]. split; [discriminate|].
        intros (_ & t & H & _ & [Hfit|Hr]); [|discriminate].
        inversion H; subst. lia.
    + apply Nat.ltb_ge in E1.
      replace (length text + 1 <=? sz - length s)%nat with true
        by (symmetry; apply Nat.leb_le; lia).
      cbn [fst snd b_size]. split.
      * split; [intros _|reflexivity]. split; [reflexivity|].
        exists text. split; [reflexivity|]. split; [exact Hne|left; lia].
      * intros _ t H. inversion H; subst.
        destruct (Nat.leb_spec (length t + 1) (sz - length s)); lia.
  - subst sz. cbn [Nat.eqb negb andb orb].
    destruct (nonempty_str fmt); cbn [negb andb orb fst snd];
      [|split; [split; [discriminate|intros [H _]; discriminate]|discriminate]].
    destruct formatted as [text|]; cbn [fst snd];
      [|split; [split; [discriminate|intros (_ & t & H & _); discriminate]
               |discriminate]].
    destruct (length text =? 0)%nat eqn:E0; cbn [fst snd].
    { apply Nat.eqb_eq in E0. apply length_zero_iff_nil in E0. subst text.
      split; [split; [discriminate|]|discriminate].
      intros (_ & t & H & Hn & _). inversion H; subst. congruence. }
    assert (Hne : text <> []) by (intros ->; discriminate).
    cbn [length Nat.sub].
    replace (length text + 1 <=? 0)%nat with false
      by (symmetry; apply Nat.leb_gt; lia).
    destruct realloc_ok; cbn [negb fst snd b_size].
    + split.
      * split; [intros _|reflexivity]. split; [reflexivity|].
        exists text. auto.
      * intros _ t H. inversion H; subst. cbn [length Nat.sub].
        destruct (Nat.leb_spec (length t + 1) 0); cbn; lia.
    + split; [|discriminate]. split; [discriminate|].
      intros (_ & t & H & _ & [Hfit|Hr]); [|discriminate].
      inversion H; subst. simpl in Hfit. lia.
Qed.

Lemma append_succeeds_iff_witness :
  (fst (utilsAppendFormattedStringToBuffer buf_a (Some str_fmt)
          (Some str_bc) [] true) = true <->
   nonempty_str (Some str_fmt) = true
   /\ exists text, Some str_bc = Some text /\ text <> []
        /\ ((length text + 1 <= b_size buf_a - length (b_content buf_a))%nat
            \/ true = true))
  /\ (fst (utilsAppendFormattedStringToBuffer buf_a (Some str_fmt)
             (Some str_bc) [] true) = true ->
      forall text, Some str_bc = Some text ->
      b_size (snd (utilsAppendFormattedStringToBuffer buf_a (Some str_fmt)
                     (Some str_bc) [] true))
      = if (length text + 1 <=? b_size buf_a - length (b_content buf_a))%nat
        then b_size buf_a
        else (length (b_content buf_a) + length text + 1)%nat).
Proof.
  apply (append_succeeds_iff buf_a (Some str_fmt) (Some str_bc) [] true).
  unfold buffer_ok. simpl. lia.
Defined.

